(** * Option resolution of the swc command line front-end

    A shallow embedding of [packages/cli/src/swc/options.ts] and a
    verification of its merge, override and validation rules.

    The program comes first:
    - [Str], [Number], [JS], [Lex], [JSON]: the fragment of ECMAScript the
      source relies on (strings, IEEE doubles, values and plain objects,
      [parseFloat], [JSON.parse]);
    - [Commander]: the option parser the source configures in [initProgram]
      (an external dependency);
    - [Options]: the functions of [options.ts] themselves.

    Then the vocabulary of the statements ([Spec]), the model run on
    concrete inputs ([Sanity]), and the proofs, one module per subject. *)

From Stdlib Require Import List String Ascii Bool ZArith NArith PArith Lia.
From Stdlib Require Import Floats.SpecFloat DecimalString.
Import ListNotations.

Set Warnings "-register-all".

Local Open Scope list_scope.
Local Open Scope string_scope.

(* ===================================================================== *)
(** * Strings

    JavaScript strings are modelled by their UTF-8 bytes.  Every operation
    of the source searches for ASCII delimiters only, and an ASCII byte never
    occurs inside a multi-byte UTF-8 sequence, so the byte view and the
    code-unit view agree on where the delimiters are. *)
(* ===================================================================== *)

Module Str.

Definition quote : ascii := "034"%char.
Definition backslash : ascii := "092"%char.

Definition code (c : ascii) : Z := Z.of_nat (nat_of_ascii c).
Definition chr (z : Z) : ascii := ascii_of_nat (Z.to_nat z).

Definition is_digit (c : ascii) : bool := (48 <=? code c)%Z && (code c <=? 57)%Z.
Definition digit_val (c : ascii) : Z := (code c - 48)%Z.
Definition is_lower (c : ascii) : bool := (97 <=? code c)%Z && (code c <=? 122)%Z.

(** [String.prototype.toUpperCase] on one character; only the ASCII letters
    change (the callers apply it to characters of the class [[-a-z]] and to
    the first letter of a flag word). *)
Definition toUpperCase1 (c : ascii) : ascii :=
  if is_lower c then chr (code c - 32) else c.

Definition eqb_char (a b : ascii) : bool := Ascii.eqb a b.

(** [s.indexOf(c)] for a one-character needle: the index of the first
    occurrence, or [-1]. *)
Fixpoint indexOf (s : string) (c : ascii) : Z :=
  match s with
  | EmptyString => (-1)%Z
  | String d rest =>
      if eqb_char d c then 0%Z
      else let i := indexOf rest c in
           if (i <? 0)%Z then (-1)%Z else (i + 1)%Z
  end.

(** [s.substring(start)] and [s.substring(start, stop)] for
    [0 <= start <= stop]. *)
Fixpoint drop (n : nat) (s : string) : string :=
  match n, s with
  | O, _ => s
  | S n', String _ rest => drop n' rest
  | S _, EmptyString => EmptyString
  end.

Fixpoint take (n : nat) (s : string) : string :=
  match n, s with
  | S n', String c rest => String c (take n' rest)
  | _, _ => EmptyString
  end.

Definition substring (s : string) (start stop : Z) : string :=
  take (Z.to_nat (stop - start)) (drop (Z.to_nat start) s).

Definition substring_from (s : string) (start : Z) : string :=
  drop (Z.to_nat start) s.

(** [s.split(sep)] for a one-character separator.  The result is never
    empty: [split "" ","] is [[""]]. *)
Fixpoint split (sep : ascii) (s : string) : list string :=
  match s with
  | EmptyString => [EmptyString]
  | String c rest =>
      if eqb_char c sep then EmptyString :: split sep rest
      else match split sep rest with
           | w :: ws => String c w :: ws
           | [] => [String c EmptyString]
           end
  end.

(** [parts.join(sep)]. *)
Fixpoint join (sep : string) (parts : list string) : string :=
  match parts with
  | [] => EmptyString
  | [p] => p
  | p :: ps => p ++ sep ++ join sep ps
  end.

Fixpoint starts_with (p s : string) : option string :=
  match p, s with
  | EmptyString, _ => Some s
  | String a p', String b s' => if eqb_char a b then starts_with p' s' else None
  | String _ _, EmptyString => None
  end.


End Str.

(* ===================================================================== *)
(** * Numbers

    A JavaScript Number is an IEEE 754 binary64 value.  The Standard
    Library's [spec_float] gives the values and the correctly rounded
    operations; decimal literals are converted with one rounding, as the
    language requires. *)
(* ===================================================================== *)

Module Number.

Definition prec : Z := 53.
Definition emax : Z := 1024.

Definition number : Type := spec_float.

Definition NaN : number := S754_nan.
Definition Infinity (neg : bool) : number := S754_infinity neg.

(** The Number nearest to the integer [z]. *)
Definition of_Z (z : Z) : number := binary_normalize prec emax z 0 false.

(** The Number nearest to [(-1)^neg * m * 10^k], for [0 <= m]
    (round to nearest, ties to even). *)
Definition of_decimal (neg : bool) (m k : Z) : number :=
  match m with
  | Zpos p =>
      if (0 <=? k)%Z then
        binary_normalize prec emax
          (if neg then (- (Zpos p * 10 ^ k))%Z else (Zpos p * 10 ^ k)%Z) 0 neg
      else
        let '(q, e, l) :=
          SFdiv_core_binary prec emax (Zpos p) 0 (10 ^ (- k))%Z 0 in
        binary_round_aux prec emax neg q e l
  | _ => S754_zero neg
  end.

(** [Number.isInteger(x)]. *)
Definition isInteger (x : number) : bool :=
  match x with
  | S754_zero _ => true
  | S754_finite _ m e =>
      if (0 <=? e)%Z then true else (Zpos m mod 2 ^ (- e) =? 0)%Z
  | _ => false
  end.

(** The mathematical value of an integral Number. *)
Definition to_Z (x : number) : option Z :=
  match x with
  | S754_zero _ => Some 0%Z
  | S754_finite s m e =>
      if isInteger x then
        let a := if (0 <=? e)%Z then (Zpos m * 2 ^ e)%Z else (Zpos m / 2 ^ (- e))%Z in
        Some (if s then (- a)%Z else a)
      else None
  | _ => None
  end.

(** [x < 0]. *)
Definition lt_zero (x : number) : bool := SFltb x (S754_zero false).

(** [ToBoolean] on a Number: [0], [-0] and [NaN] are falsy. *)
Definition truthy (x : number) : bool :=
  match x with
  | S754_zero _ | S754_nan => false
  | _ => true
  end.

Definition eqb (x y : number) : bool :=
  match x, y with
  | S754_zero a, S754_zero b => Bool.eqb a b
  | S754_infinity a, S754_infinity b => Bool.eqb a b
  | S754_nan, S754_nan => true
  | S754_finite a m e, S754_finite b m' e' =>
      Bool.eqb a b && Pos.eqb m m' && Z.eqb e e'
  | _, _ => false
  end.

(** ** [Number::toString] (radix 10)

    For a positive finite [x = num / den] the language picks the least [k]
    for which some [k]-digit integer [s] and exponent [n] have
    [s * 10^(n-k)] round to [x]; among the candidates of that length the one
    nearest to [x] is taken. *)

Definition digits_of (z : Z) : string :=
  DecimalString.NilZero.string_of_uint (N.to_uint (Z.to_N z)).

Definition ratio (x : number) : Z * Z :=
  match x with
  | S754_finite _ m e =>
      if (0 <=? e)%Z then (Zpos m * 2 ^ e, 1)%Z else (Zpos m, 2 ^ (- e))%Z
  | _ => (0, 1)%Z
  end.

(** The [n] with [10^(n-1) <= num/den < 10^n], searched from [n = lo]. *)
Fixpoint magnitude (fuel : nat) (num den n : Z) : Z :=
  match fuel with
  | O => n
  | S fuel' =>
      let below := if (0 <=? n)%Z then (num <? den * 10 ^ n)%Z
                   else (num * 10 ^ (- n) <? den)%Z in
      if below then n else magnitude fuel' num den (n + 1)%Z
  end.

(** [floor (num/den / 10^j)]. *)
Definition scaled_floor (num den j : Z) : Z :=
  if (0 <=? j)%Z then (num / (den * 10 ^ j))%Z else ((num * 10 ^ (- j)) / den)%Z.

(** Distance of [s * 10^j] from [num/den], scaled by a common positive factor. *)
Definition distance (num den s j : Z) : Z :=
  if (0 <=? j)%Z then Z.abs (s * 10 ^ j * den - num)
  else Z.abs (s * den - num * 10 ^ (- j)).

Definition candidate (x : number) (s j : Z) : bool :=
  (0 <? s)%Z && eqb (of_decimal false s j) (SFabs x).

(** The digits [s], their count [k] and the exponent [n]. *)
Fixpoint shortest (fuel : nat) (x : number) (num den n0 k : Z) : Z * Z * Z :=
  let j := (n0 - k)%Z in
  let lo := scaled_floor num den j in
  let hi := (lo + 1)%Z in
  let pick_hi := if (hi =? 10 ^ k)%Z then (10 ^ (k - 1), k, n0 + 1)%Z else (hi, k, n0) in
  let ok_lo := candidate x lo j in
  let ok_hi := candidate x hi j in
  let dlo := distance num den lo j in
  let dhi := distance num den hi j in
  if ok_lo && ok_hi then
    if (dlo <? dhi)%Z then (lo, k, n0)
    else if (dhi <? dlo)%Z then pick_hi
    else if Z.even lo then (lo, k, n0) else pick_hi
  else if ok_lo then (lo, k, n0)
  else if ok_hi then pick_hi
  else match fuel with
       | O => (lo, k, n0)
       | S fuel' => shortest fuel' x num den n0 (k + 1)%Z
       end.

Fixpoint zeros (n : nat) : string :=
  match n with O => EmptyString | S n' => String "0"%char (zeros n') end.

Definition toString (x : number) : string :=
  match x with
  | S754_nan => "NaN"
  | S754_zero _ => "0"
  | S754_infinity s => if s then "-Infinity" else "Infinity"
  | S754_finite sgn _ _ =>
      let '(num, den) := ratio x in
      let n0 := magnitude 700 num den (-330)%Z in
      let '(s, k, n) := shortest 20 x num den n0 1 in
      let ds := digits_of s in
      let body :=
        if (k <=? n)%Z && (n <=? 21)%Z then
          ds ++ zeros (Z.to_nat (n - k))
        else if (0 <? n)%Z && (n <=? 21)%Z then
          Str.take (Z.to_nat n) ds ++ "." ++ Str.drop (Z.to_nat n) ds
        else if (-6 <? n)%Z && (n <=? 0)%Z then
          "0." ++ zeros (Z.to_nat (- n)) ++ ds
        else
          let e := (n - 1)%Z in
          let es := (if (e <? 0)%Z then "-" else "+") ++ digits_of (Z.abs e) in
          if (k =? 1)%Z then ds ++ "e" ++ es
          else Str.take 1 ds ++ "." ++ Str.drop 1 ds ++ "e" ++ es
      in
      if sgn then "-" ++ body else body
  end.

End Number.

(* ===================================================================== *)
(** * Values and plain objects *)
(* ===================================================================== *)

Module JS.

(** The values the option pipeline handles: what [JSON.parse] and the
    option parser produce, and [undefined].  An object is the ordered list of
    its own properties; [set] keeps keys unique.  (Integer-like keys keep
    their insertion position here; nothing below depends on where they
    stand.)  [Arx] is an array that has been given properties besides its
    elements, which only a [-C] directive does. *)
Inductive value : Type :=
| Undefined
| Null
| Bool (b : bool)
| Num (n : Number.number)
| Str (s : string)
| Arr (elems : list value)
| Obj (props : list (string * value))
| Arx (elems : list value) (extra : list (string * value)).

Definition props : Type := list (string * value).

(** Own-property lookup; an absent key reads as [undefined]. *)
Fixpoint get (o : props) (k : string) : value :=
  match o with
  | [] => Undefined
  | (k', v) :: rest => if String.eqb k' k then v else get rest k
  end.

Fixpoint has (o : props) (k : string) : bool :=
  match o with
  | [] => false
  | (k', _) :: rest => String.eqb k' k || has rest k
  end.

(** [o[k] = v]: an existing key keeps its position, a new one goes last. *)
Fixpoint set (o : props) (k : string) (v : value) : props :=
  match o with
  | [] => [(k, v)]
  | (k', v') :: rest =>
      if String.eqb k' k then (k, v) :: rest else (k', v') :: set rest k v
  end.

(** [{...target, ...source}]: copy the own properties of [source] onto
    [target] in order. *)
Definition spread (target source : props) : props :=
  fold_left (fun acc kv => set acc (fst kv) (snd kv)) source target.

(** [Object.fromEntries(entries)]. *)
Definition fromEntries (entries : list (string * value)) : props :=
  spread [] entries.

(** [ToBoolean]. *)
Definition truthy (v : value) : bool :=
  match v with
  | Undefined | Null => false
  | Bool b => b
  | Num n => Number.truthy n
  | Str s => negb (String.eqb s "")
  | Arr _ | Obj _ | Arx _ _ => true
  end.

Definition is_string (v : value) : bool :=
  match v with Str _ => true | _ => false end.

Definition is_undefined (v : value) : bool :=
  match v with Undefined => true | _ => false end.

(** [v == null]. *)
Definition is_nullish (v : value) : bool :=
  match v with Undefined | Null => true | _ => false end.

(** [v !== false]. *)
Definition is_not_false (v : value) : bool :=
  match v with Bool false => false | _ => true end.

(** Exceptions that reach the caller.  The message of a [TypeError] is
    kept without the names and values the engine quotes in it. *)
Inductive exn : Type :=
| TypeError (message : string)
| SyntaxError (message : string)
| Error (message : string).

Definition message (e : exn) : string :=
  match e with TypeError m | SyntaxError m | Error m => m end.

(** [ToString].  A plain object prints through [Object.prototype.toString]
    unless it carries an own [toString] property: a value out of a JSON text
    is never callable, the conversion then finds no usable method and throws.
    An array prints its elements joined by commas, [null] and [undefined]
    elements as empty strings; an own [toString] makes it throw as well, and
    an own [join] makes [Array.prototype.toString] fall back to
    [Object.prototype.toString]. *)
Fixpoint ToString (v : value) : exn + string :=
  match v with
  | Undefined => inr "undefined"
  | Null => inr "null"
  | Bool true => inr "true"
  | Bool false => inr "false"
  | Num n => inr (Number.toString n)
  | Str s => inr s
  | Arr elems =>
      (fix join_elems (l : list value) : exn + string :=
         match l with
         | [] => inr ""
         | x :: rest =>
             let sx := match x with
                       | Undefined | Null => inr ""
                       | _ => ToString x
                       end in
             match sx with
             | inl e => inl e
             | inr a =>
                 match rest with
                 | [] => inr a
                 | _ => match join_elems rest with
                        | inl e => inl e
                        | inr b => inr (a ++ "," ++ b)
                        end
                 end
             end
         end) elems
  | Obj o =>
      if has o "toString"
      then inl (TypeError "Cannot convert object to primitive value")
      else inr "[object Object]"
  | Arx elems extra =>
      if has extra "toString"
      then inl (TypeError "Cannot convert object to primitive value")
      else if has extra "join" then inr "[object Array]"
      else
        (fix join_elems (l : list value) : exn + string :=
           match l with
           | [] => inr ""
           | x :: rest =>
               let sx := match x with
                         | Undefined | Null => inr ""
                         | _ => ToString x
                         end in
               match sx with
               | inl e => inl e
               | inr a =>
                   match rest with
                   | [] => inr a
                   | _ => match join_elems rest with
                          | inl e => inl e
                          | inr b => inr (a ++ "," ++ b)
                          end
                   end
               end
           end) elems
  end.

End JS.

(* ===================================================================== *)
(** * Lexing decimal digits, [parseFloat] *)
(* ===================================================================== *)

Module Lex.

(** The longest run of decimal digits at the head of [s], and what follows. *)
Fixpoint take_digits (s : string) : string * string :=
  match s with
  | String c rest =>
      if Str.is_digit c
      then let '(ds, r) := take_digits rest in (String c ds, r)
      else (EmptyString, s)
  | EmptyString => (EmptyString, EmptyString)
  end.

Fixpoint digits_value_from (acc : Z) (ds : string) : Z :=
  match ds with
  | EmptyString => acc
  | String c rest => digits_value_from (acc * 10 + Str.digit_val c)%Z rest
  end.

Definition digits_value (ds : string) : Z := digits_value_from 0 ds.

Definition is_nil (s : string) : bool :=
  match s with EmptyString => true | _ => false end.

(** An optional exponent part [e], [E] with an optional sign and at least one
    digit; without digits the [e] is not part of the literal. *)
Definition exponent_part (s : string) : option (Z * string) :=
  match s with
  | String c rest =>
      if Str.eqb_char c "e" || Str.eqb_char c "E" then
        let '(neg, r1) :=
          match rest with
          | String sg r' =>
              if Str.eqb_char sg "-" then (true, r')
              else if Str.eqb_char sg "+" then (false, r')
              else (false, rest)
          | EmptyString => (false, rest)
          end in
        let '(ds, r2) := take_digits r1 in
        if is_nil ds then None
        else Some (if neg then (- digits_value ds)%Z else digits_value ds, r2)
      else None
  | EmptyString => None
  end.

(** White space and line terminators that [parseFloat] skips, as UTF-8. *)
Definition b (n : nat) : ascii := ascii_of_nat n.
Definition bytes (l : list nat) : string :=
  fold_right (fun n acc => String (b n) acc) EmptyString l.

Definition white_space : list string :=
  map bytes
    ([[9]; [10]; [11]; [12]; [13]; [32];
      [194; 160]; [225; 154; 128];
      [226; 128; 128]; [226; 128; 129]; [226; 128; 130]; [226; 128; 131];
      [226; 128; 132]; [226; 128; 133]; [226; 128; 134]; [226; 128; 135];
      [226; 128; 136]; [226; 128; 137]; [226; 128; 138];
      [226; 128; 168]; [226; 128; 169]; [226; 128; 175];
      [226; 129; 159]; [227; 128; 128]; [239; 187; 191]])%list.

Fixpoint strip_one (ws : list string) (s : string) : option string :=
  match ws with
  | [] => None
  | w :: ws' =>
      match Str.starts_with w s with
      | Some rest => Some rest
      | None => strip_one ws' s
      end
  end.

Fixpoint trim_start_fuel (fuel : nat) (s : string) : string :=
  match fuel with
  | O => s
  | S fuel' =>
      match strip_one white_space s with
      | Some rest => trim_start_fuel fuel' rest
      | None => s
      end
  end.

Definition trim_start (s : string) : string := trim_start_fuel (String.length s) s.

(** [parseFloat] on a string: the longest prefix of the trimmed input that
    is a decimal literal ([Infinity], digits with an optional fraction and
    exponent, each optionally signed); [NaN] when there is none. *)
Definition parseFloat_string (input : string) : Number.number :=
  let t := trim_start input in
  let '(neg, u) :=
    match t with
    | String c rest =>
        if Str.eqb_char c "-" then (true, rest)
        else if Str.eqb_char c "+" then (false, rest)
        else (false, t)
    | EmptyString => (false, t)
    end in
  match Str.starts_with "Infinity" u with
  | Some _ => Number.Infinity neg
  | None =>
      let '(ip, r1) := take_digits u in
      let '(fp, r2) :=
        match r1 with
        | String c rest =>
            if Str.eqb_char c "." then take_digits rest else (EmptyString, r1)
        | EmptyString => (EmptyString, r1)
        end in
      if is_nil ip && is_nil fp then Number.NaN
      else
        let ex := match exponent_part r2 with
                  | Some (e, _) => e
                  | None => 0%Z
                  end in
        Number.of_decimal neg (digits_value (ip ++ fp))
          (ex - Z.of_nat (String.length fp))
  end.

End Lex.

(** [parseFloat(v)]: the argument is converted to a string first. *)
Definition parseFloat (v : JS.value) : JS.exn + Number.number :=
  match JS.ToString v with
  | inl e => inl e
  | inr s => inr (Lex.parseFloat_string s)
  end.

(* ===================================================================== *)
(** * [JSON.parse] *)
(* ===================================================================== *)

Module JSON.
Import JS.

(** A parsing step consumes a prefix, rejects the text, or runs out of the
    recursion budget ([parse] below always hands out enough). *)
Inductive step (A : Type) : Type :=
| Ok (a : A) (rest : string)
| Reject
| OutOfFuel.
Arguments Ok {A} a rest.
Arguments Reject {A}.
Arguments OutOfFuel {A}.

Definition is_ws (c : ascii) : bool :=
  let n := Str.code c in
  (n =? 32)%Z || (n =? 9)%Z || (n =? 10)%Z || (n =? 13)%Z.

Fixpoint skip_ws (s : string) : string :=
  match s with
  | String c rest => if is_ws c then skip_ws rest else s
  | EmptyString => s
  end.

(** ** Numbers: an optional minus, [0] or a digit run without leading zero,
    an optional fraction with at least one digit, an optional exponent. *)
Definition parse_number (s : string) : step Number.number :=
  let '(neg, s1) :=
    match s with
    | String c rest => if Str.eqb_char c "-" then (true, rest) else (false, s)
    | EmptyString => (false, s)
    end in
  let int_part :=
    match s1 with
    | String c rest =>
        if Str.eqb_char c "0" then Some ("0", rest)
        else if Str.is_digit c then Some (Lex.take_digits s1)
        else None
    | EmptyString => None
    end in
  match int_part with
  | None => Reject
  | Some (ip, r1) =>
      let frac :=
        match r1 with
        | String c rest =>
            if Str.eqb_char c "." then
              let '(fp, r) := Lex.take_digits rest in
              if Lex.is_nil fp then None else Some (fp, r)
            else Some (EmptyString, r1)
        | EmptyString => Some (EmptyString, r1)
        end in
      match frac with
      | None => Reject
      | Some (fp, r2) =>
          let with_exp (e : Z) (r : string) :=
            Ok (Number.of_decimal neg (Lex.digits_value (ip ++ fp))
                  (e - Z.of_nat (String.length fp))) r in
          match r2 with
          | String c _ =>
              if Str.eqb_char c "e" || Str.eqb_char c "E" then
                match Lex.exponent_part r2 with
                | Some (e, r3) => with_exp e r3
                | None => Reject
                end
              else with_exp 0%Z r2
          | EmptyString => with_exp 0%Z r2
          end
      end
  end.

(** ** Strings *)

Definition hex_val (c : ascii) : option Z :=
  let n := Str.code c in
  if Str.is_digit c then Some (n - 48)%Z
  else if (97 <=? n)%Z && (n <=? 102)%Z then Some (n - 87)%Z
  else if (65 <=? n)%Z && (n <=? 70)%Z then Some (n - 55)%Z
  else None.

(** Four hexadecimal digits. *)
Definition hex4 (s : string) : option (Z * string) :=
  match s with
  | String a (String b (String c (String d rest))) =>
      match hex_val a, hex_val b, hex_val c, hex_val d with
      | Some x, Some y, Some z, Some w =>
          Some (((x * 16 + y) * 16 + z) * 16 + w, rest)%Z
      | _, _, _, _ => None
      end
  | _ => None
  end.

(** The UTF-8 bytes of a code point (a lone surrogate gets the three-byte
    form). *)
Definition utf8 (cp : Z) : string :=
  let cont (x : Z) := Str.chr (128 + x mod 64)%Z in
  if (cp <? 128)%Z then String (Str.chr cp) EmptyString
  else if (cp <? 2048)%Z then
    String (Str.chr (192 + cp / 64)%Z) (String (cont cp) EmptyString)
  else if (cp <? 65536)%Z then
    String (Str.chr (224 + cp / 4096)%Z)
      (String (cont (cp / 64)%Z) (String (cont cp) EmptyString))
  else
    String (Str.chr (240 + cp / 262144)%Z)
      (String (cont (cp / 4096)%Z)
         (String (cont (cp / 64)%Z) (String (cont cp) EmptyString))).

(** A [\uXXXX] escape, joined with a following low surrogate escape when it
    is a high surrogate. *)
Definition unicode_escape (s : string) : option (string * string) :=
  match hex4 s with
  | None => None
  | Some (u, r) =>
      let single := Some (utf8 u, r) in
      if (55296 <=? u)%Z && (u <=? 56319)%Z then
        match r with
        | String b1 (String b2 r') =>
            if Str.eqb_char b1 Str.backslash && Str.eqb_char b2 "u" then
              match hex4 r' with
              | Some (lo, r'') =>
                  if (56320 <=? lo)%Z && (lo <=? 57343)%Z
                  then Some (utf8 (65536 + (u - 55296) * 1024 + (lo - 56320))%Z, r'')
                  else single
              | None => single
              end
            else single
        | _ => single
        end
      else single
  end.

Definition simple_escape (c : ascii) : option ascii :=
  if Str.eqb_char c Str.quote then Some Str.quote
  else if Str.eqb_char c Str.backslash then Some Str.backslash
  else if Str.eqb_char c "/" then Some "/"%char
  else if Str.eqb_char c "b" then Some (Str.chr 8)
  else if Str.eqb_char c "f" then Some (Str.chr 12)
  else if Str.eqb_char c "n" then Some (Str.chr 10)
  else if Str.eqb_char c "r" then Some (Str.chr 13)
  else if Str.eqb_char c "t" then Some (Str.chr 9)
  else None.

(** The characters of a string literal after its opening quote, up to and
    including the closing quote. *)
Fixpoint parse_chars (fuel : nat) (s : string) : step string :=
  match fuel with
  | O => OutOfFuel
  | S fuel' =>
      match s with
      | EmptyString => Reject
      | String c rest =>
          if Str.eqb_char c Str.quote then Ok EmptyString rest
          else if Str.eqb_char c Str.backslash then
            match rest with
            | EmptyString => Reject
            | String e rest' =>
                let escaped :=
                  if Str.eqb_char e "u" then unicode_escape rest'
                  else match simple_escape e with
                       | Some x => Some (String x EmptyString, rest')
                       | None => None
                       end in
                match escaped with
                | None => Reject
                | Some (bytes, r) =>
                    match parse_chars fuel' r with
                    | Ok tl r' => Ok (bytes ++ tl) r'
                    | Reject => Reject
                    | OutOfFuel => OutOfFuel
                    end
                end
            end
          else if (Str.code c <? 32)%Z then Reject
          else match parse_chars fuel' rest with
               | Ok tl r' => Ok (String c tl) r'
               | Reject => Reject
               | OutOfFuel => OutOfFuel
               end
      end
  end.

(** ** Values *)

Definition literal (word : string) (v : value) (s : string) : step value :=
  match Str.starts_with word s with
  | Some rest => Ok v rest
  | None => Reject
  end.

Fixpoint parse_value (fuel : nat) (s : string) : step value :=
  match fuel with
  | O => OutOfFuel
  | S fuel' =>
      match skip_ws s with
      | EmptyString => Reject
      | String c rest as s' =>
          if Str.eqb_char c "{" then
            match skip_ws rest with
            | String d rest' as body =>
                if Str.eqb_char d "}" then Ok (Obj []) rest'
                else match parse_members fuel' body [] with
                     | Ok o r => Ok (Obj o) r
                     | Reject => Reject
                     | OutOfFuel => OutOfFuel
                     end
            | EmptyString => Reject
            end
          else if Str.eqb_char c "[" then
            match skip_ws rest with
            | String d rest' as body =>
                if Str.eqb_char d "]" then Ok (Arr []) rest'
                else match parse_elements fuel' body with
                     | Ok l r => Ok (Arr l) r
                     | Reject => Reject
                     | OutOfFuel => OutOfFuel
                     end
            | EmptyString => Reject
            end
          else if Str.eqb_char c Str.quote then
            match parse_chars (S (String.length rest)) rest with
            | Ok str r => Ok (Str str) r
            | Reject => Reject
            | OutOfFuel => OutOfFuel
            end
          else if Str.eqb_char c "t" then literal "true" (Bool true) s'
          else if Str.eqb_char c "f" then literal "false" (Bool false) s'
          else if Str.eqb_char c "n" then literal "null" Null s'
          else match parse_number s' with
               | Ok n r => Ok (Num n) r
               | Reject => Reject
               | OutOfFuel => OutOfFuel
               end
      end
  end

(** The elements of a non-empty array, from the first element on. *)
with parse_elements (fuel : nat) (s : string) : step (list value) :=
  match fuel with
  | O => OutOfFuel
  | S fuel' =>
      match parse_value fuel' s with
      | Ok v r =>
          match skip_ws r with
          | String c rest =>
              if Str.eqb_char c "," then
                match parse_elements fuel' rest with
                | Ok vs r' => Ok (v :: vs) r'
                | Reject => Reject
                | OutOfFuel => OutOfFuel
                end
              else if Str.eqb_char c "]" then Ok [v] rest
              else Reject
          | EmptyString => Reject
          end
      | Reject => Reject
      | OutOfFuel => OutOfFuel
      end
  end

(** The members of a non-empty object, from the first key on; a repeated key
    keeps its first position and takes the last value. *)
with parse_members (fuel : nat) (s : string) (acc : props) : step props :=
  match fuel with
  | O => OutOfFuel
  | S fuel' =>
      match skip_ws s with
      | String q after_quote =>
          if Str.eqb_char q Str.quote then
            match parse_chars (S (String.length after_quote)) after_quote with
            | Ok key r =>
                match skip_ws r with
                | String colon r1 =>
                    if Str.eqb_char colon ":" then
                      match parse_value fuel' r1 with
                      | Ok v r2 =>
                          let acc' := set acc key v in
                          match skip_ws r2 with
                          | String c rest =>
                              if Str.eqb_char c "," then parse_members fuel' rest acc'
                              else if Str.eqb_char c "}" then Ok acc' rest
                              else Reject
                          | EmptyString => Reject
                          end
                      | Reject => Reject
                      | OutOfFuel => OutOfFuel
                      end
                    else Reject
                | EmptyString => Reject
                end
            | Reject => Reject
            | OutOfFuel => OutOfFuel
            end
          else Reject
      | EmptyString => Reject
      end
  end.

(** [JSON.parse(text)]: one value between optional white space, or a
    [SyntaxError]. *)
Definition parse (text : string) : exn + value :=
  match parse_value (2 * String.length text + 2) text with
  | Ok v rest =>
      match skip_ws rest with
      | EmptyString => inr v
      | String _ _ => inl (SyntaxError "Unexpected token in JSON")
      end
  | Reject | OutOfFuel => inl (SyntaxError "Unexpected token in JSON")
  end.

End JSON.

(* ===================================================================== *)
(** * The option parser (commander)

    [options.ts] declares its flags through commander and reads back the
    option values, their sources and the operands.  Commander is not part of
    the repository; this module models how its release 8.3 (the first with
    [getOptionValueSource]) declares an option, splits the argument vector
    into option occurrences and operands, and handles each occurrence. *)
(* ===================================================================== *)

Module Commander.
Import JS.

Inductive arity : Type :=
| Flag        (* --watch *)
| Optional    (* --out-dir [out] *)
| Required.   (* --config <config> *)

(** One declared option.  [parseArg] is the custom processing function
    [(value, previous) => ...] given to [program.option]. *)
Record OptionDecl : Type := {
  short : option string;
  long : string;
  arg : arity;
  parseArg : option (value -> value -> exn + value);
  defaultValue : value
}.

Definition negate (o : OptionDecl) : bool :=
  match Str.starts_with "--no-" (long o) with Some _ => true | None => false end.

(** [camelcase]: the words between hyphens, each but the first capitalised. *)
Definition capitalize (w : string) : string :=
  match w with
  | String c rest => String (Str.toUpperCase1 c) rest
  | EmptyString => EmptyString
  end.

Definition camelcase (s : string) : string :=
  match Str.split "-" s with
  | w :: ws => w ++ String.concat "" (map capitalize ws)
  | [] => EmptyString
  end.

(** [option.name()] and [option.attributeName()]: the key under which the
    value is stored. *)
Definition name (o : OptionDecl) : string := Str.drop 2 (long o).

Definition attributeName (o : OptionDecl) : string :=
  camelcase (match Str.starts_with "no-" (name o) with
             | Some positive => positive
             | None => name o
             end).

(** The state of a [Command]: [_optionValues], [_optionValueSources] and
    [args]. *)
Record Command : Type := {
  options : list OptionDecl;
  optionValues : props;
  optionValueSources : list (string * string);
  args : list string
}.

Fixpoint lookup_source (l : list (string * string)) (k : string) : option string :=
  match l with
  | [] => None
  | (k', v) :: rest => if String.eqb k' k then Some v else lookup_source rest k
  end.

(** [program.getOptionValueSource(key)]; [None] is [undefined]. *)
Definition getOptionValueSource (program : Command) (key : string) : option string :=
  lookup_source (optionValueSources program) key.

(** [program.opts()]. *)
Definition opts (program : Command) : props := optionValues program.

Definition setOptionValueWithSource
    (program : Command) (key : string) (v : value) (source : string) : Command :=
  {| options := options program;
     optionValues := set (optionValues program) key v;
     optionValueSources := (key, source) :: optionValueSources program;
     args := args program |}.

Definition findOption (schema : list OptionDecl) (flag : string) : option OptionDecl :=
  find (fun o => String.eqb (long o) flag
                 || match short o with
                    | Some f => String.eqb f flag
                    | None => false
                    end) schema.

(** [addOption].  A negated flag without a positive twin defaults to [true];
    a default that is not [undefined] is stored with source ["default"] (for
    a plain flag only when it is a boolean).  The option is registered with
    the default its handler will see. *)
Definition is_boolean (v : value) : bool :=
  match v with Bool _ => true | _ => false end.

Definition addOption (program : Command) (o : OptionDecl) : Command :=
  let key := attributeName o in
  let preassign :=
    negate o
    || match arg o with Flag => false | _ => true end
    || is_boolean (defaultValue o) in
  let dflt :=
    if preassign && negate o then
      match findOption (options program) ("--" ++ Str.drop 5 (long o)) with
      | Some _ => get (optionValues program) key
      | None => Bool true
      end
    else defaultValue o in
  let stored :=
    if preassign && negb (is_undefined dflt)
    then setOptionValueWithSource program key dflt "default"
    else program in
  {| options :=
       (options stored
        ++ [{| short := short o; long := long o; arg := arg o;
               parseArg := parseArg o; defaultValue := dflt |}])%list;
     optionValues := optionValues stored;
     optionValueSources := optionValueSources stored;
     args := args stored |}.

Definition is_boolean_or_undefined (v : value) : bool :=
  match v with Bool _ | Undefined => true | _ => false end.

Definition is_null (v : value) : bool :=
  match v with Null => true | _ => false end.

(** The handler of an option event.  [val] is the argument string, [null]
    for an optional argument left out, [undefined] for a boolean flag. *)
Definition handleOptionValue
    (o : OptionDecl) (val : value) (program : Command) : exn + Command :=
  let key := attributeName o in
  let oldValue := get (optionValues program) key in
  let processed :=
    match parseArg o with
    | Some fn =>
        if is_null val then inr val
        else fn val (if is_undefined oldValue then defaultValue o else oldValue)
    | None => inr val
    end in
  match processed with
  | inl e => inl e
  | inr val' =>
      if is_boolean_or_undefined oldValue then
        if is_nullish val' then
          inr (setOptionValueWithSource program key
                 (if negate o then Bool false
                  else if truthy (defaultValue o) then defaultValue o else Bool true)
                 "cli")
        else inr (setOptionValueWithSource program key val' "cli")
      else if is_null val' then inr program
      else inr (setOptionValueWithSource program key
                  (if negate o then Bool false else val') "cli")
  end.

(** One option as it occurs on the command line: the flag as written and the
    argument bound to it, if any. *)
Record occurrence : Type := { flag : string; argument : option string }.

Record invocation : Type := {
  occurrences : list occurrence;
  operands : list string
}.

(** How [program.parse] ends. *)
Inductive parsed : Type :=
| Parsed (program : Command)
| Halted (code : Z)      (* commander ended the process: usage error, help, version *)
| Raised (e : exn).      (* a custom processing function threw *)

Definition is_help (f : string) : bool := String.eqb f "-h" || String.eqb f "--help".
Definition is_version (f : string) : bool := String.eqb f "-V" || String.eqb f "--version".

Inductive scan : Type :=
| Scanned (program : Command) (unknown : list string)
| Stopped (code : Z)
| Threw (e : exn).

(** Options are handled in encounter order.  The version flag and a missing
    required argument end the process at once; an occurrence commander cannot
    match is kept as unknown and reported once all tokens are read. *)
Fixpoint parseOptions
    (program : Command) (occs : list occurrence) (unknown : list string) : scan :=
  match occs with
  | [] => Scanned program unknown
  | occ :: rest =>
      if is_version (flag occ) then Stopped 0%Z
      else
        match findOption (options program) (flag occ) with
        | None => parseOptions program rest (unknown ++ [flag occ])%list
        | Some o =>
            match arg o, argument occ with
            | Required, None => Stopped 1%Z
            | Flag, Some _ => parseOptions program rest (unknown ++ [flag occ])%list
            | _, a =>
                let val := match arg o, a with
                           | Flag, _ => Undefined
                           | _, Some text => Str text
                           | _, None => Null
                           end in
                match handleOptionValue o val program with
                | inl e => Threw e
                | inr program' => parseOptions program' rest unknown
                end
            end
        end
  end.

(** The option events of a command line, then the check for unknown
    options. *)
Definition run (program : Command) (inv : invocation) : parsed :=
  match parseOptions program (occurrences inv) [] with
  | Threw e => Raised e
  | Stopped code => Halted code
  | Scanned program' unknown =>
      match unknown with
      | [] =>
          Parsed {| options := options program';
                    optionValues := optionValues program';
                    optionValueSources := optionValueSources program';
                    args := operands inv |}
      | _ => Halted (if existsb is_help unknown then 0 else 1)%Z
      end
  end.

(** ** From the argument vector to occurrences

    An argument that may be an option starts with a hyphen and has more than
    one character. *)
Definition maybeOption (arg : string) : bool :=
  match arg with
  | String c (String _ _) => Str.eqb_char c "-"
  | _ => false
  end.

(** The arity of a flag as written, if it is declared; the version flag is
    a plain flag. *)
Definition arityOf (schema : list OptionDecl) (f : string) : option arity :=
  if is_version f then Some Flag
  else option_map arg (findOption schema f).

Definition dash (rest : string) : string := String "-" rest.

Inductive residual : Type :=
| Done
| Normal (token : string).

(** A cluster of short flags, given without its leading hyphen: plain flags
    are peeled off one by one; a flag with an argument takes the remainder
    as its value; what cannot be peeled is handed back as a token. *)
Fixpoint cluster (schema : list OptionDecl) (chars : string)
  : list occurrence * residual :=
  match chars with
  | EmptyString => ([], Normal (dash chars))
  | String c tail =>
      match tail with
      | EmptyString => ([], Normal (dash chars))
      | String _ _ =>
          if Str.eqb_char c "-" then ([], Normal (dash chars))
          else
            let f := dash (String c EmptyString) in
            match arityOf schema f with
            | Some Flag =>
                let '(events, r) := cluster schema tail in
                ({| flag := f; argument := None |} :: events, r)
            | Some _ => ([{| flag := f; argument := Some tail |}], Done)
            | None => ([], Normal (dash chars))
            end
      end
  end.

Definition expand (schema : list OptionDecl) (arg : string)
  : list occurrence * residual :=
  match arg with
  | String c chars => if Str.eqb_char c "-" then cluster schema chars
                      else ([], Normal arg)
  | EmptyString => ([], Normal arg)
  end.

(** [--flag=value] for a declared flag that takes an argument. *)
Definition longWithValue (schema : list OptionDecl) (arg : string)
  : option occurrence :=
  match arg with
  | String a (String b (String c _)) =>
      let i := Str.indexOf arg "=" in
      if Str.eqb_char a "-" && Str.eqb_char b "-" && negb (Str.eqb_char c "=")
         && (0 <=? i)%Z
      then
        let f := Str.substring arg 0 i in
        match arityOf schema f with
        | Some Required | Some Optional =>
            Some {| flag := f; argument := Some (Str.substring_from arg (i + 1)) |}
        | _ => None
        end
      else None
  | _ => None
  end.

Definition prepend (events : list occurrence) (inv : invocation) : invocation :=
  {| occurrences := (events ++ occurrences inv)%list; operands := operands inv |}.

Definition operand (arg : string) (inv : invocation) : invocation :=
  {| occurrences := occurrences inv; operands := arg :: operands inv |}.

(** The loop of [parseOptions] over the user arguments.  A required argument
    is the next token whatever it looks like; an optional one is the next
    token unless that may be an option; after [--] everything is an operand.
    An option that is not declared is passed on as an occurrence of its own
    and ends up among the unknown. *)
Fixpoint tokenize (schema : list OptionDecl) (argv : list string) : invocation :=
  match argv with
  | [] => {| occurrences := []; operands := [] |}
  | arg :: rest =>
      let '(peeled, r) := expand schema arg in
      match r with
      | Done => prepend peeled (tokenize schema rest)
      | Normal token =>
          let bare := (peeled ++ [{| flag := token; argument := None |}])%list in
          if String.eqb token "--" then {| occurrences := peeled; operands := rest |}
          else
            match (if maybeOption token then arityOf schema token else None) with
            | Some Required =>
                match rest with
                | v :: rest' =>
                    prepend (peeled ++ [{| flag := token; argument := Some v |}])%list
                      (tokenize schema rest')
                | [] => {| occurrences := bare; operands := [] |}
                end
            | Some Optional =>
                match rest with
                | v :: rest' =>
                    if maybeOption v then prepend bare (tokenize schema rest)
                    else prepend (peeled ++ [{| flag := token; argument := Some v |}])%list
                           (tokenize schema rest')
                | [] => {| occurrences := bare; operands := [] |}
                end
            | Some Flag => prepend bare (tokenize schema rest)
            | None =>
                match longWithValue schema token with
                | Some occ => prepend (peeled ++ [occ])%list (tokenize schema rest)
                | None =>
                    if maybeOption token then prepend bare (tokenize schema rest)
                    else operand token (prepend peeled (tokenize schema rest))
                end
            end
      end
  end.

(** [program.parse(argv)]: the first two entries are the interpreter and the
    script. *)
Definition parse (program : Command) (argv : list string) : parsed :=
  run program (tokenize (options program) (skipn 2 argv)).

(** [splitOptionFlags]: the flag words of a declaration such as
    ["-o, --out-file [out]"], separated by runs of spaces, commas and bars. *)
Definition is_flag_separator (c : ascii) : bool :=
  Str.eqb_char c " " || Str.eqb_char c "," || Str.eqb_char c "|".

Fixpoint flag_words (s : string) : list string :=
  match s with
  | EmptyString => [EmptyString]
  | String c rest =>
      if is_flag_separator c then
        match rest with
        | String d _ => if is_flag_separator d then flag_words rest
                        else EmptyString :: flag_words rest
        | EmptyString => [EmptyString; EmptyString]
        end
      else match flag_words rest with
           | w :: ws => String c w :: ws
           | [] => [String c EmptyString]
           end
  end.

Definition opens_argument (w : string) : bool :=
  match w with
  | String c _ => Str.eqb_char c "[" || Str.eqb_char c "<"
  | EmptyString => false
  end.

Definition splitOptionFlags (flags : string) : option string * string :=
  match flag_words flags with
  | w1 :: w2 :: _ => if opens_argument w2 then (None, w1) else (Some w1, w2)
  | [w1] => (None, w1)
  | [] => (None, EmptyString)
  end.

(** [program.option(flags, description, fn, defaultValue)] builds the
    declaration: an argument in angle brackets is required, one in square
    brackets optional. *)
Definition option
    (flags : string) (fn : option (value -> value -> exn + value)) (dflt : value)
  : OptionDecl :=
  let '(s, l) := splitOptionFlags flags in
  {| short := s;
     long := l;
     arg := if (0 <=? Str.indexOf flags "<")%Z then Required
            else if (0 <=? Str.indexOf flags "[")%Z then Optional
            else Flag;
     parseArg := fn;
     defaultValue := dflt |}.

Definition empty : Command :=
  {| options := []; optionValues := []; optionValueSources := []; args := [] |}.

End Commander.

(* ===================================================================== *)
(** * [options.ts] *)
(* ===================================================================== *)

Module Options.
Import JS.

(** ** Process effects

    [parserArgs] ends in one of five ways: it returns, it prints to the error
    stream and calls [process.exit], commander ends the process during
    [program.parse], an exception escapes, or the run leaves the fragment of
    the language modelled here (see [assign]). *)
Inductive outcome (A : Type) : Type :=
| Return (a : A)
| Exit (stderr : list string) (code : Z)
| Halt (code : Z)
| Throw (e : exn)
| Unmodelled.
Arguments Return {A} a.
Arguments Exit {A} stderr code.
Arguments Halt {A} code.
Arguments Throw {A} e.
Arguments Unmodelled {A}.

Definition bind {A B : Type} (m : outcome A) (k : A -> outcome B) : outcome B :=
  match m with
  | Return a => k a
  | Exit stderr code => Exit stderr code
  | Halt code => Halt code
  | Throw e => Throw e
  | Unmodelled => Unmodelled
  end.

Notation "x <- m ;; k" := (bind m (fun x => k))
  (at level 61, m at next level, right associativity).
Notation "m ;;; k" := (bind m (fun _ => k))
  (at level 61, right associativity).

Definition lift {A : Type} (r : exn + A) : outcome A :=
  match r with inl e => Throw e | inr a => Return a end.

(** The file system as [readFileSync(resolve(process.cwd(), path), "utf-8")]
    sees it: the text behind a path, if it can be read. *)
Record World : Type := { readFile : string -> option string }.

Definition DEFAULT_EXTENSIONS : list string :=
  [".js"; ".jsx"; ".es6"; ".es"; ".mjs"; ".ts"; ".tsx"; ".cts"; ".mts"].

(** ** [unstringify] *)
Definition unstringify (val : value) : value :=
  match ToString val with
  | inr text =>
      match JSON.parse text with
      | inr v => v
      | inl _ => val
      end
  | inl _ => val
  end.

(** ** [collect] *)

(** [previousValue.concat(values)] for an array argument. *)
Definition concat (previousValue : value) (values : list value) : exn + value :=
  match previousValue with
  | Arr l => inr (Arr (l ++ values)%list)
  | Arx l extra =>
      if has extra "concat"
      then inl (TypeError "previousValue.concat is not a function")
      else inr (Arr (l ++ values)%list)
  | Str p =>
      match ToString (Arr values) with
      | inr joined => inr (Str (p ++ joined))
      | inl e => inl e
      end
  | _ => inl (TypeError "previousValue.concat is not a function")
  end.

Definition collect (value previousValue : JS.value) : exn + JS.value :=
  match value with
  | Str text =>
      let values := map Str (Str.split "," text) in
      if truthy previousValue then concat previousValue values
      else inr (Arr values)
  | _ => inr previousValue
  end.

(** ** [initProgram]

    The options in the order of the [program.option] calls. *)
Definition declarations : list Commander.OptionDecl :=
  let collect := Some collect in
  let unstringify := Some (fun val _ => inr (unstringify val)) in
  [ Commander.option "-f, --filename [filename]" None Undefined;
    Commander.option "--config-file [path]" None Undefined;
    Commander.option "--cli-config-file [path]" None Undefined;
    Commander.option "--env-name [name]" None Undefined;
    Commander.option "--no-swcrc" None Undefined;
    Commander.option "--delete-dir-on-start" None Undefined;
    Commander.option "--ignore [list]" collect Undefined;
    Commander.option "--only [list]" collect Undefined;
    Commander.option "-w, --watch" None Undefined;
    Commander.option "-q, --quiet" None Undefined;
    Commander.option "-s, --source-maps [true|false|inline|both]" unstringify Undefined;
    Commander.option "--source-map-target [string]" None Undefined;
    Commander.option "--source-file-name [string]" None Undefined;
    Commander.option "--source-root [filename]" None Undefined;
    Commander.option "-o, --out-file [out]" None Undefined;
    Commander.option "-d, --out-dir [out]" None Undefined;
    Commander.option "--out-file-extension [string]" None Undefined;
    Commander.option "-D, --copy-files" None Undefined;
    Commander.option "--strip-leading-paths" None (Bool false);
    Commander.option "--include-dotfiles" None Undefined;
    Commander.option "-C, --config <config>" collect Undefined;
    Commander.option "--sync" collect Undefined;
    Commander.option "--workers [number]" None Undefined;
    Commander.option "--log-watch-compilation" None (Bool true);
    Commander.option "--extensions [list]" collect Undefined ].

Definition initProgram : Commander.Command :=
  fold_left Commander.addOption declarations Commander.empty.

(** ** [loadCLIConfigFile] *)

(** [key.replace(/(-[-a-z])/g, (_, m) => m.substring(1).toUpperCase())]:
    scanning left to right, a hyphen followed by a hyphen or a lower-case
    letter is replaced by that second character in upper case. *)
Fixpoint camelCaseKey (key : string) : string :=
  match key with
  | EmptyString => EmptyString
  | String c rest =>
      match rest with
      | String d rest' =>
          if Str.eqb_char c "-" && (Str.eqb_char d "-" || Str.is_lower d)
          then String (Str.toUpperCase1 d) (camelCaseKey rest')
          else String c (camelCaseKey rest)
      | EmptyString => String c EmptyString
      end
  end.

Fixpoint indexed {A : Type} (i : nat) (l : list A) : list (string * A) :=
  match l with
  | [] => []
  | x :: rest => (Number.digits_of (Z.of_nat i), x) :: indexed (S i) rest
  end.

(** [Object.entries(v)]: the own enumerable properties; [null] and
    [undefined] have none to offer and throw.  (The characters of a string
    are listed per byte.) *)
Definition entries (v : value) : exn + list (string * value) :=
  match v with
  | Undefined | Null => inl (TypeError "Cannot convert undefined or null to object")
  | Bool _ | Num _ => inr []
  | Str text =>
      inr (indexed 0 (map (fun c => Str (String c EmptyString)) (list_ascii_of_string text)))
  | Arr elems => inr (indexed 0 elems)
  | Obj o => inr o
  | Arx elems extra => inr (indexed 0 elems ++ extra)%list
  end.

Definition in_quotes (text : string) : string :=
  String Str.quote text ++ String Str.quote EmptyString.

(** Split the parsed options by source. *)
Definition is_default (program : Commander.Command) (pair : string * value) : bool :=
  match Commander.getOptionValueSource program (fst pair) with
  | Some source => String.eqb source "default"
  | None => false
  end.

Definition loadCLIConfigFile
    (w : World) (program : Commander.Command) (opts : props) (path : value)
  : exn + props :=
  (* Parse the JSON file *)
  let contents := match path with
                  | Str p => readFile w p
                  | _ => None
                  end in
  match contents with
  | None =>
      match ToString path with
      | inr p => inl (Error ("Cannot read CLI config file " ++ in_quotes p ++ "."))
      | inl e => inl e
      end
  | Some contents =>
      match JSON.parse contents with
      | inl _ =>
          match ToString path with
          | inr p => inl (Error ("CLI config file " ++ in_quotes p
                                   ++ " is not a well-formed JSON file."))
          | inl e => inl e
          end
      | inr configOpts =>
          (* Convert kebab case options in camel case one *)
          match entries configOpts with
          | inl e => inl e
          | inr pairs =>
              let configOpts :=
                fromEntries (map (fun kv => (camelCaseKey (fst kv), snd kv)) pairs) in
              (* Split existing options in default and provided one *)
              let defaults := filter (is_default program) opts in
              let provided := filter (fun pair => negb (is_default program pair)) opts in
              (* Merge options back with right priority *)
              inr (spread (spread (spread [] (fromEntries defaults)) configOpts)
                     (fromEntries provided))
          end
      end
  end.

(** ** [verifyArgsErrors] *)
Definition verifyArgsErrors (errors : list string) : outcome unit :=
  match errors with
  | [] => Return tt
  | _ :: _ => Exit ("swc:" :: map (fun error => "  " ++ error) errors) 2
  end.

(** ** [CliOptions] *)
Record CliOptions : Type := {
  outDir : value;
  outFile : value;
  stripLeadingPaths : bool;
  sync : bool;
  workers : value;
  sourceMapTarget : value;
  filename : value;
  filenames : list string;
  extensions : value;
  watch : bool;
  copyFiles : bool;
  outFileExtension : value;
  includeDotfiles : bool;
  deleteDirOnStart : bool;
  quiet : bool;
  only : value;
  ignore : value
}.

(** ** [parserArgs], the checks *)

Definition msg_out_dir_filenames : string := "--out-dir requires filenames".
Definition msg_out_file_out_dir : string := "--out-file and --out-dir cannot be used together".
Definition msg_watch_output : string := "--watch requires --out-file or --out-dir".
Definition msg_watch_filenames : string := "--watch requires filenames".
Definition msg_stdin : string :=
  "stdin compilation requires either -f/--filename [filename] or --no-swcrc".
Definition msg_workers (raw : string) : string :=
  "--workers must be a positive integer (found " ++ raw ++ ")".

Definition push (errors : list string) (error : string) : list string :=
  (errors ++ [error])%list.

Definition no_filenames (filenames : list string) : bool :=
  Nat.eqb (List.length filenames) 0.

(** The checks on the options and operands, in source order. *)
Definition check_flags (opts : props) (filenames : list string) : list string :=
  let errors := [] in
  let errors :=
    if truthy (get opts "outDir") && no_filenames filenames
    then push errors msg_out_dir_filenames else errors in
  let errors :=
    if truthy (get opts "outFile") && truthy (get opts "outDir")
    then push errors msg_out_file_out_dir else errors in
  let errors :=
    if truthy (get opts "watch") then
      let errors :=
        if negb (truthy (get opts "outFile")) && negb (truthy (get opts "outDir"))
        then push errors msg_watch_output else errors in
      if no_filenames filenames
      then push errors msg_watch_filenames else errors
    else errors in
  if negb (truthy (get opts "outDir"))
     && no_filenames filenames
     && negb (is_string (get opts "filename"))
     && is_not_false (get opts "swcrc")
  then push errors msg_stdin else errors.

(** The worker count: the parsed number and, when it is no non-negative
    integer, one more error. *)
Definition check_workers (opts : props) (errors : list string)
  : exn + (value * list string) :=
  if negb (is_nullish (get opts "workers")) then
    match parseFloat (get opts "workers") with
    | inl e => inl e
    | inr workers =>
        if negb (Number.isInteger workers) || Number.lt_zero workers then
          match ToString (get opts "workers") with
          | inl e => inl e
          | inr raw => inr (Num workers, push errors (msg_workers raw))
          end
        else inr (Num workers, errors)
    end
  else inr (Undefined, errors).

(** ** [parserArgs], the compiler options *)

Definition baseOptions (opts : props) : props :=
  let swcOptions :=
    [ ("jsc", Obj [("parser", Undefined); ("transform", Obj [])]);
      ("sourceFileName", get opts "sourceFileName");
      ("sourceRoot", get opts "sourceRoot");
      ("configFile", get opts "configFile");
      ("swcrc", get opts "swcrc") ] in
  if negb (is_undefined (get opts "sourceMaps"))
  then set swcOptions "sourceMaps" (get opts "sourceMaps")
  else swcOptions.

(** One [-C] directive: the key before the first [=] and the value after it;
    without [=] the value is [true]. *)
Definition directive (cfg : string) : string * value :=
  let i := Str.indexOf cfg "=" in
  if (i =? -1)%Z then (cfg, Bool true)
  else (Str.substring cfg 0 i, unstringify (Str (Str.substring_from cfg (i + 1)))).

(** ** The walk of a directive

    The inner loop moves the reference [options] down the compiler options.
    At every key part it reads [options[keyPart]]; it writes
    [options[keyPart] = {}] where that is [undefined] and the part is not
    the last, [options[keyPart] = value] at the last part, and otherwise
    goes on with what it has read.  What reading and writing do depends on
    what [options] refers to at that moment. *)

(** The members every object inherits from [Object.prototype]. *)
Definition inherited : list string :=
  [ "__proto__"; "constructor"; "hasOwnProperty"; "isPrototypeOf";
    "propertyIsEnumerable"; "toLocaleString"; "toString"; "valueOf";
    "__defineGetter__"; "__defineSetter__"; "__lookupGetter__"; "__lookupSetter__" ].

Definition is_inherited (k : string) : bool := existsb (String.eqb k) inherited.

(** Those of them that are methods of [Object.prototype] itself. *)
Definition methods : list string :=
  [ "hasOwnProperty"; "isPrototypeOf"; "propertyIsEnumerable"; "toLocaleString";
    "toString"; "valueOf";
    "__defineGetter__"; "__defineSetter__"; "__lookupGetter__"; "__lookupSetter__" ].

Definition is_method (k : string) : bool := existsb (String.eqb k) methods.

(** The names [Array.prototype] and [String.prototype] supply, in one
    edition of the language or another, and those of [Number.prototype]
    and [Boolean.prototype]; each prototype passes on the members of
    [Object.prototype] as well. *)
Definition array_members : list string :=
  [ "at"; "concat"; "copyWithin"; "entries"; "every"; "fill"; "filter"; "find";
    "findIndex"; "findLast"; "findLastIndex"; "flat"; "flatMap"; "forEach";
    "group"; "groupBy"; "groupToMap"; "includes"; "indexOf"; "join"; "keys";
    "lastIndexOf"; "map"; "pop"; "push"; "reduce"; "reduceRight"; "reverse";
    "shift"; "slice"; "some"; "sort"; "splice"; "toReversed"; "toSorted";
    "toSpliced"; "unshift"; "values"; "with" ].

Definition string_members : list string :=
  [ "anchor"; "at"; "big"; "blink"; "bold"; "charAt"; "charCodeAt"; "codePointAt";
    "concat"; "endsWith"; "fixed"; "fontcolor"; "fontsize"; "includes"; "indexOf";
    "isWellFormed"; "italics"; "lastIndexOf"; "link"; "localeCompare"; "match";
    "matchAll"; "normalize"; "padEnd"; "padStart"; "repeat"; "replace";
    "replaceAll"; "search"; "slice"; "small"; "split"; "startsWith"; "strike";
    "sub"; "substr"; "substring"; "sup"; "toLocaleLowerCase"; "toLocaleUpperCase";
    "toLowerCase"; "toUpperCase"; "toWellFormed"; "trim"; "trimEnd"; "trimLeft";
    "trimRight"; "trimStart" ].

Definition number_members : list string := ["toExponential"; "toFixed"; "toPrecision"].

Definition is_member (members : list string) (k : string) : bool :=
  is_inherited k || existsb (String.eqb k) members.

Fixpoint digits_only (s : string) : bool :=
  match s with
  | EmptyString => true
  | String c rest => Str.is_digit c && digits_only rest
  end.

(** An array index: a decimal numeral in canonical form below [2^32 - 1]. *)
Definition arrayIndex (k : string) : option nat :=
  match k with
  | EmptyString => None
  | String c rest =>
      if digits_only k
         && (negb (Str.eqb_char c "0") || Lex.is_nil rest)
         && (Lex.digits_value k <? 4294967295)%Z
      then Some (Z.to_nat (Lex.digits_value k))
      else None
  end.

(** The elements and the other own properties of an array. *)
Definition elements (v : value) : option (list value * props) :=
  match v with
  | Arr elems => Some (elems, [])
  | Arx elems extra => Some (elems, extra)
  | _ => None
  end.

Definition array (elems : list value) (extra : props) : value :=
  match extra with
  | [] => Arr elems
  | _ :: _ => Arx elems extra
  end.

Fixpoint setNth (i : nat) (l : list value) (v : value) : list value :=
  match l, i with
  | [], _ => []
  | _ :: rest, O => v :: rest
  | x :: rest, S j => x :: setNth j rest v
  end.

Fixpoint is_ascii (s : string) : bool :=
  match s with
  | EmptyString => true
  | String c rest => (Str.code c <? 128)%Z && is_ascii rest
  end.

(** What reading [options[keyPart]] finds. *)
Inductive found : Type :=
| Own (v : value)
| Nothing
| Method
| Member
| ReadFails (e : exn).

(** [options[keyPart]].  An own property is found with its value.  On a
    plain object a method of [Object.prototype] is found under its name,
    and so are [constructor] and [__proto__]; on an array, a string, a
    number or a boolean a name its prototype may supply counts as a member,
    whether or not the running edition has it.  Every other name finds
    nothing, which reads as [undefined].  Reading from [null] throws.
    (A string lists its characters and its length as own properties; they
    are given here for strings of ASCII characters.) *)
Definition getProperty (options : value) (keyPart : string) : found :=
  match options with
  | Undefined | Null => ReadFails (TypeError "Cannot read properties of null")
  | Obj o =>
      if has o keyPart then Own (get o keyPart)
      else if is_method keyPart then Method
      else if is_inherited keyPart then Member
      else Nothing
  | Arr _ | Arx _ _ =>
      match elements options with
      | Some (elems, extra) =>
          match arrayIndex keyPart with
          | Some i =>
              match nth_error elems i with
              | Some x => Own x
              | None => Nothing
              end
          | None =>
              if String.eqb keyPart "length"
              then Own (Num (Number.of_Z (Z.of_nat (List.length elems))))
              else if has extra keyPart then Own (get extra keyPart)
              else if is_member array_members keyPart then Member
              else Nothing
          end
      | None => Nothing
      end
  | Str s =>
      if is_member string_members keyPart then Member
      else if is_ascii s then
        match arrayIndex keyPart with
        | Some i =>
            match String.get i s with
            | Some c => Own (Str (String c EmptyString))
            | None => Nothing
            end
        | None =>
            if String.eqb keyPart "length"
            then Own (Num (Number.of_Z (Z.of_nat (String.length s))))
            else Nothing
        end
      else if String.eqb keyPart "length" then Member
      else match arrayIndex keyPart with
           | Some _ => Member
           | None => Nothing
           end
  | Num _ => if is_member number_members keyPart then Member else Nothing
  | Bool _ => if is_member [] keyPart then Member else Nothing
  end.

(** How a walk ends: the assignment is made and [a] is what has been walked
    into, as it is afterwards; or the walk comes through but its last
    assignment lands elsewhere (on a function of [Object.prototype]) or has
    no effect (a primitive given as [__proto__]), and [a] is what it leaves;
    or an exception escapes; or the walk leaves the fragment modelled
    here. *)
Inductive assigned (A : Type) : Type :=
| Assigned (a : A)
| Diverted (a : A)
| Fails (e : exn)
| Exotic.
Arguments Assigned {A} a.
Arguments Diverted {A} a.
Arguments Fails {A} e.
Arguments Exotic {A}.

(** Whether a value given as [__proto__] changes the prototype. *)
Definition is_prototype (v : value) : bool :=
  match v with
  | Null | Arr _ | Obj _ | Arx _ _ => true
  | _ => false
  end.

(** [options[keyPart] = v] in strict code.  A plain object takes any
    property, also under the name of an inherited method; [__proto__] is an
    accessor of [Object.prototype] unless the object has such a property of
    its own (as a [JSON.parse] result may): its setter ignores a primitive
    and changes the prototype otherwise, which leaves the fragment.  An
    array takes the element at an index up to its length, and any other
    name as a property; a write further out makes holes and a write to
    [length] resizes, both outside the fragment.  Writing to a primitive
    throws, except for [__proto__], where the setter returns at once. *)
Definition setProperty (options : value) (keyPart : string) (v : value) : assigned value :=
  match options with
  | Undefined | Null => Fails (TypeError "Cannot set properties of null")
  | Obj o =>
      if has o keyPart || negb (String.eqb keyPart "__proto__")
      then Assigned (Obj (set o keyPart v))
      else if is_prototype v then Exotic
      else Diverted options
  | Arr _ | Arx _ _ =>
      match elements options with
      | Some (elems, extra) =>
          match arrayIndex keyPart with
          | Some i =>
              if (i <? List.length elems)%nat
              then Assigned (array (setNth i elems v) extra)
              else if (i =? List.length elems)%nat
              then Assigned (array (elems ++ [v]) extra)
              else Exotic
          | None =>
              if String.eqb keyPart "length" then Exotic
              else if has extra keyPart || negb (String.eqb keyPart "__proto__")
              then Assigned (array elems (set extra keyPart v))
              else if is_prototype v then Exotic
              else Diverted options
          end
      | None => Exotic
      end
  | Bool _ | Num _ | Str _ =>
      if String.eqb keyPart "__proto__" then Diverted options
      else Fails (TypeError "Cannot create property on a primitive value")
  end.

(** [F[keyPart] = v] for a method [F] of [Object.prototype].  A function
    takes new properties like any object; its [name] and [length] are
    read-only, and [caller], [arguments] and [__proto__] are accessors. *)
Definition writeMethod (options : value) (keyPart : string) (v : value)
  : assigned value :=
  if String.eqb keyPart "name" || String.eqb keyPart "length"
  then Fails (TypeError "Cannot assign to read only property")
  else if String.eqb keyPart "caller" || String.eqb keyPart "arguments"
          || String.eqb keyPart "__proto__"
  then Exotic
  else Diverted options.

(** The object walked into is the one [options[keyPart]] refers to, so what
    the walk does to it shows in [options]. *)
Definition put (options : value) (keyPart : string) (child : value) : value :=
  match options with
  | Obj o => Obj (set o keyPart child)
  | Arr _ | Arx _ _ =>
      match elements options with
      | Some (elems, extra) =>
          match arrayIndex keyPart with
          | Some i => array (setNth i elems child) extra
          | None =>
              if String.eqb keyPart "length" then options
              else array elems (set extra keyPart child)
          end
      | None => options
      end
  | _ => options
  end.

Definition back (options : value) (keyPart : string) (below : assigned value)
  : assigned value :=
  match below with
  | Assigned child => Assigned (put options keyPart child)
  | Diverted child => Diverted (put options keyPart child)
  | Fails e => Fails e
  | Exotic => Exotic
  end.

(** [options[keyPart] = {}] where nothing is found, and on into the new
    object. *)
Definition create (options : value) (keyPart : string) (below : assigned value)
  : assigned value :=
  match setProperty options keyPart (Obj []) with
  | Assigned options' => back options' keyPart below
  | Fails e => Fails e
  | _ => Exotic
  end.

(** The walk over [keyParts].  The source moves a reference down the tree
    and writes through it; the tree has no shared nodes that are read again
    (every object in it is fresh out of [JSON.parse], an object literal or
    [concat]), so writing through the reference is rebuilding the path.

    A key part that names a method of [Object.prototype], on an object that
    has no such property of its own, leads to that function: the next part,
    if it is the last, is written there and the options keep what they
    have.  Left out ([Exotic]) are the walks whose effect is not on the
    options: a change of prototype, a walk on through [constructor],
    [__proto__], a method or a member of another built-in prototype, a
    hole in an array and a write to its length. *)
Fixpoint store (options : value) (keyParts : list string) (v : value)
  : assigned value :=
  match keyParts with
  | [] => Assigned options
  | keyPart :: rest =>
      match getProperty options keyPart with
      | ReadFails e => Fails e
      | here =>
          match rest with
          | [] => setProperty options keyPart v
          | last :: deeper =>
              let created := create options keyPart (store (Obj []) rest v) in
              match here with
              | Own child =>
                  if is_undefined child then created
                  else back options keyPart (store child rest v)
              | Nothing => created
              | Method =>
                  match deeper with
                  | [] => writeMethod options last v
                  | _ :: _ => Exotic
                  end
              | _ => Exotic
              end
          end
      end
  end.

Definition assign (options : props) (keyParts : list string) (v : value)
  : assigned props :=
  match store (Obj options) keyParts v with
  | Assigned (Obj options') => Assigned options'
  | Diverted (Obj options') => Diverted options'
  | Fails e => Fails e
  | _ => Exotic
  end.

Definition applyDirective (swcOptions : props) (cfg : string) : assigned props :=
  let '(key, v) := directive cfg in
  assign swcOptions (Str.split "." key) v.

(** The characters a [for ... of] over a string yields. *)
Definition is_continuation (c : ascii) : bool :=
  (128 <=? Str.code c)%Z && (Str.code c <? 192)%Z.

Fixpoint code_points (s : string) : list string :=
  match s with
  | EmptyString => []
  | String c rest =>
      match code_points rest with
      | w :: ws =>
          match w with
          | String d _ =>
              if is_continuation d then String c w :: ws
              else String c EmptyString :: w :: ws
          | EmptyString => String c EmptyString :: ws
          end
      | [] => [String c EmptyString]
      end
  end.

(** What [for (const cfg of opts.config)] iterates over. *)
Definition iterate (config : value) : exn + list value :=
  match config with
  | Arr elems | Arx elems _ => inr elems
  | Str text => inr (map Str (code_points text))
  | _ => inl (TypeError "opts.config is not iterable")
  end.

Fixpoint applyDirectives (swcOptions : props) (cfgs : list value) : outcome props :=
  match cfgs with
  | [] => Return swcOptions
  | Str cfg :: rest =>
      match applyDirective swcOptions cfg with
      | Assigned swcOptions' | Diverted swcOptions' => applyDirectives swcOptions' rest
      | Fails e => Throw e
      | Exotic => Unmodelled
      end
  | _ :: _ => Throw (TypeError "cfg.indexOf is not a function")
  end.

Definition applyConfig (opts : props) (swcOptions : props) : outcome props :=
  if truthy (get opts "config") then
    cfgs <- lift (iterate (get opts "config")) ;;
    applyDirectives swcOptions cfgs
  else Return swcOptions.

(** ** [parserArgs], the CLI options *)
Definition or_else (v dflt : value) : value := if truthy v then v else dflt.

Definition cliOptionsOf (opts : props) (filenames : list string) (workers : value)
  : CliOptions :=
  {| outDir := get opts "outDir";
     outFile := get opts "outFile";
     stripLeadingPaths := truthy (get opts "stripLeadingPaths");
     filename := get opts "filename";
     filenames := filenames;
     sync := truthy (get opts "sync");
     workers := workers;
     sourceMapTarget := get opts "sourceMapTarget";
     extensions := or_else (get opts "extensions") (Arr (map Str DEFAULT_EXTENSIONS));
     watch := truthy (get opts "watch");
     copyFiles := truthy (get opts "copyFiles");
     outFileExtension := get opts "outFileExtension";
     includeDotfiles := truthy (get opts "includeDotfiles");
     deleteDirOnStart := truthy (get opts "deleteDirOnStart");
     quiet := truthy (get opts "quiet");
     only := or_else (get opts "only") (Arr []);
     ignore := or_else (get opts "ignore") (Arr []) |}.

(** ** [parserArgs]

    [program] is the command [initProgram] has just built: [parserArgs] is
    modelled as called once, on a fresh program. *)

(** The options after the optional merge with the CLI config file.  A
    failure to load is reported through [verifyArgsErrors]; the [return]
    after it yields [undefined], here [None]. *)
Definition resolveOpts (w : World) (program : Commander.Command) : outcome (option props) :=
  let opts := Commander.opts program in
  if truthy (get opts "cliConfigFile") then
    match loadCLIConfigFile w program opts (get opts "cliConfigFile") with
    | inr opts' => Return (Some opts')
    | inl e => verifyArgsErrors [message e] ;;; Return None
    end
  else Return (Some opts).

(** From the merged options on. *)
Definition finish (opts : props) (filenames : list string)
  : outcome (props * CliOptions) :=
  let errors := check_flags opts filenames in
  checked <- lift (check_workers opts errors) ;;
  let '(workers, errors) := checked in
  verifyArgsErrors errors ;;;
  swcOptions <- applyConfig opts (baseOptions opts) ;;
  Return (swcOptions, cliOptionsOf opts filenames workers).

Definition parserArgsFrom (w : World) (program : Commander.Command)
  : outcome (option (props * CliOptions)) :=
  resolved <- resolveOpts w program ;;
  match resolved with
  | None => Return None
  | Some opts =>
      result <- finish opts (Commander.args program) ;;
      Return (Some result)
  end.

Definition parserArgs (w : World) (args : list string)
  : outcome (option (props * CliOptions)) :=
  match Commander.parse initProgram args with
  | Commander.Parsed program => parserArgsFrom w program
  | Commander.Halted code => Halt code
  | Commander.Raised e => Throw e
  end.

End Options.


(* ===================================================================== *)
(** * Vocabulary of the statements

    The definitions below are not part of the program.  They name what the
    properties talk about: object invariants, the rules of the specification
    written out in its own words, and concrete command lines. *)
(* ===================================================================== *)

Module Spec.
Import JS Options.

(** ** Objects *)

Definition keys (o : props) : list string := map fst o.

(** A JavaScript object holds each key once. *)
Definition unique (o : props) : Prop := NoDup (keys o).

Fixpoint distinct (l : list string) : bool :=
  match l with
  | [] => true
  | k :: rest => negb (existsb (String.eqb k) rest) && distinct rest
  end.

(** The value the last entry for [k] carries, as [Object.fromEntries] and the
    spread syntax see a list of entries. *)
Fixpoint last_get (entries : list (string * value)) (k : string) : option value :=
  match entries with
  | [] => None
  | (k', v) :: rest =>
      match last_get rest k with
      | Some v' => Some v'
      | None => if String.eqb k' k then Some v else None
      end
  end.

(** ** The three-way merge *)

(** The contents of the CLI config file at [path], parsed, with its
    top-level keys in camel case. *)
Definition configFile (w : World) (path : value) : option props :=
  match path with
  | Str p =>
      match readFile w p with
      | Some contents =>
          match JSON.parse contents with
          | inr parsed =>
              match entries parsed with
              | inr pairs =>
                  Some (fromEntries
                          (map (fun kv => (camelCaseKey (fst kv), snd kv)) pairs))
              | inl _ => None
              end
          | inl _ => None
          end
      | None => None
      end
  | _ => None
  end.

(** The provenance commander keeps for an option is ["default"]. *)
Definition by_default (program : Commander.Command) (k : string) : bool :=
  match Commander.getOptionValueSource program k with
  | Some source => String.eqb source "default"
  | None => false
  end.

(** An option is explicit when it has a value whose provenance is not
    ["default"]. *)
Definition explicit (program : Commander.Command) (opts : props) (k : string) : bool :=
  has opts k && negb (by_default program k).

(** The precedence rule: explicit value, else config file value, else the
    default (an option without default reads as [undefined]). *)
Definition three_way
    (program : Commander.Command) (opts configFile : props) (k : string) : value :=
  if explicit program opts k then get opts k
  else if has configFile k then get configFile k
  else get opts k.

(** ** Override directives, in the words of the specification *)

(** Split once on the first [=]. *)
Fixpoint split_once (s : string) : string * option string :=
  match s with
  | EmptyString => (EmptyString, None)
  | String c rest =>
      if Str.eqb_char c "=" then (EmptyString, Some rest)
      else let '(k, r) := split_once rest in (String c k, r)
  end.

(** JSON if the text parses, the text itself otherwise. *)
Definition json_or_string (text : string) : value :=
  match JSON.parse text with
  | inr v => v
  | inl _ => Str text
  end.

Definition directive_value (rhs : option string) : value :=
  match rhs with
  | None => Bool true
  | Some text => json_or_string text
  end.

(** Follow the segments; make an empty container where one is absent; assign
    at the last segment.  Descending through a value that is no container is
    left undefined. *)
Fixpoint walk (tree : props) (segments : list string) (v : value) : option props :=
  match segments with
  | [] => None
  | [last] => Some (set tree last v)
  | segment :: rest =>
      let container :=
        match get tree segment with
        | Undefined => Some []
        | Obj c => Some c
        | _ => None
        end in
      match container with
      | Some c =>
          match walk c rest v with
          | Some c' => Some (set tree segment (Obj c'))
          | None => None
          end
      | None => None
      end
  end.



(** A path that passes through no name every object inherits and does not
    end in [__proto__]. *)
Fixpoint plain (segments : list string) : bool :=
  match segments with
  | [] => true
  | [last] => negb (String.eqb last "__proto__")
  | segment :: rest => negb (is_inherited segment) && plain rest
  end.


(** The structure a path creates in an empty container. *)
Fixpoint nest (segments : list string) (v : value) : props :=
  match segments with
  | [] => []
  | [last] => [(last, v)]
  | segment :: rest => [(segment, Obj (nest rest v))]
  end.

(** The first segment of a directive's path. *)
Definition root (cfg : string) : string :=
  hd EmptyString (Str.split "." (fst (split_once cfg))).

(** ** The validation rules, in the words of the specification *)

Inductive rule : Type :=
| OutDirRequiresFilenames
| OutFileExcludesOutDir
| WatchRequiresOutput
| WatchRequiresFilenames
| StdinAmbiguous
| WorkersInvalid.

Definition rules : list rule :=
  [ OutDirRequiresFilenames; OutFileExcludesOutDir; WatchRequiresOutput;
    WatchRequiresFilenames; StdinAmbiguous; WorkersInvalid ].

Definition given (opts : props) (k : string) : bool := truthy (get opts k).

Definition no_inputs (filenames : list string) : bool :=
  match filenames with [] => true | _ :: _ => false end.

(** The Number is [NaN]. *)
Definition is_nan (n : Number.number) : bool :=
  match n with S754_nan => true | _ => false end.

(** The worker count is refused: [NaN], not integral, or negative. *)
Definition refused (n : Number.number) : bool :=
  is_nan n || negb (Number.isInteger n) || Number.lt_zero n.

Definition violated (r : rule) (opts : props) (filenames : list string) : bool :=
  match r with
  | OutDirRequiresFilenames => given opts "outDir" && no_inputs filenames
  | OutFileExcludesOutDir => given opts "outFile" && given opts "outDir"
  | WatchRequiresOutput =>
      given opts "watch" && negb (given opts "outFile" || given opts "outDir")
  | WatchRequiresFilenames => given opts "watch" && no_inputs filenames
  | StdinAmbiguous =>
      negb (given opts "outDir")
      && no_inputs filenames
      && negb (is_string (get opts "filename"))
      && is_not_false (get opts "swcrc")
  | WorkersInvalid =>
      negb (is_nullish (get opts "workers"))
      && match parseFloat (get opts "workers") with
         | inr n => refused n
         | inl _ => false
         end
  end.

Definition rule_message (r : rule) (opts : props) : string :=
  match r with
  | OutDirRequiresFilenames => msg_out_dir_filenames
  | OutFileExcludesOutDir => msg_out_file_out_dir
  | WatchRequiresOutput => msg_watch_output
  | WatchRequiresFilenames => msg_watch_filenames
  | StdinAmbiguous => msg_stdin
  | WorkersInvalid =>
      msg_workers (match ToString (get opts "workers") with
                   | inr raw => raw
                   | inl _ => EmptyString
                   end)
  end.

(** The report on the error stream: the banner, then one line per message. *)
Definition report (errors : list string) : list string :=
  "swc:" :: map (fun error => "  " ++ error) errors.

(** ** Lexical classes for the worker count *)

Fixpoint all_digits (s : string) : bool :=
  match s with
  | EmptyString => true
  | String c rest => Str.is_digit c && all_digits rest
  end.

(** Text that cannot continue a decimal literal after its digits. *)
Definition not_numeric (s : string) : bool :=
  match s with
  | EmptyString => true
  | String c _ =>
      negb (Str.is_digit c || Str.eqb_char c "." || Str.eqb_char c "e"
            || Str.eqb_char c "E")
  end.

(** ** List-valued flags *)

(** The option occurrences commander reads off an argument vector. *)
Definition events (args : list string) : list Commander.occurrence :=
  Commander.occurrences
    (Commander.tokenize (Commander.options initProgram) (skipn 2 args)).

(** The arguments given to the option stored under [key], in encounter
    order. *)
Definition arguments_of
    (schema : list Commander.OptionDecl) (key : string)
    (occs : list Commander.occurrence) : list (option string) :=
  flat_map
    (fun occ =>
       match Commander.findOption schema (Commander.flag occ) with
       | Some o =>
           if String.eqb (Commander.attributeName o) key
           then [Commander.argument occ] else []
       | None => []
       end) occs.

(** The option stored under [key] occurs on the command line. *)
Definition supplied (args : list string) (key : string) : bool :=
  match arguments_of (Commander.options initProgram) key (events args) with
  | [] => false
  | _ :: _ => true
  end.

Definition list_valued : list string := ["ignore"; "only"; "config"; "extensions"].


(** Reading from standard input is ambiguous: no output directory, no input
    file, no file name given for the standard input, and the lookup of
    [.swcrc] files not switched off. *)
Definition stdin_ambiguous (opts : props) (filenames : list string) : Prop :=
  truthy (get opts "outDir") = false
  /\ filenames = []
  /\ is_string (get opts "filename") = false
  /\ get opts "swcrc" <> Bool false.

(** What [initProgram] registers is what its [program.option] calls declare;
    only the default of a negated flag is filled in. *)
Definition registers (o d : Commander.OptionDecl) : Prop :=
  Commander.long o = Commander.long d
  /\ Commander.short o = Commander.short d
  /\ Commander.arg o = Commander.arg d
  /\ Commander.parseArg o = Commander.parseArg d
  /\ (Commander.negate d = false -> Commander.defaultValue o = Commander.defaultValue d).


(** ** Source maps and directives *)

(** The directives [parserArgs] applies. *)
Definition directives (opts : props) : list value :=
  if truthy (get opts "config") then
    match iterate (get opts "config") with
    | inr cfgs => cfgs
    | inl _ => []
    end
  else [].

(** The directive assigns under the top-level key [k]. *)
Definition targets (k : string) (cfg : value) : bool :=
  match cfg with
  | Str text => String.eqb (root text) k
  | _ => false
  end.

(** The entries of the CLI config file at [path], as parsed. *)
Definition rawConfig (w : World) (path : value) : option (list (string * value)) :=
  match path with
  | Str p =>
      match readFile w p with
      | Some contents =>
          match JSON.parse contents with
          | inr parsed =>
              match entries parsed with
              | inr pairs => Some pairs
              | inl _ => None
              end
          | inl _ => None
          end
      | None => None
      end
  | _ => None
  end.

Definition normalizes_to (k : string) (entry : string * value) : bool :=
  String.eqb (camelCaseKey (fst entry)) k.


(** ** Lists of messages and of values *)

(** [l] is [m] with some of its elements left out. *)
Fixpoint subsequence (l m : list string) : bool :=
  match l, m with
  | [], _ => true
  | _ :: _, [] => false
  | x :: l', y :: m' =>
      if String.eqb x y then subsequence l' m' else subsequence l m'
  end.

(** The messages of the checks on flags and operands, in source order. *)
Definition flag_messages : list string :=
  [ msg_out_dir_filenames; msg_out_file_out_dir; msg_watch_output;
    msg_watch_filenames; msg_stdin ].

(** A piece of a comma-separated list holds no comma. *)
Definition no_comma (piece : string) : Prop := Str.indexOf piece "," = (-1)%Z.

Definition no_hyphen (key : string) : Prop := Str.indexOf key "-" = (-1)%Z.

(** The options [parserArgs] reads once they are merged. *)
Definition read_keys : list string :=
  [ "outDir"; "outFile"; "watch"; "filename"; "swcrc"; "workers";
    "sourceFileName"; "sourceRoot"; "configFile"; "sourceMaps"; "config";
    "stripLeadingPaths"; "sync"; "sourceMapTarget"; "extensions"; "copyFiles";
    "outFileExtension"; "includeDotfiles"; "deleteDirOnStart"; "quiet";
    "only"; "ignore" ].

(** The worker count is left out or a non-negative integer. *)
Definition natural_or_absent (workers : value) : Prop :=
  workers = Undefined
  \/ exists n z, workers = Num n /\ Number.to_Z n = Some z /\ (0 <= z)%Z.

(** ** Options on the command line *)

(** The value an option has before the command line is read: the default
    given to [program.option], [true] for the positive side of [--no-swcrc]. *)
Definition default_of (key : string) : value :=
  if String.eqb key "swcrc" then Bool true
  else if String.eqb key "stripLeadingPaths" then Bool false
  else if String.eqb key "logWatchCompilation" then Bool true
  else Undefined.

(** The options declared without an argument, and what giving them stores. *)
Definition switches : list (string * bool) :=
  [ ("swcrc", false); ("deleteDirOnStart", true); ("watch", true);
    ("quiet", true); ("copyFiles", true); ("stripLeadingPaths", true);
    ("includeDotfiles", true); ("sync", true); ("logWatchCompilation", true) ].

(** The options declared with an optional argument and no processing
    function. *)
Definition plain_options : list string :=
  [ "filename"; "configFile"; "cliConfigFile"; "envName"; "sourceMapTarget";
    "sourceFileName"; "sourceRoot"; "outFile"; "outDir"; "outFileExtension";
    "workers" ].

(** What an occurrence of a plain option makes of the value held: its
    argument, or, left bare, [true] unless a string is held already. *)
Definition latest (held : value) (argument : option string) : value :=
  match argument with
  | Some text => Str text
  | None => if Commander.is_boolean_or_undefined held then Bool true else held
  end.

Definition bare (argument : option string) : bool :=
  match argument with None => true | Some _ => false end.

(** ** Text that is no JSON *)

(** The characters a JSON value can start with, the letters of the three
    literals apart: white space, a brace, a bracket, a quote, a minus, a
    digit. *)
Definition opens_value (c : ascii) : bool :=
  JSON.is_ws c || Str.eqb_char c "{" || Str.eqb_char c "[" || Str.eqb_char c Str.quote
  || Str.eqb_char c "-" || Str.is_digit c.

Definition begins (word text : string) : bool :=
  match Str.starts_with word text with Some _ => true | None => false end.

(** Text that does not start like a JSON value: the empty text, or a first
    character that opens no value with none of [true], [false], [null]
    ahead. *)
Definition plain_text (text : string) : bool :=
  match text with
  | EmptyString => true
  | String c _ =>
      negb (opens_value c)
      && negb (begins "true" text || begins "false" text || begins "null" text)
  end.

(** A decimal numeral as JSON writes a natural number: digits only, at least
    one, no zero in front of another digit. *)
Definition numeral (ds : string) : bool :=
  all_digits ds
  && match ds with
     | EmptyString => false
     | String c rest => negb (Str.eqb_char c "0") || Lex.is_nil rest
     end.

(** The list-valued options whose argument may be left out. *)
Definition optional_lists : list string := ["ignore"; "only"; "extensions"].

(** ** The walk of a directive *)

(** The place in an array a key stands for: a numeral below [2^32 - 1]. *)
Definition position (k : string) : option nat :=
  if numeral k && (Lex.digits_value k <? 4294967295)%Z
  then Some (Z.to_nat (Lex.digits_value k))
  else None.

(** The own property [k] of an object, or of an array: the element at that
    place, or a property it has been given. *)
Definition property (target : value) (k : string) : value :=
  match target with
  | Obj o => get o k
  | Arr elems =>
      match position k with
      | Some i => nth i elems Undefined
      | None => Undefined
      end
  | Arx elems extra =>
      match position k with
      | Some i => nth i elems Undefined
      | None => get extra k
      end
  | _ => Undefined
  end.

Fixpoint descend (target : value) (path : list string) : value :=
  match path with
  | [] => target
  | k :: rest => descend (property target k) rest
  end.

(** The value at the end of a path of keys. *)
Definition lookup (tree : props) (path : list string) : value :=
  descend (Obj tree) path.

(** A container is an object or an array. *)
Definition is_container (v : value) : bool :=
  match v with
  | Obj _ | Arr _ | Arx _ _ => true
  | _ => false
  end.

(** [put] replaces what [k] holds in a container, provided [k] is not the
    length of an array or an index outside it. *)
Definition slot (t : value) (k : string) : bool :=
  match t with
  | Obj _ => true
  | _ =>
      match elements t with
      | Some (elems, _) =>
          match arrayIndex k with
          | Some i => (i <? List.length elems)%nat
          | None => negb (String.eqb k "length")
          end
      | None => false
      end
  end.

(** What a walk leaves of the object it starts in: the object itself, or
    the object with its first key part set. *)
Definition touched (o : props) (keyPart : string) (t : value) : Prop :=
  t = Obj o \/ exists x, t = Obj (set o keyPart x).

(** ** Concrete command lines and files *)

(** The argument vector of [swc] followed by the given arguments. *)
Definition argv (userArgs : list string) : list string :=
  "node" :: "swc" :: userArgs.

(** A file system with the given files. *)
Fixpoint read (files : list (string * string)) (path : string) : option string :=
  match files with
  | [] => None
  | (p, text) :: rest => if String.eqb p path then Some text else read rest path
  end.

Definition disk (files : list (string * string)) : World := {| readFile := read files |}.

(** The program after [program.parse], when parsing succeeds. *)
Definition parsed_program (args : list string) : Commander.Command :=
  match Commander.parse initProgram args with
  | Commander.Parsed program => program
  | _ => Commander.empty
  end.

Definition parses (args : list string) : bool :=
  match Commander.parse initProgram args with
  | Commander.Parsed _ => true
  | _ => false
  end.

(** [{"out-dir": "dist", "source-maps": true}] *)
Definition cfg_json : string :=
  "{" ++ in_quotes "out-dir" ++ ": " ++ in_quotes "dist" ++ ", "
      ++ in_quotes "source-maps" ++ ": true}".

(** [swc a.js --out-dir lib --cli-config-file cfg.json] *)
Definition merge_args : list string :=
  argv ["a.js"; "--out-dir"; "lib"; "--cli-config-file"; "cfg.json"].

Definition merge_world : World := disk [("cfg.json", cfg_json)].

Definition merge_result : props :=
  let program := parsed_program merge_args in
  match loadCLIConfigFile merge_world program (Commander.opts program) (Str "cfg.json") with
  | inr merged => merged
  | inl _ => []
  end.

(** [{"out-dir": "dist", "source-maps": true, "swcrc": false}] behind
    [swc a.js --out-dir lib --cli-config-file cfg.json]. *)
Definition precedence_json : string :=
  "{" ++ in_quotes "out-dir" ++ ": " ++ in_quotes "dist" ++ ", "
      ++ in_quotes "source-maps" ++ ": true, "
      ++ in_quotes "swcrc" ++ ": false}".

Definition precedence_world : World := disk [("cfg.json", precedence_json)].

Definition precedence_result : props :=
  let program := parsed_program merge_args in
  match loadCLIConfigFile precedence_world program (Commander.opts program)
          (Str "cfg.json") with
  | inr merged => merged
  | inl _ => []
  end.

(** [swc --out-file x --out-dir y --watch] *)
Definition watch_args : list string :=
  argv ["--out-file"; "x"; "--out-dir"; "y"; "--watch"].



(** [swc -f x.js] and [swc -f x.js -s inline] *)
Definition plain_args : list string := argv ["-f"; "x.js"].

Definition inline_args : list string := argv ["-f"; "x.js"; "-s"; "inline"].

(** [swc a.js --cli-config-file cfg.json] *)
Definition file_args : list string :=
  argv ["a.js"; "--cli-config-file"; "cfg.json"].



(** [{"workers": {"toString": 1}}]: a worker count no string can be made
    of. *)
Definition opaque_workers_json : string :=
  "{" ++ in_quotes "workers" ++ ": {" ++ in_quotes "toString" ++ ": 1}}".

Definition opaque_workers_world : World := disk [("c.json", opaque_workers_json)].


(** [swc --cli-config-file c.json] *)
Definition opaque_stdin_args : list string := argv ["--cli-config-file"; "c.json"].


Definition empty_dir_args : list string := argv ["--out-dir"; EmptyString].

(** What [parserArgs] goes on with after the optional merge. *)
Definition resolved (w : World) (args : list string) : props :=
  match resolveOpts w (parsed_program args) with
  | Return (Some opts) => opts
  | _ => []
  end.
End Spec.

(* ===================================================================== *)
(** * The model on concrete inputs *)
(* ===================================================================== *)

Module Sanity.
Import JS Options Spec.

Example toString_decimals :
  map Number.toString
    [ Number.of_decimal false 25 (-1); Number.of_decimal false 1 (-1);
      Number.of_decimal false 1 21; Number.of_decimal false 1 (-7);
      Number.of_decimal false 30000000000000004 (-17);
      Number.of_decimal false 9007199254740993 0;
      Number.of_decimal true 100 0; Number.of_decimal false 5 (-324);
      Number.of_decimal false 1 309 ]
  = [ "2.5"; "0.1"; "1e+21"; "1e-7"; "0.30000000000000004";
      "9007199254740992"; "-100"; "5e-324"; "Infinity" ].
Proof. vm_compute. reflexivity. Qed.

Example parseFloat_strings :
  map (fun s => Number.toString (Lex.parseFloat_string s))
    [ "4"; "2.5"; "4abc"; " 4"; "-0"; "abc"; ""; ".5"; "5."; "1e3"; "1e";
      "+Infinityx"; "-.5e-1"; "0x10"; "-4"; "4.0" ]
  = [ "4"; "2.5"; "4"; "4"; "0"; "NaN"; "NaN"; "0.5"; "5"; "1000"; "1";
      "Infinity"; "-0.05"; "0"; "-4"; "4" ].
Proof. vm_compute. reflexivity. Qed.

Example JSON_parse_values :
  JSON.parse "true" = inr (Bool true)
  /\ JSON.parse " [1, 2.5 ,[]] "
     = inr (Arr [Num (Number.of_Z 1); Num (Number.of_decimal false 25 (-1)); Arr []])
  /\ JSON.parse "null" = inr Null
  /\ JSON.parse (in_quotes "inline") = inr (Str "inline")
  /\ JSON.parse ("{" ++ in_quotes "a" ++ ": {" ++ in_quotes "b" ++ ": [null, false]}, "
                     ++ in_quotes "a" ++ ": 1, " ++ in_quotes "c" ++ ": {}}")
     = inr (Obj [("a", Num (Number.of_Z 1)); ("c", Obj [])]).
Proof. repeat split; vm_compute; reflexivity. Qed.

Example JSON_parse_refuses :
  map (fun text => match JSON.parse text with inl _ => true | inr _ => false end)
    [ "amd"; "hello"; "inline"; ""; "01"; "1."; "[1,]"; "tru"; "truex"; "+1";
      ".5"; "1 2"; "{" ++ in_quotes "a" ++ ":1,}"; in_quotes "abc" ++ "x" ]
  = [ true; true; true; true; true; true; true; true; true; true;
      true; true; true; true ].
Proof. vm_compute. reflexivity. Qed.

Example unstringify_values :
  map (fun text => unstringify (Str text)) ["true"; "false"; "inline"; "both"; "3"]
  = [Bool true; Bool false; Str "inline"; Str "both"; Num (Number.of_Z 3)].
Proof. vm_compute. reflexivity. Qed.

Example camelCaseKey_keys :
  map camelCaseKey
    [ "source-maps"; "out-dir"; "cli-config-file"; "outDir"; "a--b"; "a-B"; "a-1b"; "a-" ]
  = [ "sourceMaps"; "outDir"; "cliConfigFile"; "outDir"; "a-b"; "a-B"; "a-1b"; "a-" ].
Proof. vm_compute. reflexivity. Qed.

Example attribute_names :
  map Commander.attributeName (Commander.options initProgram)
  = [ "filename"; "configFile"; "cliConfigFile"; "envName"; "swcrc";
      "deleteDirOnStart"; "ignore"; "only"; "watch"; "quiet"; "sourceMaps";
      "sourceMapTarget"; "sourceFileName"; "sourceRoot"; "outFile"; "outDir";
      "outFileExtension"; "copyFiles"; "stripLeadingPaths"; "includeDotfiles";
      "config"; "sync"; "workers"; "logWatchCompilation"; "extensions" ].
Proof. vm_compute. reflexivity. Qed.

Example default_options :
  Commander.opts initProgram
  = [ ("swcrc", Bool true); ("stripLeadingPaths", Bool false);
      ("logWatchCompilation", Bool true) ].
Proof. vm_compute. reflexivity. Qed.

(** How the argument vector is read: clusters of short flags, a value
    attached to a short or a long flag, an optional argument that is left
    out because the next argument may be an option, and the arguments
    after [--]. *)
Example tokenize_forms :
  let read userArgs := Commander.tokenize (Commander.options initProgram) userArgs in
  let at_ f v := {| Commander.flag := f; Commander.argument := v |} in
  read ["-wq"; "a.js"]
  = {| Commander.occurrences := [at_ "-w" None; at_ "-q" None];
       Commander.operands := ["a.js"] |}
  /\ read ["-wdlib"; "--out-file=x"]
     = {| Commander.occurrences :=
            [at_ "-w" None; at_ "-d" (Some "lib"); at_ "--out-file" (Some "x")];
          Commander.operands := [] |}
  /\ read ["--workers"; "-1"]
     = {| Commander.occurrences := [at_ "--workers" None; at_ "-1" None];
          Commander.operands := [] |}
  /\ read ["-C"; "-x"; "--"; "-w"]
     = {| Commander.occurrences := [at_ "-C" (Some "-x")];
          Commander.operands := ["-w"] |}.
Proof. vm_compute. repeat split. Qed.

(** How commander ends on its own: the version, the help, an option it does
    not know, and a required argument that is missing. *)
Example parse_halts :
  Commander.parse initProgram (argv ["a.js"; "-V"]) = Commander.Halted 0
  /\ Commander.parse initProgram (argv ["--help"]) = Commander.Halted 0
  /\ Commander.parse initProgram (argv ["--workers"; "-1"]) = Commander.Halted 1
  /\ Commander.parse initProgram (argv ["a.js"; "-C"]) = Commander.Halted 1
  /\ parserArgs (disk []) (argv ["a.js"; "--bogus"]) = Halt 1.
Proof. vm_compute. repeat split. Qed.

(** [swc a.js -C module.type=amd -C module.moduleId=hello --sync] *)
Example parserArgs_overrides :
  parserArgs (disk [])
    (argv ["a.js"; "-C"; "module.type=amd"; "--config=module.moduleId=hello"; "--sync"])
  = Return (Some
      ( [ ("jsc", Obj [("parser", Undefined); ("transform", Obj [])]);
          ("sourceFileName", Undefined); ("sourceRoot", Undefined);
          ("configFile", Undefined); ("swcrc", Bool true);
          ("module", Obj [("type", Str "amd"); ("moduleId", Str "hello")]) ],
        {| outDir := Undefined; outFile := Undefined; stripLeadingPaths := false;
           sync := true; workers := Undefined; sourceMapTarget := Undefined;
           filename := Undefined; filenames := ["a.js"];
           extensions := Arr (map Str DEFAULT_EXTENSIONS);
           watch := false; copyFiles := false; outFileExtension := Undefined;
           includeDotfiles := false; deleteDirOnStart := false; quiet := false;
           only := Arr []; ignore := Arr [] |} )).
Proof. vm_compute. reflexivity. Qed.

(** A config file that cannot be read, and one that is no JSON. *)
Example parserArgs_config_errors :
  parserArgs (disk []) (argv ["a.js"; "--cli-config-file"; "nope.json"])
  = Exit ["swc:"; "  Cannot read CLI config file " ++ in_quotes "nope.json" ++ "."] 2
  /\ parserArgs (disk [("bad.json", "{")])
       (argv ["a.js"; "--cli-config-file"; "bad.json"])
     = Exit ["swc:"; "  CLI config file " ++ in_quotes "bad.json"
                       ++ " is not a well-formed JSON file."] 2.
Proof. split; vm_compute; reflexivity. Qed.

(** Directives that leave plain objects: through a number, through [null],
    into an array, onto the name of an inherited method, and through one. *)
Example directive_walks :
  applyDirectives [] [Str "a=1"; Str "a.b=2"]
  = Throw (TypeError "Cannot create property on a primitive value")
  /\ applyDirectives [] [Str "a=xy"; Str "a.0.b=2"]
     = Throw (TypeError "Cannot create property on a primitive value")
  /\ applyDirectives [] [Str "a=null"; Str "a.b=2"]
     = Throw (TypeError "Cannot read properties of null")
  /\ applyDirectives [] [Str "a=[1]"; Str "a.b=2"; Str "a.1.c=3"]
     = Return [("a", Arx [Num (Number.of_Z 1); Obj [("c", Num (Number.of_Z 3))]]
                       [("b", Num (Number.of_Z 2))])]
  /\ applyDirectives [] [Str "toString=1"] = Return [("toString", Num (Number.of_Z 1))]
  /\ applyDirectives [("jsc", Obj [("parser", Undefined); ("transform", Obj [])])]
       [Str "jsc.parser.toString.x=1"]
     = Return [("jsc", Obj [("parser", Obj []); ("transform", Obj [])])]
  /\ applyDirectives [] [Str "toString.name=f"]
     = Throw (TypeError "Cannot assign to read only property")
  /\ applyDirectives [] [Str "constructor.x=1"] = Unmodelled
  /\ applyDirectives [] [Str "a=[1]"; Str "a.3=2"] = Unmodelled.
Proof. vm_compute. repeat split. Qed.

End Sanity.

(* ===================================================================== *)
(** * Properties of plain objects *)
(* ===================================================================== *)

Module ObjFacts.
Import JS Spec.

Lemma get_set_eq (o : props) (k : string) (v : value) :
  get (set o k v) k = v.
Proof.
  induction o as [|[k' v'] o IH]; simpl.
  - now rewrite String.eqb_refl.
  - destruct (String.eqb k' k) eqn:E; simpl.
    + now rewrite String.eqb_refl.
    + now rewrite E.
Qed.

Lemma get_set_ne (o : props) (k k' : string) (v : value) :
  k <> k' -> get (set o k v) k' = get o k'.
Proof.
  intros Hne.
  induction o as [|[k0 v0] o IH]; simpl.
  - apply String.eqb_neq in Hne. now rewrite Hne.
  - destruct (String.eqb k0 k) eqn:E; simpl.
    + apply String.eqb_eq in E; subst k0.
      apply String.eqb_neq in Hne. now rewrite Hne.
    + destruct (String.eqb k0 k'); auto.
Qed.

Lemma get_set (o : props) (k k' : string) (v : value) :
  get (set o k v) k' = if String.eqb k k' then v else get o k'.
Proof.
  destruct (String.eqb_spec k k') as [->|Hne].
  - apply get_set_eq.
  - now apply get_set_ne.
Qed.

Lemma has_set (o : props) (k k' : string) (v : value) :
  has (set o k v) k' = String.eqb k k' || has o k'.
Proof.
  induction o as [|[k0 v0] o IH]; simpl.
  - now rewrite orb_false_r.
  - destruct (String.eqb_spec k0 k) as [->|Hne]; simpl.
    + destruct (String.eqb k k'); reflexivity.
    + rewrite IH. destruct (String.eqb k0 k'), (String.eqb k k'); reflexivity.
Qed.

Lemma get_absent (o : props) (k : string) :
  has o k = false -> get o k = Undefined.
Proof.
  induction o as [|[k0 v0] o IH]; simpl; auto.
  destruct (String.eqb k0 k); simpl; [discriminate | auto].
Qed.

Lemma has_keys (o : props) (k : string) :
  has o k = true <-> In k (keys o).
Proof.
  induction o as [|[k0 v0] o IH]; simpl.
  - split; [discriminate | tauto].
  - rewrite orb_true_iff, IH, String.eqb_eq. tauto.
Qed.

Lemma keys_set (o : props) (k k' : string) (v : value) :
  In k' (keys (set o k v)) <-> k = k' \/ In k' (keys o).
Proof.
  rewrite <- !has_keys, has_set, orb_true_iff, String.eqb_eq. tauto.
Qed.

Lemma unique_set (o : props) (k : string) (v : value) :
  unique o -> unique (set o k v).
Proof.
  unfold unique.
  induction o as [|[k0 v0] o IH]; simpl; intros Hu.
  - constructor; [tauto | constructor].
  - inversion Hu as [|? ? Hnotin Hrest]; subst.
    destruct (String.eqb_spec k0 k) as [->|Hne]; simpl.
    + now constructor.
    + constructor; [|now apply IH].
      intros Hin. apply (keys_set o k k0 v) in Hin.
      destruct Hin as [Heq|Hin]; [now subst | contradiction].
Qed.

Lemma unique_spread (source target : props) :
  unique target -> unique (spread target source).
Proof.
  unfold spread. revert target.
  induction source as [|[k v] source IH]; simpl; intros target Hu; auto.
  apply IH. now apply unique_set.
Qed.

Lemma unique_fromEntries (entries : list (string * value)) :
  unique (fromEntries entries).
Proof. apply unique_spread. constructor. Qed.

Lemma get_spread_last (source target : props) (k : string) :
  get (spread target source) k =
  match last_get source k with
  | Some v => v
  | None => get target k
  end.
Proof.
  unfold spread. revert target.
  induction source as [|[k0 v0] source IH]; simpl; intros target; auto.
  rewrite IH. destruct (last_get source k); auto.
  rewrite get_set. destruct (String.eqb k0 k); reflexivity.
Qed.

Lemma has_spread (source target : props) (k : string) :
  has (spread target source) k = has target k || has source k.
Proof.
  unfold spread. revert target.
  induction source as [|[k0 v0] source IH]; simpl; intros target.
  - now rewrite orb_false_r.
  - rewrite IH, has_set.
    destruct (String.eqb k0 k), (has target k), (has source k); reflexivity.
Qed.

Lemma last_get_absent (o : props) (k : string) :
  has o k = false -> last_get o k = None.
Proof.
  induction o as [|[k0 v0] o IH]; simpl; auto.
  intros H. apply orb_false_iff in H as [H1 H2].
  now rewrite IH, H1.
Qed.

Lemma last_get_unique (o : props) (k : string) :
  unique o -> last_get o k = if has o k then Some (get o k) else None.
Proof.
  unfold unique.
  induction o as [|[k0 v0] o IH]; simpl; intros Hu; auto.
  inversion Hu as [|? ? Hnotin Hrest]; subst.
  destruct (String.eqb_spec k0 k) as [->|Hne]; simpl.
  - rewrite last_get_absent; auto.
    destruct (has o k) eqn:E; auto.
    apply has_keys in E. contradiction.
  - rewrite IH by assumption. destruct (has o k); reflexivity.
Qed.

(** Spreading an object over another: its keys win. *)
Lemma get_spread (source target : props) (k : string) :
  unique source ->
  get (spread target source) k = if has source k then get source k else get target k.
Proof.
  intros Hu. rewrite get_spread_last, last_get_unique by assumption.
  destruct (has source k); reflexivity.
Qed.

Lemma get_fromEntries_unique (o : props) (k : string) :
  unique o -> get (fromEntries o) k = get o k.
Proof.
  intros Hu. unfold fromEntries. rewrite get_spread by assumption.
  destruct (has o k) eqn:E; auto. symmetry. now apply get_absent.
Qed.

Lemma has_fromEntries (entries : list (string * value)) (k : string) :
  has (fromEntries entries) k = has entries k.
Proof. unfold fromEntries. now rewrite has_spread. Qed.

Lemma has_filter (P : string * value -> bool) (o : props) (k : string) :
  (forall v v', P (k, v) = P (k, v')) ->
  has (filter P o) k = has o k && P (k, get o k).
Proof.
  intros Hp.
  induction o as [|[k0 v0] o IH]; simpl; auto.
  destruct (String.eqb_spec k0 k) as [->|Hne]; simpl.
  - destruct (P (k, v0)) eqn:E; simpl.
    + now rewrite String.eqb_refl.
    + rewrite IH. rewrite (Hp (get o k) v0), E. now rewrite andb_false_r.
  - destruct (P (k0, v0)); simpl; auto.
    apply String.eqb_neq in Hne. now rewrite Hne.
Qed.

Lemma get_filter (P : string * value -> bool) (o : props) (k : string) :
  unique o ->
  (forall v v', P (k, v) = P (k, v')) ->
  has (filter P o) k = true ->
  get (filter P o) k = get o k.
Proof.
  unfold unique. intros Hu Hp.
  induction o as [|[k0 v0] o IH]; simpl; auto.
  inversion Hu as [|? ? Hnotin Hrest]; subst.
  destruct (String.eqb_spec k0 k) as [->|Hne].
  - destruct (P (k, v0)) eqn:E; simpl.
    + now rewrite String.eqb_refl.
    + intros H. rewrite has_filter in H by assumption.
      apply andb_true_iff in H as [H _].
      apply has_keys in H. contradiction.
  - destruct (P (k0, v0)); simpl; auto.
    apply String.eqb_neq in Hne. rewrite Hne. auto.
Qed.

Lemma unique_filter (P : string * value -> bool) (o : props) :
  unique o -> unique (filter P o).
Proof.
  unfold unique, keys.
  induction o as [|[k0 v0] o IH]; simpl; intros Hu; auto.
  inversion Hu as [|? ? Hnotin Hrest]; subst.
  destruct (P (k0, v0)); simpl; auto.
  constructor; auto.
  intros Hin. apply Hnotin.
  apply in_map_iff in Hin as [[k1 v1] [Hk Hin]].
  apply filter_In in Hin as [Hin _].
  apply in_map_iff. now exists (k1, v1).
Qed.

Lemma distinct_NoDup (l : list string) : distinct l = true -> NoDup l.
Proof.
  induction l as [|k l IH]; simpl; intros H; constructor.
  - apply andb_true_iff in H as [H _].
    intros Hin. apply negb_true_iff in H.
    assert (existsb (String.eqb k) l = true) as E.
    { apply existsb_exists. exists k. split; auto. apply String.eqb_refl. }
    congruence.
  - apply IH. now apply andb_true_iff in H as [_ H].
Qed.

Lemma distinct_unique (o : props) : distinct (keys o) = true -> unique o.
Proof. apply distinct_NoDup. Qed.

Lemma set_set (o : props) (k : string) (v v' : value) :
  set (set o k v) k v' = set o k v'.
Proof.
  induction o as [|[k0 v0] o IH]; simpl.
  - now rewrite String.eqb_refl.
  - destruct (String.eqb k0 k) eqn:E; simpl.
    + now rewrite String.eqb_refl.
    + now rewrite E, IH.
Qed.

End ObjFacts.

(* ===================================================================== *)
(** * The three-way merge of [loadCLIConfigFile] *)
(* ===================================================================== *)

Module Merge.
Import JS Options Spec ObjFacts.

Lemma parses_parsed (args : list string) :
  parses args = true ->
  Commander.parse initProgram args = Commander.Parsed (parsed_program args).
Proof.
  unfold parses, parsed_program.
  destruct (Commander.parse initProgram args); [reflexivity | discriminate | discriminate].
Qed.

Lemma is_default_key (program : Commander.Command) (k : string) (v v' : value) :
  is_default program (k, v) = is_default program (k, v').
Proof. reflexivity. Qed.

Lemma loadCLIConfigFile_merged
    (w : World) (program : Commander.Command) (opts : props) (path : value)
    (merged : props) :
  loadCLIConfigFile w program opts path = inr merged ->
  exists cfg,
    configFile w path = Some cfg /\
    merged =
      spread (spread (spread [] (fromEntries (filter (is_default program) opts))) cfg)
        (fromEntries (filter (fun pair => negb (is_default program pair)) opts)).
Proof.
  unfold loadCLIConfigFile, configFile.
  destruct path as [| |b|n|p|l|o|l x];
    try (destruct (ToString _); discriminate).
  destruct (readFile w p) as [contents|];
    [|simpl; discriminate].
  destruct (JSON.parse contents) as [e|parsed]; [simpl; discriminate|].
  destruct (entries parsed) as [e|pairs]; [discriminate|].
  intros H. injection H as <-. eexists. split; reflexivity.
Qed.

(** The merged object, key by key. *)
Lemma merged_three_way
    (w : World) (program : Commander.Command) (opts : props) (path : value)
    (merged : props) :
  unique opts ->
  loadCLIConfigFile w program opts path = inr merged ->
  exists cfg,
    configFile w path = Some cfg /\
    forall k, get merged k = three_way program opts cfg k.
Proof.
  intros Hu Hload.
  destruct (loadCLIConfigFile_merged _ _ _ _ _ Hload) as [cfg [Hcfg ->]].
  exists cfg. split; [assumption|]. intros k.
  unfold three_way, explicit.
  set (provided := filter (fun pair => negb (is_default program pair)) opts).
  set (defaults := filter (is_default program) opts).
  assert (unique cfg) as Hucfg.
  { unfold configFile in Hcfg.
    destruct path; try discriminate.
    destruct (readFile w s); try discriminate.
    destruct (JSON.parse s0); try discriminate.
    destruct (entries v); try discriminate.
    injection Hcfg as <-. apply unique_fromEntries. }
  rewrite get_spread by apply unique_fromEntries.
  rewrite has_fromEntries.
  unfold provided at 1.
  rewrite has_filter by (intros; reflexivity).
  change (negb (is_default program (k, get opts k)))
    with (negb (by_default program k)).
  destruct (has opts k && negb (by_default program k)) eqn:E.
  - rewrite get_fromEntries_unique by now apply unique_filter.
    apply get_filter; auto.
    rewrite has_filter by (intros; reflexivity). exact E.
  - rewrite get_spread by assumption.
    destruct (has cfg k); [reflexivity|].
    rewrite get_spread by apply unique_fromEntries.
    rewrite has_fromEntries.
    unfold defaults at 1.
    rewrite has_filter by (intros; reflexivity).
    change (is_default program (k, get opts k))
      with (by_default program k).
    destruct (has opts k) eqn:Hh; simpl in *.
    + apply negb_false_iff in E. rewrite E.
      rewrite get_fromEntries_unique by now apply unique_filter.
      apply get_filter; auto.
      rewrite has_filter by (intros; reflexivity).
      rewrite Hh. exact E.
    + symmetry. now apply get_absent.
Qed.

End Merge.

(* ===================================================================== *)
(** * The walk of a directive *)
(* ===================================================================== *)

Module Walk.
Import JS Options Spec ObjFacts.

(** ** Lists and arrays *)

Lemma length_setNth (i : nat) (l : list value) (v : value) :
  List.length (setNth i l v) = List.length l.
Proof.
  revert i. induction l as [|x l IH]; intros [|i]; cbn; auto.
Qed.

Lemma nth_error_setNth (i : nat) (l : list value) (v : value) :
  (i < List.length l)%nat -> nth_error (setNth i l v) i = Some v.
Proof.
  revert i. induction l as [|x l IH]; intros [|i] H; cbn in *; try lia; auto.
  apply IH. lia.
Qed.

Lemma nth_setNth (i : nat) (l : list value) (v d : value) :
  (i < List.length l)%nat -> nth i (setNth i l v) d = v.
Proof.
  revert i. induction l as [|x l IH]; intros [|i] H; cbn in *; try lia; auto.
  apply IH. lia.
Qed.

Lemma setNth_setNth (i : nat) (l : list value) (a b : value) :
  setNth i (setNth i l a) b = setNth i l b.
Proof.
  revert i. induction l as [|x l IH]; intros [|i]; cbn; auto.
  now rewrite IH.
Qed.

Lemma setNth_last (l : list value) (a b : value) :
  setNth (List.length l) (l ++ [a])%list b = (l ++ [b])%list.
Proof. induction l as [|x l IH]; cbn; [reflexivity | now rewrite IH]. Qed.

Lemma nth_error_last (l : list value) (v : value) :
  nth_error (l ++ [v])%list (List.length l) = Some v.
Proof. induction l as [|x l IH]; cbn; auto. Qed.

Lemma nth_last (l : list value) (v d : value) :
  nth (List.length l) (l ++ [v])%list d = v.
Proof. induction l as [|x l IH]; cbn; auto. Qed.

Lemma elements_array (elems : list value) (extra : props) :
  elements (array elems extra) = Some (elems, extra).
Proof. destruct extra; reflexivity. Qed.

Lemma array_container (elems : list value) (extra : props) :
  is_container (array elems extra) = true.
Proof. destruct extra; reflexivity. Qed.

Lemma container_defined (v : value) : is_container v = true -> is_undefined v = false.
Proof. destruct v; cbn; congruence. Qed.

Lemma value_cases (t : value) :
  (exists o, t = Obj o)
  \/ (exists elems extra, elements t = Some (elems, extra))
  \/ is_container t = false.
Proof.
  destruct t; cbn; eauto.
Qed.

(** ** Reading and writing an array *)

Lemma read_array (t : value) (elems : list value) (extra : props) (k : string) :
  elements t = Some (elems, extra) ->
  getProperty t k
  = match arrayIndex k with
    | Some i =>
        match nth_error elems i with
        | Some x => Own x
        | None => Nothing
        end
    | None =>
        if String.eqb k "length"
        then Own (Num (Number.of_Z (Z.of_nat (List.length elems))))
        else if has extra k then Own (get extra k)
        else if is_member array_members k then Member
        else Nothing
    end.
Proof.
  destruct t; cbn [elements]; try discriminate;
    intros H; injection H as <- <-; reflexivity.
Qed.

Lemma write_array (t : value) (elems : list value) (extra : props)
    (k : string) (v : value) :
  elements t = Some (elems, extra) ->
  setProperty t k v
  = match arrayIndex k with
    | Some i =>
        if (i <? List.length elems)%nat
        then Assigned (array (setNth i elems v) extra)
        else if (i =? List.length elems)%nat
        then Assigned (array (elems ++ [v])%list extra)
        else Exotic
    | None =>
        if String.eqb k "length" then Exotic
        else if has extra k || negb (String.eqb k "__proto__")
        then Assigned (array elems (set extra k v))
        else if is_prototype v then Exotic
        else Diverted t
    end.
Proof.
  destruct t; cbn [elements]; try discriminate;
    intros H; injection H as <- <-; reflexivity.
Qed.

Lemma put_array (t : value) (elems : list value) (extra : props)
    (k : string) (child : value) :
  elements t = Some (elems, extra) ->
  put t k child
  = match arrayIndex k with
    | Some i => array (setNth i elems child) extra
    | None =>
        if String.eqb k "length" then t
        else array elems (set extra k child)
    end.
Proof.
  destruct t; cbn [elements]; try discriminate;
    intros H; injection H as <- <-; reflexivity.
Qed.

Lemma position_arrayIndex (k : string) : position k = arrayIndex k.
Proof.
  unfold position, arrayIndex, numeral.
  destruct k as [|c rest]; [reflexivity|].
  change (digits_only (String c rest)) with (Spec.all_digits (String c rest)).
  destruct (Spec.all_digits (String c rest)),
           (negb (Str.eqb_char c "0") || Lex.is_nil rest),
           (Lex.digits_value (String c rest) <? 4294967295)%Z; reflexivity.
Qed.

Lemma property_array (t : value) (elems : list value) (extra : props) (k : string) :
  elements t = Some (elems, extra) ->
  property t k
  = match arrayIndex k with
    | Some i => nth i elems Undefined
    | None => get extra k
    end.
Proof.
  destruct t; cbn [elements]; try discriminate;
    intros H; injection H as <- <-; cbn [property];
    rewrite position_arrayIndex; destruct (arrayIndex k); reflexivity.
Qed.

Lemma put_primitive (t : value) (k : string) (child : value) :
  is_container t = false -> put t k child = t.
Proof. destruct t; cbn; congruence. Qed.

(** ** The slot a walk goes through *)

Lemma slot_array (t : value) (elems : list value) (extra : props) (k : string) :
  elements t = Some (elems, extra) ->
  slot t k
  = match arrayIndex k with
    | Some i => (i <? List.length elems)%nat
    | None => negb (String.eqb k "length")
    end.
Proof.
  destruct t; cbn [elements]; try discriminate;
    intros H; injection H as <- <-; reflexivity.
Qed.

Lemma read_put (t : value) (k : string) (c : value) :
  slot t k = true -> getProperty (put t k c) k = Own c.
Proof.
  destruct (value_cases t) as [[o ->]|[[elems [extra He]]|Hp]].
  - intros _. cbn [put getProperty]. now rewrite has_set, String.eqb_refl, get_set_eq.
  - rewrite (slot_array _ _ _ _ He), (put_array _ _ _ _ _ He).
    destruct (arrayIndex k) as [i|] eqn:Hi; intros H.
    + rewrite (read_array _ _ _ _ (elements_array _ _)), Hi.
      apply Nat.ltb_lt in H. now rewrite nth_error_setNth.
    + apply negb_true_iff in H. rewrite H.
      rewrite (read_array _ _ _ _ (elements_array _ _)), Hi, H.
      now rewrite has_set, String.eqb_refl, get_set_eq.
  - destruct t; cbn in Hp |- *; congruence.
Qed.

Lemma property_put (t : value) (k : string) (c : value) :
  slot t k = true -> property (put t k c) k = c.
Proof.
  destruct (value_cases t) as [[o ->]|[[elems [extra He]]|Hp]].
  - intros _. cbn [put property]. apply get_set_eq.
  - rewrite (slot_array _ _ _ _ He), (put_array _ _ _ _ _ He).
    destruct (arrayIndex k) as [i|] eqn:Hi; intros H.
    + rewrite (property_array _ _ _ _ (elements_array _ _)), Hi.
      apply Nat.ltb_lt in H. now apply nth_setNth.
    + apply negb_true_iff in H. rewrite H.
      rewrite (property_array _ _ _ _ (elements_array _ _)), Hi.
      apply get_set_eq.
  - destruct t; cbn in Hp |- *; congruence.
Qed.

Lemma put_put (t : value) (k : string) (c c' : value) :
  put (put t k c) k c' = put t k c'.
Proof.
  destruct (value_cases t) as [[o ->]|[[elems [extra He]]|Hp]].
  - cbn [put]. now rewrite set_set.
  - rewrite (put_array _ _ _ _ c He).
    destruct (arrayIndex k) as [i|] eqn:Hi.
    + rewrite (put_array _ _ _ _ _ (elements_array _ _)), Hi, setNth_setNth.
      now rewrite (put_array _ _ _ _ _ He), Hi.
    + destruct (String.eqb k "length") eqn:Hl.
      * now rewrite (put_array _ _ _ _ _ He), Hi, Hl.
      * rewrite (put_array _ _ _ _ _ (elements_array _ _)), Hi, Hl, set_set.
        now rewrite (put_array _ _ _ _ _ He), Hi, Hl.
  - now rewrite !put_primitive by (try rewrite put_primitive; assumption).
Qed.

Lemma put_container (t : value) (k : string) (c : value) :
  is_container t = true -> is_container (put t k c) = true.
Proof.
  destruct (value_cases t) as [[o ->]|[[elems [extra He]]|Hp]]; intros H.
  - reflexivity.
  - rewrite (put_array _ _ _ _ _ He).
    destruct (arrayIndex k); [apply array_container|].
    destruct (String.eqb k "length"); [exact H | apply array_container].
  - congruence.
Qed.

Lemma back_put (t : value) (k : string) (c : value) (below : assigned value) :
  back (put t k c) k below = back t k below.
Proof. destruct below; cbn [back]; now rewrite ?put_put. Qed.

(** What has been getProperty as a container sits in a slot,... *)
Lemma read_slot (t : value) (k : string) (child : value) :
  getProperty t k = Own child -> is_container child = true -> slot t k = true.
Proof.
  destruct (value_cases t) as [[o ->]|[[elems [extra He]]|Hp]].
  - reflexivity.
  - rewrite (read_array _ _ _ _ He), (slot_array _ _ _ _ He).
    destruct (arrayIndex k) as [i|].
    + destruct (nth_error elems i) eqn:Hn; [|discriminate].
      intros _ _. apply Nat.ltb_lt. apply nth_error_Some. congruence.
    + destruct (String.eqb k "length"); [|reflexivity].
      intros H. injection H as <-. discriminate.
  - destruct t; cbn in Hp; try congruence; cbn [getProperty].
    + discriminate.
    + discriminate.
    + destruct (is_member [] k); discriminate.
    + destruct (is_member number_members k); discriminate.
    + destruct (is_member string_members k); [discriminate|].
      destruct (is_ascii s).
      * destruct (arrayIndex k).
        -- destruct (String.get n s); [|discriminate].
           intros H. injection H as <-. discriminate.
        -- destruct (String.eqb k "length"); [|discriminate].
           intros H. injection H as <-. discriminate.
      * destruct (String.eqb k "length"); [discriminate|].
        destruct (arrayIndex k); discriminate.
Qed.

(** ... and so does what has been written. *)
Lemma write_slot (t : value) (k : string) (v : value) (t' : value) :
  setProperty t k v = Assigned t' ->
  slot t' k = true /\ is_container t' = true
  /\ getProperty t' k = Own v /\ property t' k = v
  /\ forall v', setProperty t' k v' = setProperty t k v'.
Proof.
  destruct (value_cases t) as [[o ->]|[[elems [extra He]]|Hp]].
  - cbn [setProperty].
    destruct (has o k || negb (String.eqb k "__proto__")) eqn:Hk.
    + intros H. injection H as <-. cbn [slot is_container getProperty property setProperty].
      rewrite has_set, String.eqb_refl, get_set_eq. cbn [orb].
      repeat split. intros v'. now rewrite set_set.
    + destruct (is_prototype v); discriminate.
  - rewrite (write_array _ _ _ _ _ He).
    destruct (arrayIndex k) as [i|] eqn:Hi.
    + destruct (i <? List.length elems)%nat eqn:Hlt.
      * intros H. injection H as <-.
        rewrite (slot_array _ _ _ _ (elements_array _ _)), Hi, length_setNth, Hlt.
        rewrite (read_array _ _ _ _ (elements_array _ _)), Hi.
        rewrite (property_array _ _ _ _ (elements_array _ _)), Hi.
        apply Nat.ltb_lt in Hlt.
        rewrite nth_error_setNth, nth_setNth by assumption.
        split; [reflexivity|]. split; [apply array_container|].
        split; [reflexivity|]. split; [reflexivity|].
        intros v'. rewrite (write_array _ _ _ _ _ (elements_array _ _)), Hi.
        rewrite (write_array _ _ _ _ _ He), Hi.
        rewrite length_setNth, setNth_setNth.
        now apply Nat.ltb_lt in Hlt; rewrite Hlt.
      * destruct (i =? List.length elems)%nat eqn:Heq; [|discriminate].
        apply Nat.eqb_eq in Heq. subst i.
        intros H. injection H as <-.
        rewrite (slot_array _ _ _ _ (elements_array _ _)), Hi.
        rewrite (read_array _ _ _ _ (elements_array _ _)), Hi.
        rewrite (property_array _ _ _ _ (elements_array _ _)), Hi.
        rewrite nth_error_last, nth_last.
        assert ((List.length elems <? List.length (elems ++ [v])%list)%nat = true) as Hin
          by (apply Nat.ltb_lt; rewrite length_app; cbn; lia).
        rewrite Hin.
        split; [reflexivity|]. split; [apply array_container|].
        split; [reflexivity|]. split; [reflexivity|].
        intros v'. rewrite (write_array _ _ _ _ _ (elements_array _ _)), Hi, Hin.
        rewrite (write_array _ _ _ _ _ He), Hi, Hlt, Nat.eqb_refl.
        now rewrite setNth_last.
    + destruct (String.eqb k "length") eqn:Hl; [discriminate|].
      destruct (has extra k || negb (String.eqb k "__proto__")) eqn:Hk.
      * intros H. injection H as <-.
        rewrite (slot_array _ _ _ _ (elements_array _ _)), Hi, Hl.
        rewrite (read_array _ _ _ _ (elements_array _ _)), Hi, Hl.
        rewrite (property_array _ _ _ _ (elements_array _ _)), Hi.
        rewrite has_set, String.eqb_refl, get_set_eq. cbn [orb negb].
        split; [reflexivity|]. split; [apply array_container|].
        split; [reflexivity|]. split; [reflexivity|].
        intros v'. rewrite (write_array _ _ _ _ _ (elements_array _ _)), Hi, Hl.
        rewrite (write_array _ _ _ _ _ He), Hi, Hl, Hk.
        now rewrite has_set, String.eqb_refl, set_set.
      * destruct (is_prototype v); discriminate.
  - destruct t; cbn in Hp; try congruence; cbn [setProperty];
      try discriminate; destruct (String.eqb k "__proto__"); discriminate.
Qed.

(** ** The equations of the walk *)

Lemma store_last (options : value) (keyPart : string) (v : value) :
  store options [keyPart] v
  = match getProperty options keyPart with
    | ReadFails e => Fails e
    | _ => setProperty options keyPart v
    end.
Proof. cbn [store]. destruct (getProperty options keyPart); reflexivity. Qed.

Lemma store_step (options : value) (keyPart next : string) (deeper : list string)
    (v : value) :
  store options (keyPart :: next :: deeper) v
  = match getProperty options keyPart with
    | Own child =>
        if is_undefined child then create options keyPart (store (Obj []) (next :: deeper) v)
        else back options keyPart (store child (next :: deeper) v)
    | Nothing => create options keyPart (store (Obj []) (next :: deeper) v)
    | Method =>
        match deeper with
        | [] => writeMethod options next v
        | _ :: _ => Exotic
        end
    | Member => Exotic
    | ReadFails e => Fails e
    end.
Proof.
  change (store options (keyPart :: next :: deeper) v)
    with (match getProperty options keyPart with
          | ReadFails e => Fails e
          | Own child =>
              if is_undefined child then create options keyPart (store (Obj []) (next :: deeper) v)
              else back options keyPart (store child (next :: deeper) v)
          | Nothing => create options keyPart (store (Obj []) (next :: deeper) v)
          | Method =>
              match deeper with
              | [] => writeMethod options next v
              | _ :: _ => Exotic
              end
          | Member => Exotic
          end).
  destruct (getProperty options keyPart); reflexivity.
Qed.

Lemma read_container (t : value) (k : string) :
  is_container t = true -> forall e, getProperty t k <> ReadFails e.
Proof.
  destruct (value_cases t) as [[o ->]|[[elems [extra He]]|Hp]]; intros H e.
  - cbn [getProperty]. destruct (has o k); [discriminate|].
    destruct (is_method k); [discriminate|].
    destruct (is_inherited k); discriminate.
  - rewrite (read_array _ _ _ _ He).
    destruct (arrayIndex k) as [i|].
    + destruct (nth_error elems i); discriminate.
    + destruct (String.eqb k "length"); [discriminate|].
      destruct (has extra k); [discriminate|].
      destruct (is_member array_members k); discriminate.
  - congruence.
Qed.

Lemma store_last_container (t : value) (k : string) (v : value) :
  is_container t = true -> store t [k] v = setProperty t k v.
Proof.
  intros H. rewrite store_last.
  pose proof (read_container t k H) as Hr.
  destruct (getProperty t k); try reflexivity. now destruct (Hr e).
Qed.

Lemma read_primitive (t : value) (k : string) (child : value) :
  is_container t = false -> getProperty t k = Own child -> is_container child = false.
Proof.
  intros Hp H. destruct (is_container child) eqn:Hc; [|reflexivity].
  pose proof (read_slot _ _ _ H Hc) as Hs.
  destruct t; cbn in Hp, Hs; congruence.
Qed.

Lemma write_primitive (t : value) (k : string) (v : value) (t' : value) :
  is_container t = false -> setProperty t k v <> Assigned t'.
Proof.
  intros Hp H. destruct (write_slot _ _ _ _ H) as [_ [_ [Hr _]]].
  destruct t; cbn in Hp; try congruence; cbn [setProperty] in H; try discriminate;
    destruct (String.eqb k "__proto__"); discriminate.
Qed.

(** A walk into a primitive assigns nothing. *)
Lemma store_primitive (keyParts : list string) :
  forall (t : value) (v : value) (t' : value),
    keyParts <> [] ->
    is_container t = false ->
    store t keyParts v <> Assigned t'.
Proof.
  induction keyParts as [|k rest IH]; intros t v t' Hne Hp; [contradiction|].
  destruct rest as [|next deeper].
  - rewrite store_last.
    destruct (getProperty t k); try discriminate; now apply write_primitive.
  - rewrite store_step.
    assert (create t k (store (Obj []) (next :: deeper) v) <> Assigned t') as Hc.
    { unfold create.
      destruct (setProperty t k (Obj [])) eqn:Hw; try discriminate.
      now apply write_primitive in Hw. }
    destruct (getProperty t k) as [child| | | |e] eqn:Hr; try discriminate; try exact Hc.
    + destruct (is_undefined child); [exact Hc|].
      pose proof (read_primitive _ _ _ Hp Hr) as Hchild.
      destruct (store child (next :: deeper) v) eqn:Hs; cbn [back]; try discriminate.
      now apply IH in Hs.
    + destruct deeper; [|discriminate].
      unfold writeMethod.
      destruct (String.eqb next "name" || String.eqb next "length"); [discriminate|].
      destruct (String.eqb next "caller" || String.eqb next "arguments"
                || String.eqb next "__proto__"); discriminate.
Qed.

Lemma store_container (keyParts : list string) (t : value) (v : value) (t' : value) :
  keyParts <> [] ->
  store t keyParts v = Assigned t' ->
  is_container t = true.
Proof.
  intros Hne H. destruct (is_container t) eqn:Hc; [reflexivity|].
  now apply (store_primitive keyParts t v t' Hne) in H.
Qed.

(** ** The walk on an object *)

Lemma method_inherited (k : string) : is_inherited k = false -> is_method k = false.
Proof.
  unfold is_inherited, is_method, inherited, methods. cbn [existsb].
  intros H.
  repeat (apply orb_false_iff in H; destruct H as [? H]).
  repeat match goal with E : String.eqb _ _ = false |- _ => rewrite E; clear E end.
  reflexivity.
Qed.

Lemma inherited_proto (k : string) :
  is_inherited k = false -> String.eqb k "__proto__" = false.
Proof.
  unfold is_inherited, inherited. cbn [existsb]. intros H.
  apply orb_false_iff in H. tauto.
Qed.

Lemma get_present (o : props) (k : string) : get o k <> Undefined -> has o k = true.
Proof.
  intros H. destruct (has o k) eqn:E; [reflexivity|].
  now apply get_absent in E.
Qed.

Lemma back_touched (o : props) (k : string) (below : assigned value) (t : value) :
  back (Obj o) k below = Assigned t \/ back (Obj o) k below = Diverted t ->
  touched o k t.
Proof.
  destruct below; cbn [back put]; intros [H|H]; try discriminate;
    injection H as <-; right; eauto.
Qed.

Lemma created_touched (o : props) (k : string) (rest : list string) (v : value)
    (t : value) :
  create (Obj o) k (store (Obj []) rest v) = Assigned t \/ create (Obj o) k (store (Obj []) rest v) = Diverted t ->
  touched o k t.
Proof.
  unfold create. cbn [setProperty].
  destruct (has o k || negb (String.eqb k "__proto__")).
  - intros H. apply back_touched in H.
    destruct H as [H|[x H]]; right.
    + eauto.
    + rewrite set_set in H. eauto.
  - cbn [is_prototype]. intros [H|H]; discriminate.
Qed.

Lemma store_touched (o : props) (k : string) (rest : list string) (v : value)
    (t : value) :
  store (Obj o) (k :: rest) v = Assigned t \/ store (Obj o) (k :: rest) v = Diverted t ->
  touched o k t.
Proof.
  destruct rest as [|next deeper].
  - rewrite store_last_container by reflexivity. cbn [setProperty].
    destruct (has o k || negb (String.eqb k "__proto__")).
    + intros [H|H]; [|discriminate]. injection H as <-. right. eauto.
    + destruct (is_prototype v); intros [H|H]; try discriminate.
      injection H as <-. now left.
  - rewrite store_step.
    destruct (getProperty (Obj o) k) as [child| | | |e].
    + destruct (is_undefined child);
        [apply created_touched | apply back_touched].
    + apply created_touched.
    + destruct deeper; [|intros [H|H]; discriminate].
      unfold writeMethod.
      destruct (String.eqb next "name" || String.eqb next "length");
        [intros [H|H]; discriminate|].
      destruct (String.eqb next "caller" || String.eqb next "arguments"
                || String.eqb next "__proto__");
        intros [H|H]; try discriminate.
      injection H as <-. now left.
    + intros [H|H]; discriminate.
    + intros [H|H]; discriminate.
Qed.

Lemma assign_store (options : props) (keyPart : string) (rest : list string)
    (v : value) :
  store (Obj options) (keyPart :: rest) v
  = match assign options (keyPart :: rest) v with
    | Assigned options' => Assigned (Obj options')
    | Diverted options' => Diverted (Obj options')
    | Fails e => Fails e
    | Exotic => store (Obj options) (keyPart :: rest) v
    end
  /\ (assign options (keyPart :: rest) v = Exotic ->
      store (Obj options) (keyPart :: rest) v = Exotic).
Proof.
  unfold assign.
  destruct (store (Obj options) (keyPart :: rest) v) as [t|t|e|] eqn:H.
  - destruct (store_touched _ _ _ _ _ (or_introl H)) as [->|[x ->]];
      split; [reflexivity | discriminate | reflexivity | discriminate].
  - destruct (store_touched _ _ _ _ _ (or_intror H)) as [->|[x ->]];
      split; [reflexivity | discriminate | reflexivity | discriminate].
  - split; [reflexivity | discriminate].
  - split; reflexivity.
Qed.

Lemma assign_Assigned (options : props) (keyPart : string) (rest : list string)
    (v : value) (options' : props) :
  assign options (keyPart :: rest) v = Assigned options'
  <-> store (Obj options) (keyPart :: rest) v = Assigned (Obj options').
Proof.
  destruct (assign_store options keyPart rest v) as [E1 E2].
  destruct (assign options (keyPart :: rest) v) as [a|a|e|] eqn:A.
  - rewrite E1. split; intros H; injection H as <-; reflexivity.
  - rewrite E1. split; discriminate.
  - rewrite E1. split; discriminate.
  - rewrite E2 by reflexivity. split; discriminate.
Qed.

Lemma assign_Diverted (options : props) (keyPart : string) (rest : list string)
    (v : value) (options' : props) :
  assign options (keyPart :: rest) v = Diverted options'
  <-> store (Obj options) (keyPart :: rest) v = Diverted (Obj options').
Proof.
  destruct (assign_store options keyPart rest v) as [E1 E2].
  destruct (assign options (keyPart :: rest) v) as [a|a|e|] eqn:A.
  - rewrite E1. split; discriminate.
  - rewrite E1. split; intros H; injection H as <-; reflexivity.
  - rewrite E1. split; discriminate.
  - rewrite E2 by reflexivity. split; discriminate.
Qed.

(** The walk touches the first part of its path only. *)
Lemma assign_frame (segment : string) (rest : list string)
    (options : props) (v : value) (options' : props) (k : string) :
  assign options (segment :: rest) v = Assigned options'
  \/ assign options (segment :: rest) v = Diverted options' ->
  k <> segment ->
  get options' k = get options k /\ has options' k = has options k.
Proof.
  intros H Hne.
  assert (touched options segment (Obj options')) as Ht.
  { apply (store_touched _ _ rest v).
    destruct H as [H|H]; [left; now apply assign_Assigned
                         | right; now apply assign_Diverted]. }
  destruct Ht as [Ht|[x Ht]]; injection Ht as ->; [auto|].
  assert (String.eqb segment k = false) as E
    by (apply String.eqb_neq; congruence).
  rewrite get_set_ne, has_set, E by congruence. auto.
Qed.

End Walk.

(* ===================================================================== *)
(** * Override directives *)
(* ===================================================================== *)

Module Override.
Import JS Options Spec ObjFacts Walk.

Lemma split_nonempty (sep : ascii) (s : string) : Str.split sep s <> [].
Proof.
  destruct s as [|c s]; simpl; [discriminate|].
  destruct (Str.eqb_char c sep); [discriminate|].
  destruct (Str.split sep s); discriminate.
Qed.

Lemma take_app (k rest : string) : Str.take (String.length k) (k ++ rest) = k.
Proof.
  induction k as [|c k IH]; simpl.
  - destruct rest; reflexivity.
  - now rewrite IH.
Qed.

Lemma drop_app (k rest : string) : Str.drop (String.length k) (k ++ rest) = rest.
Proof. induction k as [|c k IH]; simpl; auto. Qed.

(** [indexOf] finds where [split_once] cuts. *)
Lemma indexOf_split_once (s : string) :
  match split_once s with
  | (k, None) => Str.indexOf s "=" = (-1)%Z /\ k = s
  | (k, Some r) =>
      Str.indexOf s "=" = Z.of_nat (String.length k) /\ s = k ++ String "=" r
  end.
Proof.
  induction s as [|c s IH]; simpl.
  - split; reflexivity.
  - destruct (Str.eqb_char c "=") eqn:E.
    + apply Ascii.eqb_eq in E. subst c. split; reflexivity.
    + destruct (split_once s) as [k [r|]]; destruct IH as [Hi Hs].
      * rewrite Hi. split.
        -- destruct (Z.of_nat (String.length k) <? 0)%Z eqn:Hlt; [lia|].
           simpl String.length. lia.
        -- simpl. now rewrite <- Hs.
      * rewrite Hi. simpl. split; [reflexivity | now rewrite Hs].
Qed.

Lemma unstringify_Str (text : string) : unstringify (Str text) = json_or_string text.
Proof. reflexivity. Qed.

(** The directive of the source is the split of the specification. *)
Lemma directive_split_once (cfg : string) :
  directive cfg = (fst (split_once cfg), directive_value (snd (split_once cfg))).
Proof.
  unfold directive.
  pose proof (indexOf_split_once cfg) as H.
  destruct (split_once cfg) as [k [r|]]; destruct H as [Hi Hs]; simpl; rewrite Hi.
  - destruct (Z.of_nat (String.length k) =? -1)%Z eqn:E; [lia|].
    unfold Str.substring, Str.substring_from.
    rewrite Z.sub_0_r, Nat2Z.id. simpl Str.drop.
    rewrite unstringify_Str. subst cfg.
    rewrite take_app.
    replace (Z.to_nat (Z.of_nat (String.length k) + 1)) with (S (String.length k)) by lia.
    assert (forall a b, Str.drop (S (String.length a)) (a ++ String "=" b) = b) as Hd.
    { intros a b. induction a as [|c a IHa]; simpl; auto. }
    now rewrite Hd.
  - subst k. reflexivity.
Qed.

(** Where the walk of the specification is defined, on a plain path, the
    walk of the source makes the same assignment. *)
Lemma store_walk (parts : list string) :
  plain parts = true ->
  forall (options : props) (v : value) (result : props),
    walk options parts v = Some result ->
    store (Obj options) parts v = Assigned (Obj result).
Proof.
  induction parts as [|keyPart rest IH]; intros Hplain options v result H;
    [discriminate H|].
  destruct rest as [|next rest'].
  - cbn [plain] in Hplain. injection H as <-.
    rewrite store_last_container by reflexivity.
    cbn [setProperty]. rewrite Hplain. now rewrite orb_true_r.
  - change (plain (keyPart :: next :: rest'))
      with (negb (is_inherited keyPart) && plain (next :: rest')) in Hplain.
    apply andb_true_iff in Hplain as [Hk Hrest].
    apply negb_true_iff in Hk.
    change (walk options (keyPart :: next :: rest') v)
      with (match (match get options keyPart with
                   | Undefined => Some []
                   | Obj c => Some c
                   | _ => None
                   end) with
            | Some c =>
                match walk c (next :: rest') v with
                | Some c' => Some (set options keyPart (Obj c'))
                | None => None
                end
            | None => None
            end) in H.
    rewrite store_step. cbn [getProperty].
    rewrite (method_inherited _ Hk), Hk.
    assert (create (Obj options) keyPart (store (Obj []) (next :: rest') v)
            = back (Obj (set options keyPart (Obj []))) keyPart
                (store (Obj []) (next :: rest') v)) as Hcreated.
    { unfold create. cbn [setProperty].
      now rewrite (inherited_proto _ Hk), orb_true_r. }
    destruct (get options keyPart) as [| |b|n|s|l|c|l x] eqn:G; try discriminate H.
    + destruct (walk [] (next :: rest') v) as [c'|] eqn:W; [|discriminate H].
      injection H as <-.
      assert ((if has options keyPart then Own Undefined else Nothing)
              = Nothing
              \/ (if has options keyPart then Own Undefined else Nothing)
                 = Own Undefined) as [-> | ->]
        by (destruct (has options keyPart); auto);
        cbn [is_undefined]; rewrite Hcreated, (IH Hrest _ _ _ W);
        cbn [back put]; now rewrite set_set.
    + destruct (walk c (next :: rest') v) as [c'|] eqn:W; [|discriminate H].
      injection H as <-.
      rewrite (get_present options keyPart) by congruence.
      cbn [is_undefined]. now rewrite (IH Hrest _ _ _ W).
Qed.

Lemma assign_walk (parts : list string) (options : props) (v : value) (result : props) :
  plain parts = true ->
  walk options parts v = Some result ->
  assign options parts v = Assigned result.
Proof.
  intros Hplain H. unfold assign. now rewrite (store_walk parts Hplain _ _ _ H).
Qed.





(** What the walk leaves behind: the value sits at the end of the path,... *)
Lemma walk_lookup (segments : list string) :
  forall (tree : props) (v : value) (tree' : props),
    walk tree segments v = Some tree' -> lookup tree' segments = v.
Proof.
  induction segments as [|segment rest IH]; intros tree v tree' H; [discriminate|].
  destruct rest as [|next rest'].
  - injection H as <-. unfold lookup. cbn [descend property]. apply get_set_eq.
  - change (walk tree (segment :: next :: rest') v)
      with (match (match get tree segment with
                   | Undefined => Some []
                   | Obj c => Some c
                   | _ => None
                   end) with
            | Some c =>
                match walk c (next :: rest') v with
                | Some c' => Some (set tree segment (Obj c'))
                | None => None
                end
            | None => None
            end) in H.
    destruct (match get tree segment with
              | Undefined => Some []
              | Obj c => Some c
              | _ => None
              end) as [c|]; [|discriminate].
    destruct (walk c (next :: rest') v) as [c'|] eqn:W; [|discriminate].
    injection H as <-.
    unfold lookup. cbn [descend property].
    rewrite get_set_eq. now apply IH in W.
Qed.

(** ... the other keys of the container keep their values,... *)
Lemma walk_frame (segment : string) (rest : list string)
    (tree : props) (v : value) (tree' : props) (k : string) :
  walk tree (segment :: rest) v = Some tree' ->
  k <> segment ->
  get tree' k = get tree k.
Proof.
  intros H Hne.
  destruct rest as [|next rest'].
  - injection H as <-. apply get_set_ne. congruence.
  - change (walk tree (segment :: next :: rest') v)
      with (match (match get tree segment with
                   | Undefined => Some []
                   | Obj c => Some c
                   | _ => None
                   end) with
            | Some c =>
                match walk c (next :: rest') v with
                | Some c' => Some (set tree segment (Obj c'))
                | None => None
                end
            | None => None
            end) in H.
    destruct (match get tree segment with
              | Undefined => Some []
              | Obj c => Some c
              | _ => None
              end) as [c|]; [|discriminate].
    destruct (walk c (next :: rest') v) as [c'|]; [|discriminate].
    injection H as <-. apply get_set_ne. congruence.
Qed.

(** ... and an absent container is create with nothing (store (Obj []) but the) path in it. *)
Lemma walk_empty (segments : list string) (v : value) :
  segments <> [] -> walk [] segments v = Some (nest segments v).
Proof.
  induction segments as [|segment rest IH]; intros Hne; [contradiction|].
  destruct rest as [|next rest']; [reflexivity|].
  change (walk [] (segment :: next :: rest') v)
    with (match walk [] (next :: rest') v with
          | Some c' => Some (set [] segment (Obj c'))
          | None => None
          end).
  rewrite IH by discriminate. reflexivity.
Qed.

Lemma walk_absent (segment : string) (rest : list string) (tree : props) (v : value) :
  get tree segment = Undefined ->
  rest <> [] ->
  walk tree (segment :: rest) v = Some (set tree segment (Obj (nest rest v))).
Proof.
  intros G Hne. destruct rest as [|next rest']; [contradiction|].
  change (walk tree (segment :: next :: rest') v)
    with (match (match get tree segment with
                 | Undefined => Some []
                 | Obj c => Some c
                 | _ => None
                 end) with
          | Some c =>
              match walk c (next :: rest') v with
              | Some c' => Some (set tree segment (Obj c'))
              | None => None
              end
          | None => None
          end).
  rewrite G, walk_empty by discriminate. reflexivity.
Qed.

End Override.

(* ===================================================================== *)
(** * Integers that a Number holds exactly *)
(* ===================================================================== *)

Module NumberFacts.

Local Open Scope Z_scope.

Lemma digits2_pos_bounds (p : positive) :
  2 ^ (Zpos (digits2_pos p) - 1) <= Zpos p < 2 ^ Zpos (digits2_pos p).
Proof.
  induction p as [p IH|p IH|]; cbn [digits2_pos].
  - rewrite Pos2Z.inj_succ.
    replace (Z.succ (Z.pos (digits2_pos p)) - 1) with (Z.succ (Z.pos (digits2_pos p) - 1)) by lia.
    rewrite !Z.pow_succ_r by lia. lia.
  - rewrite Pos2Z.inj_succ.
    replace (Z.succ (Z.pos (digits2_pos p)) - 1) with (Z.succ (Z.pos (digits2_pos p) - 1)) by lia.
    rewrite !Z.pow_succ_r by lia. lia.
  - cbn. lia.
Qed.

Lemma iter_xO_value (p k : positive) :
  Zpos (Pos.iter xO p k) = Zpos p * 2 ^ Zpos k.
Proof.
  induction k as [|k IH] using Pos.peano_ind.
  - cbn. lia.
  - rewrite Pos.iter_succ, Pos2Z.inj_succ, Z.pow_succ_r by lia.
    rewrite Pos2Z.inj_xO, IH. lia.
Qed.

Lemma digits_iter_xO (p k : positive) :
  digits2_pos (Pos.iter xO p k) = (digits2_pos p + k)%positive.
Proof.
  induction k as [|k IH] using Pos.peano_ind.
  - cbn. lia.
  - rewrite Pos.iter_succ. cbn [digits2_pos]. rewrite IH. lia.
Qed.

Lemma round_aux_exact (m : positive) (e : Z) :
  Zpos (digits2_pos m) = 53 ->
  -1074 <= e <= 971 ->
  binary_round_aux 53 1024 false (Zpos m) e loc_Exact = S754_finite false m e.
Proof.
  intros Hd He.
  unfold binary_round_aux, shr_fexp, fexp, emin.
  cbn [Zdigits2 shr_record_of_loc]. rewrite Hd.
  replace (Z.max (53 + e - 53) (3 - 1024 - 53) - e) with 0 by lia.
  cbn [shr shr_m loc_of_shr_record round_nearest_even shr_record_of_loc Zdigits2].
  rewrite Hd.
  replace (Z.max (53 + e - 53) (3 - 1024 - 53) - e) with 0 by lia.
  cbn [shr shr_m].
  destruct (e <=? 1024 - 53) eqn:E; [reflexivity|].
  apply Z.leb_gt in E. lia.
Qed.

Lemma of_decimal_small (p : positive) :
  Zpos p < 2 ^ 53 ->
  exists m e,
    Number.of_decimal false (Zpos p) 0 = S754_finite false m e
    /\ -53 < e <= 0
    /\ Zpos m = Zpos p * 2 ^ (- e).
Proof.
  intros Hp.
  pose proof (digits2_pos_bounds p) as [Hlo Hhi].
  assert (Zpos (digits2_pos p) <= 53) as Hd.
  { destruct (Z_le_gt_dec (Zpos (digits2_pos p)) 53) as [H|H]; [exact H|].
    exfalso. assert (2 ^ 53 <= 2 ^ (Zpos (digits2_pos p) - 1)).
    { apply Z.pow_le_mono_r; lia. }
    lia. }
  unfold Number.of_decimal.
  change (0 <=? 0) with true. cbv iota.
  rewrite Z.pow_0_r, Z.mul_1_r.
  unfold binary_normalize, binary_round.
  unfold shl_align, fexp, emin, Number.prec, Number.emax.
  rewrite Z.add_0_r.
  rewrite Z.max_l by lia.
  rewrite Z.sub_0_r.
  destruct (Z.pos (digits2_pos p) - 53) as [|k|k] eqn:Hk; [|lia|].
  - exists p, 0. rewrite round_aux_exact by lia.
    split; [reflexivity|]. split; [lia|]. cbn. lia.
  - exists (Pos.iter xO p k), (Z.neg k).
    rewrite round_aux_exact.
    + split; [reflexivity|]. split; [lia|].
      rewrite iter_xO_value. reflexivity.
    + rewrite digits_iter_xO. lia.
    + lia.
Qed.

Lemma small_integer_accepted (p : positive) :
  Zpos p < 2 ^ 53 ->
  Number.isInteger (Number.of_decimal false (Zpos p) 0) = true
  /\ Number.lt_zero (Number.of_decimal false (Zpos p) 0) = false
  /\ Number.to_Z (Number.of_decimal false (Zpos p) 0) = Some (Zpos p).
Proof.
  intros Hp. destruct (of_decimal_small p Hp) as [m [e [-> [He Hm]]]].
  assert (Number.isInteger (S754_finite false m e) = true) as Hi.
  { unfold Number.isInteger.
    destruct (0 <=? e) eqn:E; [reflexivity|].
    rewrite Hm. apply Z.eqb_eq. apply Z.mod_mul.
    apply Z.pow_nonzero; lia. }
  split; [exact Hi|]. split; [reflexivity|].
  unfold Number.to_Z. rewrite Hi.
  destruct (0 <=? e) eqn:E.
  - apply Z.leb_le in E. assert (e = 0) as -> by lia.
    rewrite Hm. cbn. f_equal. lia.
  - rewrite Hm. f_equal. apply Z.div_mul. apply Z.pow_nonzero; lia.
Qed.

(** A run of decimal digits denotes a natural number. *)
Lemma digit_val_range (c : ascii) :
  Str.is_digit c = true -> 0 <= Str.digit_val c <= 9.
Proof.
  unfold Str.is_digit, Str.digit_val. intros H.
  apply andb_true_iff in H as [H1 H2].
  apply Z.leb_le in H1. apply Z.leb_le in H2. lia.
Qed.

Lemma digits_value_from_nonneg (ds : string) :
  forall acc, 0 <= acc -> Spec.all_digits ds = true -> 0 <= Lex.digits_value_from acc ds.
Proof.
  induction ds as [|c ds IH]; intros acc Hacc Hd; cbn; [exact Hacc|].
  cbn in Hd. apply andb_true_iff in Hd as [Hc Hd].
  apply IH; [|exact Hd]. pose proof (digit_val_range c Hc). lia.
Qed.

(** A natural number below [2^53], written in decimal, is a Number that is
    integral, not negative, and has that very value. *)
Lemma natural_accepted (n : Z) :
  0 <= n < 2 ^ 53 ->
  Number.isInteger (Number.of_decimal false n 0) = true
  /\ Number.lt_zero (Number.of_decimal false n 0) = false
  /\ Number.to_Z (Number.of_decimal false n 0) = Some n.
Proof.
  intros [Hlo Hhi]. destruct n as [|p|p]; [|now apply small_integer_accepted|lia].
  repeat split.
Qed.

End NumberFacts.

(* ===================================================================== *)
(** * [JSON.parse] never runs out of fuel

    Every recursive call of the parser follows the consumption of at least
    one character, or is the first call on an element; twice the length of
    the text, and two more, is therefore enough. *)
(* ===================================================================== *)

Module JSONFacts.
Import JS JSON.

Local Abbreviation len := String.length.

Lemma skip_ws_length (s : string) : len (skip_ws s) <= len s.
Proof.
  induction s as [|c s IH]; cbn; [lia|].
  destruct (is_ws c); cbn; lia.
Qed.

Lemma starts_with_length (p s r : string) :
  Str.starts_with p s = Some r -> len s = len p + len r.
Proof.
  revert s. induction p as [|a p IH]; intros s H.
  - destruct s; injection H as <-; reflexivity.
  - destruct s as [|b s]; [discriminate|]. cbn in H.
    destruct (Str.eqb_char a b); [|discriminate].
    apply IH in H. cbn. lia.
Qed.

Lemma take_digits_length (s ds r : string) :
  Lex.take_digits s = (ds, r) -> len s = len ds + len r.
Proof.
  revert ds r. induction s as [|c s IH]; intros ds r H; cbn in H.
  - injection H as <- <-. reflexivity.
  - destruct (Str.is_digit c).
    + destruct (Lex.take_digits s) as [ds' r'] eqn:E.
      injection H as <- <-. specialize (IH _ _ eq_refl). cbn. lia.
    + injection H as <- <-. reflexivity.
Qed.

Lemma exponent_part_length (s : string) (e : Z) (r : string) :
  Lex.exponent_part s = Some (e, r) -> len r < len s.
Proof.
  unfold Lex.exponent_part.
  destruct s as [|c rest]; [discriminate|].
  destruct (Str.eqb_char c "e" || Str.eqb_char c "E"); [|discriminate].
  destruct (match rest with
            | String sg r' =>
                if Str.eqb_char sg "-" then (true, r')
                else if Str.eqb_char sg "+" then (false, r') else (false, rest)
            | EmptyString => (false, rest)
            end) as [neg r1] eqn:E1.
  assert (len r1 <= len rest) as H1.
  { destruct rest as [|sg r']; [injection E1 as <- <-; lia|].
    destruct (Str.eqb_char sg "-"); [injection E1 as <- <-; cbn; lia|].
    destruct (Str.eqb_char sg "+"); injection E1 as <- <-; cbn; lia. }
  destruct (Lex.take_digits r1) as [ds r2] eqn:E2.
  apply take_digits_length in E2.
  destruct (Lex.is_nil ds); [discriminate|].
  intros H. injection H as <- <-. cbn. lia.
Qed.

Lemma parse_number_consumes (s : string) (n : Number.number) (r : string) :
  parse_number s = Ok n r -> len r < len s.
Proof.
  unfold parse_number.
  destruct (match s with
            | String c rest => if Str.eqb_char c "-" then (true, rest) else (false, s)
            | EmptyString => (false, s)
            end) as [neg s1] eqn:E1.
  assert (len s1 <= len s) as H1.
  { destruct s as [|c rest]; [injection E1 as <- <-; lia|].
    destruct (Str.eqb_char c "-"); injection E1 as <- <-; cbn; lia. }
  destruct (match s1 with
            | String c rest =>
                if Str.eqb_char c "0" then Some ("0"%string, rest)
                else if Str.is_digit c then Some (Lex.take_digits s1) else None
            | EmptyString => None
            end) as [[ip r1]|] eqn:E2; [|discriminate].
  assert (len r1 < len s1) as H2.
  { destruct s1 as [|c rest]; [discriminate|].
    destruct (Str.eqb_char c "0"); [injection E2 as <- <-; cbn; lia|].
    destruct (Str.is_digit c) eqn:D; [|discriminate].
    injection E2 as E2. cbn in E2. rewrite D in E2.
    destruct (Lex.take_digits rest) as [ds' r'] eqn:E3.
    injection E2 as <- <-. apply take_digits_length in E3. cbn. lia. }
  destruct (match r1 with
            | String c rest =>
                if Str.eqb_char c "."
                then let '(fp, r0) := Lex.take_digits rest in
                     if Lex.is_nil fp then None else Some (fp, r0)
                else Some (EmptyString, r1)
            | EmptyString => Some (EmptyString, r1)
            end) as [[fp r2]|] eqn:E3; [|discriminate].
  assert (len r2 <= len r1) as H3.
  { destruct r1 as [|c rest]; [injection E3 as <- <-; lia|].
    destruct (Str.eqb_char c ".").
    - destruct (Lex.take_digits rest) as [fp' r0] eqn:E4.
      destruct (Lex.is_nil fp'); [discriminate|].
      injection E3 as <- <-. apply take_digits_length in E4. cbn. lia.
    - injection E3 as <- <-. lia. }
  destruct r2 as [|c rest2].
  - intros H. injection H as <- <-. cbn in *. lia.
  - destruct (Str.eqb_char c "e" || Str.eqb_char c "E").
    + destruct (Lex.exponent_part (String c rest2)) as [[e r3]|] eqn:E5; [|discriminate].
      apply exponent_part_length in E5.
      intros H. injection H as <- <-. lia.
    + intros H. injection H as <- <-. lia.
Qed.

Lemma parse_number_fuel (s : string) : parse_number s <> OutOfFuel.
Proof.
  unfold parse_number.
  repeat match goal with
         | |- context [match ?x with _ => _ end] => destruct x
         end; discriminate.
Qed.

Lemma hex4_length (s : string) (u : Z) (r : string) :
  hex4 s = Some (u, r) -> len s = 4 + len r.
Proof.
  unfold hex4.
  destruct s as [|a [|b [|c [|d rest]]]]; try discriminate.
  destruct (hex_val a), (hex_val b), (hex_val c), (hex_val d); try discriminate.
  intros H. injection H as <- <-. reflexivity.
Qed.

Lemma unicode_escape_length (s bytes r : string) :
  unicode_escape s = Some (bytes, r) -> len r < len s.
Proof.
  unfold unicode_escape.
  destruct (hex4 s) as [[u r0]|] eqn:E; [|discriminate].
  apply hex4_length in E.
  destruct ((55296 <=? u)%Z && (u <=? 56319)%Z);
    [|intros H; injection H as <- <-; lia].
  destruct r0 as [|b1 [|b2 r']]; try (intros H; injection H as <- <-; cbn in *; lia).
  destruct (Str.eqb_char b1 Str.backslash && Str.eqb_char b2 "u");
    [|intros H; injection H as <- <-; cbn in *; lia].
  destruct (hex4 r') as [[lo r'']|] eqn:E2;
    [|intros H; injection H as <- <-; cbn in *; lia].
  apply hex4_length in E2.
  destruct ((56320 <=? lo)%Z && (lo <=? 57343)%Z);
    intros H; injection H as <- <-; cbn in *; lia.
Qed.

Lemma parse_chars_consumes (fuel : nat) :
  forall s t r, parse_chars fuel s = Ok t r -> len r < len s.
Proof.
  induction fuel as [|fuel IH]; intros s t r H; [discriminate|].
  cbn [parse_chars] in H.
  destruct s as [|c rest]; [discriminate|].
  destruct (Str.eqb_char c Str.quote); [injection H as <- <-; cbn; lia|].
  destruct (Str.eqb_char c Str.backslash).
  - destruct rest as [|e rest']; [discriminate|].
    destruct (if Str.eqb_char e "u" then unicode_escape rest'
              else match simple_escape e with
                   | Some x => Some (String x EmptyString, rest')
                   | None => None
                   end) as [[bytes r0]|] eqn:E; [|discriminate].
    assert (len r0 <= len rest') as Hr0.
    { destruct (Str.eqb_char e "u").
      - apply unicode_escape_length in E. lia.
      - destruct (simple_escape e); [injection E as <- <-; lia | discriminate]. }
    destruct (parse_chars fuel r0) as [tl r'| |] eqn:P; try discriminate.
    injection H as <- <-. apply IH in P. cbn. lia.
  - destruct (Str.code c <? 32)%Z; [discriminate|].
    destruct (parse_chars fuel rest) as [tl r'| |] eqn:P; try discriminate.
    injection H as <- <-. apply IH in P. cbn. lia.
Qed.

Lemma parse_chars_fuel (fuel : nat) :
  forall s, len s < fuel -> parse_chars fuel s <> OutOfFuel.
Proof.
  induction fuel as [|fuel IH]; intros s Hlen; [lia|].
  cbn [parse_chars].
  destruct s as [|c rest]; [discriminate|].
  destruct (Str.eqb_char c Str.quote); [discriminate|].
  cbn [String.length] in Hlen.
  destruct (Str.eqb_char c Str.backslash).
  - destruct rest as [|e rest']; [discriminate|].
    destruct (if Str.eqb_char e "u" then unicode_escape rest'
              else match simple_escape e with
                   | Some x => Some (String x EmptyString, rest')
                   | None => None
                   end) as [[bytes r0]|] eqn:E; [|discriminate].
    assert (len r0 <= len rest') as Hr0.
    { destruct (Str.eqb_char e "u").
      - apply unicode_escape_length in E. lia.
      - destruct (simple_escape e); [injection E as <- <-; lia | discriminate]. }
    specialize (IH r0). cbn [String.length] in Hlen.
    destruct (parse_chars fuel r0); try discriminate.
    apply IH. lia.
  - destruct (Str.code c <? 32)%Z; [discriminate|].
    specialize (IH rest).
    destruct (parse_chars fuel rest); try discriminate.
    apply IH. lia.
Qed.

Lemma literal_consumes (word : string) (v v' : value) (s r : string) :
  word <> EmptyString -> literal word v s = Ok v' r -> len r < len s.
Proof.
  unfold literal. intros Hw.
  destruct (Str.starts_with word s) as [rest|] eqn:E; [|discriminate].
  intros H. injection H as <- <-. apply starts_with_length in E.
  destruct word; [contradiction|]. cbn in E. lia.
Qed.

Lemma literal_fuel (word : string) (v : value) (s : string) :
  literal word v s <> OutOfFuel.
Proof. unfold literal. destruct (Str.starts_with word s); discriminate. Qed.

Lemma consumes (fuel : nat) :
  (forall s v r, parse_value fuel s = Ok v r -> len r < len s)
  /\ (forall s l r, parse_elements fuel s = Ok l r -> len r < len s)
  /\ (forall s acc o r, parse_members fuel s acc = Ok o r -> len r < len s).
Proof.
  induction fuel as [|fuel [IHv [IHe IHm]]];
    [repeat split; intros; discriminate|].
  assert (forall s v r, parse_value (S fuel) s = Ok v r -> len r < len s) as Hv.
  { intros s v r H. cbn [parse_value] in H.
    pose proof (skip_ws_length s) as Hs.
    destruct (skip_ws s) as [|c rest] eqn:Es; [discriminate|].
    cbn [String.length] in Hs.
    destruct (Str.eqb_char c "{").
    { pose proof (skip_ws_length rest) as Hb.
      destruct (skip_ws rest) as [|d rest'] eqn:Eb; [discriminate|].
      cbn [String.length] in Hb.
      destruct (Str.eqb_char d "}"); [injection H as <- <-; lia|].
      destruct (parse_members fuel (String d rest') []) as [o r'| |] eqn:P;
        try discriminate.
      injection H as <- <-. apply IHm in P. cbn [String.length] in P. lia. }
    destruct (Str.eqb_char c "[").
    { pose proof (skip_ws_length rest) as Hb.
      destruct (skip_ws rest) as [|d rest'] eqn:Eb; [discriminate|].
      cbn [String.length] in Hb.
      destruct (Str.eqb_char d "]"); [injection H as <- <-; lia|].
      destruct (parse_elements fuel (String d rest')) as [l r'| |] eqn:P;
        try discriminate.
      injection H as <- <-. apply IHe in P. cbn [String.length] in P. lia. }
    destruct (Str.eqb_char c Str.quote).
    { destruct (parse_chars (S (len rest)) rest) as [str r'| |] eqn:P;
        try discriminate.
      injection H as <- <-. apply parse_chars_consumes in P. lia. }
    destruct (Str.eqb_char c "t").
    { apply literal_consumes in H; [cbn [String.length] in H; lia | discriminate]. }
    destruct (Str.eqb_char c "f").
    { apply literal_consumes in H; [cbn [String.length] in H; lia | discriminate]. }
    destruct (Str.eqb_char c "n").
    { apply literal_consumes in H; [cbn [String.length] in H; lia | discriminate]. }
    destruct (parse_number (String c rest)) as [n r'| |] eqn:P; try discriminate.
    injection H as <- <-. apply parse_number_consumes in P.
    cbn [String.length] in P. lia. }
  split; [exact Hv|]. split.
  - intros s l r H. cbn [parse_elements] in H.
    destruct (parse_value fuel s) as [v r0| |] eqn:P; try discriminate.
    apply IHv in P.
    pose proof (skip_ws_length r0) as Hs.
    destruct (skip_ws r0) as [|c rest] eqn:Es; [discriminate|].
    cbn [String.length] in Hs.
    destruct (Str.eqb_char c ",").
    + destruct (parse_elements fuel rest) as [vs r'| |] eqn:Q; try discriminate.
      injection H as <- <-. apply IHe in Q. lia.
    + destruct (Str.eqb_char c "]"); [|discriminate].
      injection H as <- <-. lia.
  - intros s acc o r H. cbn [parse_members] in H.
    pose proof (skip_ws_length s) as Hs.
    destruct (skip_ws s) as [|q after_quote] eqn:Es; [discriminate|].
    cbn [String.length] in Hs.
    destruct (Str.eqb_char q Str.quote); [|discriminate].
    destruct (parse_chars (S (len after_quote)) after_quote) as [key r0| |] eqn:P;
      try discriminate.
    apply parse_chars_consumes in P.
    pose proof (skip_ws_length r0) as Hs0.
    destruct (skip_ws r0) as [|colon r1] eqn:Es0; [discriminate|].
    cbn [String.length] in Hs0.
    destruct (Str.eqb_char colon ":"); [|discriminate].
    destruct (parse_value fuel r1) as [v r2| |] eqn:Q; try discriminate.
    apply IHv in Q.
    pose proof (skip_ws_length r2) as Hs2.
    destruct (skip_ws r2) as [|c rest] eqn:Es2; [discriminate|].
    cbn [String.length] in Hs2.
    destruct (Str.eqb_char c ",").
    + apply IHm in H. lia.
    + destruct (Str.eqb_char c "}"); [|discriminate].
      injection H as <- <-. lia.
Qed.

Lemma enough_fuel (fuel : nat) :
  (forall s, 2 * len s + 2 <= fuel -> parse_value fuel s <> OutOfFuel)
  /\ (forall s, 2 * len s + 3 <= fuel -> parse_elements fuel s <> OutOfFuel)
  /\ (forall s acc, 2 * len s + 3 <= fuel -> parse_members fuel s acc <> OutOfFuel).
Proof.
  induction fuel as [|fuel [IHv [IHe IHm]]];
    [repeat split; intros; lia|].
  split; [|split].
  - intros s Hf. cbn [parse_value].
    pose proof (skip_ws_length s) as Hs.
    destruct (skip_ws s) as [|c rest] eqn:Es; [discriminate|].
    cbn [String.length] in Hs.
    destruct (Str.eqb_char c "{").
    { pose proof (skip_ws_length rest) as Hb.
      destruct (skip_ws rest) as [|d rest'] eqn:Eb; [discriminate|].
      destruct (Str.eqb_char d "}"); [discriminate|].
      cbn [String.length] in Hb.
      pose proof (IHm (String d rest') []) as Hm. cbn [String.length] in Hm.
      destruct (parse_members fuel (String d rest') []); try discriminate.
      exfalso. apply Hm; [lia | reflexivity]. }
    destruct (Str.eqb_char c "[").
    { pose proof (skip_ws_length rest) as Hb.
      destruct (skip_ws rest) as [|d rest'] eqn:Eb; [discriminate|].
      destruct (Str.eqb_char d "]"); [discriminate|].
      cbn [String.length] in Hb.
      pose proof (IHe (String d rest')) as He. cbn [String.length] in He.
      destruct (parse_elements fuel (String d rest')); try discriminate.
      exfalso. apply He; [lia | reflexivity]. }
    destruct (Str.eqb_char c Str.quote).
    { pose proof (parse_chars_fuel (S (len rest)) rest) as Hc.
      destruct (parse_chars (S (len rest)) rest); try discriminate.
      exfalso. apply Hc; [lia | reflexivity]. }
    destruct (Str.eqb_char c "t"); [apply literal_fuel|].
    destruct (Str.eqb_char c "f"); [apply literal_fuel|].
    destruct (Str.eqb_char c "n"); [apply literal_fuel|].
    pose proof (parse_number_fuel (String c rest)) as Hn.
    destruct (parse_number (String c rest)); try discriminate.
    exfalso. now apply Hn.
  - intros s Hf. cbn [parse_elements].
    pose proof (IHv s) as Hv.
    destruct (parse_value fuel s) as [v r0| |] eqn:P; try discriminate.
    + apply (proj1 (consumes fuel)) in P.
      pose proof (skip_ws_length r0) as Hs.
      destruct (skip_ws r0) as [|c rest] eqn:Es; [discriminate|].
      cbn [String.length] in Hs.
      destruct (Str.eqb_char c ",").
      * pose proof (IHe rest) as He.
        destruct (parse_elements fuel rest); try discriminate.
        exfalso. apply He; [lia | reflexivity].
      * destruct (Str.eqb_char c "]"); discriminate.
    + exfalso. apply Hv; [lia | reflexivity].
  - intros s acc Hf. cbn [parse_members].
    pose proof (skip_ws_length s) as Hs.
    destruct (skip_ws s) as [|q after_quote] eqn:Es; [discriminate|].
    cbn [String.length] in Hs.
    destruct (Str.eqb_char q Str.quote); [|discriminate].
    pose proof (parse_chars_fuel (S (len after_quote)) after_quote) as Hc.
    destruct (parse_chars (S (len after_quote)) after_quote) as [key r0| |] eqn:P;
      try discriminate.
    + apply parse_chars_consumes in P.
      pose proof (skip_ws_length r0) as Hs0.
      destruct (skip_ws r0) as [|colon r1] eqn:Es0; [discriminate|].
      cbn [String.length] in Hs0.
      destruct (Str.eqb_char colon ":"); [|discriminate].
      pose proof (IHv r1) as Hv.
      destruct (parse_value fuel r1) as [v r2| |] eqn:Q; try discriminate.
      * apply (proj1 (consumes fuel)) in Q.
        pose proof (skip_ws_length r2) as Hs2.
        destruct (skip_ws r2) as [|c rest] eqn:Es2; [discriminate|].
        cbn [String.length] in Hs2.
        destruct (Str.eqb_char c ",").
        -- apply IHm. lia.
        -- destruct (Str.eqb_char c "}"); discriminate.
      * exfalso. apply Hv; [lia | reflexivity].
    + exfalso. apply Hc; [lia | reflexivity].
Qed.

(** [JSON.parse] never gives up for lack of fuel: a text it refuses is
    refused by the grammar. *)
Lemma parse_total (text : string) :
  parse_value (2 * len text + 2) text <> OutOfFuel.
Proof. apply (proj1 (enough_fuel _)). lia. Qed.

End JSONFacts.

(* ===================================================================== *)
(** * Validation *)
(* ===================================================================== *)

Module Validation.
Import JS Options Spec ObjFacts.
Import Merge.

Local Ltac flag_cases opts filenames :=
  unfold check_flags, violated, given, push, no_filenames, no_inputs;
  destruct (truthy (get opts "outDir")), (truthy (get opts "outFile")),
           (truthy (get opts "watch")), (is_string (get opts "filename")),
           (is_not_false (get opts "swcrc")), filenames;
  cbn [andb orb negb app List.length Nat.eqb].

Local Ltac decide_in :=
  cbn [In rule_message]; unfold msg_out_dir_filenames, msg_out_file_out_dir,
    msg_watch_output, msg_watch_filenames, msg_stdin;
  first [ split; intros; solve [ discriminate | tauto | intuition discriminate ]
        | intuition discriminate ].

(** Each of the five flag rules reports its message exactly when it is
    violated. *)
Lemma check_flags_reports (opts : props) (filenames : list string) (r : rule) :
  r <> WorkersInvalid ->
  In (rule_message r opts) (check_flags opts filenames)
  <-> violated r opts filenames = true.
Proof.
  intros Hr. destruct r; try contradiction; clear Hr;
    flag_cases opts filenames; decide_in.
Qed.


Lemma refused_code (n : Number.number) :
  refused n = negb (Number.isInteger n) || Number.lt_zero n.
Proof. destruct n; reflexivity. Qed.

(** The worker check adds its message exactly when the count is refused. *)
Lemma check_workers_reports
    (opts : props) (filenames : list string) (before : list string)
    (workers : value) (errors : list string) :
  check_workers opts before = inr (workers, errors) ->
  (violated WorkersInvalid opts filenames = false /\ errors = before)
  \/ (violated WorkersInvalid opts filenames = true
      /\ errors = push before (rule_message WorkersInvalid opts)).
Proof.
  unfold check_workers, violated, rule_message.
  destruct (is_nullish (get opts "workers")); cbn [negb andb].
  - intros H. injection H as <- <-. left. split; reflexivity.
  - destruct (parseFloat (get opts "workers")) as [e|n]; [discriminate|].
    rewrite refused_code.
    destruct (negb (Number.isInteger n) || Number.lt_zero n).
    + destruct (ToString (get opts "workers")) as [e|raw]; [discriminate|].
      intros H. injection H as <- <-. right. split; reflexivity.
    + intros H. injection H as <- <-. left. split; reflexivity.
Qed.

Lemma finish_exit (opts : props) (filenames : list string)
    (workers : value) (errors : list string) :
  check_workers opts (check_flags opts filenames) = inr (workers, errors) ->
  errors <> [] ->
  finish opts filenames = Exit (report errors) 2.
Proof.
  intros Hc Hne. unfold finish. rewrite Hc. cbn.
  destruct errors; [contradiction | reflexivity].
Qed.

Lemma parserArgs_parsed
    (w : World) (args : list string) (program : Commander.Command) :
  Commander.parse initProgram args = Commander.Parsed program ->
  parserArgs w args = parserArgsFrom w program.
Proof. intros H. unfold parserArgs. now rewrite H. Qed.

Lemma parserArgsFrom_resolved
    (w : World) (program : Commander.Command) (opts : props) :
  resolveOpts w program = Return (Some opts) ->
  parserArgsFrom w program
  = (result <- finish opts (Commander.args program) ;; Return (Some result)).
Proof. intros H. unfold parserArgsFrom. now rewrite H. Qed.



(** ** The stdin rule *)


Lemma is_not_false_iff (v : value) : is_not_false v = true <-> v <> Bool false.
Proof.
  destruct v as [| |[]| | | | |]; simpl; split; intros H;
    try reflexivity; try discriminate; try congruence.
Qed.

Lemma stdin_ambiguous_violated (opts : props) (filenames : list string) :
  stdin_ambiguous opts filenames <-> violated StdinAmbiguous opts filenames = true.
Proof.
  unfold stdin_ambiguous, violated, given, no_inputs.
  rewrite <- is_not_false_iff.
  destruct (truthy (get opts "outDir")), (is_string (get opts "filename")),
           (is_not_false (get opts "swcrc")), filenames; cbn;
    intuition discriminate.
Qed.

Lemma msg_workers_not_stdin (raw : string) : msg_workers raw <> msg_stdin.
Proof. unfold msg_workers, msg_stdin. simpl. discriminate. Qed.

(** C5. When the worker count, if there is one, can be read ([parseFloat]
    returns), the stdin message is among the errors exactly when the output
    directory has no truthy value, there is no input file, the file name
    for the standard input is no string and the [.swcrc] lookup is not
    switched off; in that case [parserArgs] fails with the report and status
    2.  Any one of the four (an output directory other than the empty
    string, an input file, a file name given as a string, [--no-swcrc])
    keeps the message out. *)
Theorem C5_stdin_ambiguity
    (opts : props) (filenames : list string) (workers : value) (errors : list string) :
  check_workers opts (check_flags opts filenames) = inr (workers, errors) ->
  (In msg_stdin errors <-> stdin_ambiguous opts filenames)
  /\ (stdin_ambiguous opts filenames ->
      finish opts filenames = Exit (report errors) 2
      /\ In ("  " ++ msg_stdin) (report errors)).
Proof.
  intros Hc.
  assert (In msg_stdin errors <-> stdin_ambiguous opts filenames) as Hiff.
  { rewrite stdin_ambiguous_violated.
    rewrite <- (check_flags_reports opts filenames StdinAmbiguous) by discriminate.
    cbn [rule_message].
    destruct (check_workers_reports opts filenames _ _ _ Hc) as [[_ ->]|[_ ->]];
      [tauto|].
    unfold push. rewrite in_app_iff. cbn [In rule_message].
    split; [|tauto].
    intros [H|[H|[]]]; [assumption|].
    now apply msg_workers_not_stdin in H. }
  split; [exact Hiff|].
  intros Hamb. apply Hiff in Hamb.
  split.
  - apply (finish_exit opts filenames workers errors Hc).
    intros ->. contradiction.
  - unfold report. right.
    apply (in_map (fun error => "  " ++ error)) in Hamb. exact Hamb.
Qed.

(** [swc] with no argument at all. *)
Lemma C5_stdin_ambiguity_witness :
  check_workers (Commander.opts (parsed_program (argv [])))
    (check_flags (Commander.opts (parsed_program (argv []))) [])
  = inr (Undefined, [msg_stdin])
  /\ stdin_ambiguous (Commander.opts (parsed_program (argv []))) []
  /\ parserArgs (disk []) (argv []) = Exit (report [msg_stdin]) 2.
Proof.
  assert (check_workers (Commander.opts (parsed_program (argv [])))
            (check_flags (Commander.opts (parsed_program (argv []))) [])
          = inr (Undefined, [msg_stdin])) as Hc by (vm_compute; reflexivity).
  destruct (C5_stdin_ambiguity _ _ _ _ Hc) as [Hiff Hexit].
  assert (stdin_ambiguous (Commander.opts (parsed_program (argv []))) []) as Hamb
    by (apply Hiff; now left).
  split; [exact Hc|]. split; [exact Hamb|].
  rewrite (parserArgs_parsed _ _ (parsed_program (argv [])))
    by (apply parses_parsed; vm_compute; reflexivity).
  rewrite (parserArgsFrom_resolved _ _ (Commander.opts (parsed_program (argv []))))
    by (vm_compute; reflexivity).
  assert (Commander.args (parsed_program (argv [])) = []) as ->
    by (vm_compute; reflexivity).
  now rewrite (proj1 (Hexit Hamb)).
Defined.

(** The claim without its side conditions fails three times over.  An
    output directory given as the empty string is set and the stdin message
    is still raised.  A bare [--filename] is set and the message is still
    raised.  And with a worker count no string can be made of, nothing is
    set, the lookup is on, and [parseFloat] throws before any message is
    reported. *)
Lemma C5_stdin_ambiguity_counterexample :
  (supplied empty_dir_args "outDir" = true
   /\ parserArgs (disk []) empty_dir_args = Exit (report [msg_stdin]) 2)
  /\ (supplied (argv ["--filename"]) "filename" = true
      /\ parserArgs (disk []) (argv ["--filename"]) = Exit (report [msg_stdin]) 2)
  /\ (supplied opaque_stdin_args "outDir" = false
      /\ supplied opaque_stdin_args "filename" = false
      /\ supplied opaque_stdin_args "swcrc" = false
      /\ Commander.args (parsed_program opaque_stdin_args) = []
      /\ parserArgs opaque_workers_world opaque_stdin_args
         = Throw (TypeError "Cannot convert object to primitive value")).
Proof.
  split; [split; vm_compute; reflexivity|].
  split; [split; vm_compute; reflexivity|].
  split; [vm_compute; reflexivity|].
  split; [vm_compute; reflexivity|].
  split; [vm_compute; reflexivity|].
  split; vm_compute; reflexivity.
Qed.

(** ** The worker count *)


Lemma accepted_integer (n : Number.number) :
  negb (Number.isInteger n) || Number.lt_zero n = false ->
  exists z, Number.to_Z n = Some z /\ (0 <= z)%Z.
Proof.
  intros H. apply orb_false_iff in H as [Hi Hl].
  apply negb_false_iff in Hi.
  destruct n as [s|s| |s m e]; try discriminate.
  - exists 0%Z. split; [reflexivity | lia].
  - destruct s; [discriminate|].
    unfold Number.to_Z. rewrite Hi.
    eexists. split; [reflexivity|].
    destruct (0 <=? e)%Z eqn:E.
    + apply Z.leb_le in E. apply Z.mul_nonneg_nonneg; [lia|].
      now apply Z.pow_nonneg.
    + apply Z.leb_gt in E. apply Z.div_pos; [lia|].
      apply Z.pow_pos_nonneg; lia.
Qed.



(** ** Lenient parsing of the worker count *)



Lemma take_digits_app (ds rest : string) :
  all_digits ds = true ->
  not_numeric rest = true ->
  Lex.take_digits (ds ++ rest) = (ds, rest).
Proof.
  intros Hd Hr.
  induction ds as [|c ds IH]; simpl.
  - destruct rest as [|c rest]; [reflexivity|].
    simpl in Hr. apply negb_true_iff in Hr.
    apply orb_false_iff in Hr as [Hr _]. apply orb_false_iff in Hr as [Hr _].
    apply orb_false_iff in Hr as [Hr _]. simpl. now rewrite Hr.
  - simpl in Hd. apply andb_true_iff in Hd as [Hc Hd].
    now rewrite Hc, IH.
Qed.




(** ** A bare [--filename] *)

(** C10. [-f] or [--filename] without a value stores [true], which is no
    string: with a [filename] of [true], no output directory, no input file
    and the [.swcrc] lookup left on, the stdin message is reported, and the
    command line [swc --filename] fails with it. *)
Theorem C10_bare_filename (w : World) (f : string) :
  f = "-f" \/ f = "--filename" ->
  Commander.parse initProgram (argv [f])
    = Commander.Parsed (parsed_program (argv [f]))
  /\ get (Commander.opts (parsed_program (argv [f]))) "filename" = Bool true
  /\ (forall opts,
        get opts "filename" = Bool true ->
        truthy (get opts "outDir") = false ->
        get opts "swcrc" <> Bool false ->
        In msg_stdin (check_flags opts []))
  /\ parserArgs w (argv [f]) = Exit (report [msg_stdin]) 2.
Proof.
  intros Hf.
  split; [destruct Hf as [-> | ->]; apply parses_parsed; vm_compute; reflexivity|].
  split; [destruct Hf as [-> | ->]; vm_compute; reflexivity|].
  split.
  - intros opts Hname Hout Hrc.
    apply (check_flags_reports opts [] StdinAmbiguous); [discriminate|].
    apply stdin_ambiguous_violated. unfold stdin_ambiguous.
    rewrite Hname. auto.
  - destruct Hf as [-> | ->]; vm_compute; reflexivity.
Qed.

Lemma C10_bare_filename_witness :
  parserArgs (disk []) (argv ["--filename"])
  = Exit [ "swc:";
           "  stdin compilation requires either -f/--filename [filename] or --no-swcrc" ] 2.
Proof.
  exact (proj2 (proj2 (proj2 (C10_bare_filename (disk []) "--filename" (or_intror eq_refl))))).
Defined.

End Validation.

(* ===================================================================== *)
(** * List-valued flags *)
(* ===================================================================== *)

Module Accumulate.
Import JS Options Spec ObjFacts.
Import Merge.

Lemma registered_from (l : list Commander.OptionDecl) :
  forall (program : Commander.Command) (o : Commander.OptionDecl),
    In o (Commander.options (fold_left Commander.addOption l program)) ->
    In o (Commander.options program) \/ exists d, In d l /\ registers o d.
Proof.
  induction l as [|d l IH]; intros program o Hin; [now left|].
  cbn [fold_left] in Hin. apply IH in Hin as [Hin|[d' [Hd' Hreg]]].
  - unfold Commander.addOption in Hin. cbn [Commander.options] in Hin.
    apply in_app_or in Hin as [Hin|[<-|[]]].
    + left.
      destruct ((Commander.negate d
                 || match Commander.arg d with
                    | Commander.Flag => false
                    | _ => true
                    end
                 || Commander.is_boolean (Commander.defaultValue d))
                && negb (is_undefined _)) in Hin; exact Hin.
    + right. exists d. split; [now left|].
      unfold registers. cbn. repeat split.
      intros Hn. now rewrite Hn, andb_false_r.
  - right. exists d'. split; [now right | assumption].
Qed.

Lemma registered (o : Commander.OptionDecl) :
  In o (Commander.options initProgram) ->
  exists d, In d declarations /\ registers o d.
Proof.
  intros Hin. apply registered_from in Hin as [[]|H]. exact H.
Qed.

Lemma registers_names (o d : Commander.OptionDecl) :
  registers o d ->
  Commander.attributeName o = Commander.attributeName d
  /\ Commander.negate o = Commander.negate d.
Proof.
  intros [Hl _]. unfold Commander.attributeName, Commander.name, Commander.negate.
  now rewrite Hl.
Qed.

(** The options stored under the list-valued keys are declared with
    [collect], an argument, no default and no negation. *)
Lemma list_valued_declaration (o : Commander.OptionDecl) (key : string) :
  In o (Commander.options initProgram) ->
  In key list_valued ->
  Commander.attributeName o = key ->
  Commander.parseArg o = Some collect
  /\ Commander.defaultValue o = Undefined
  /\ Commander.negate o = false
  /\ Commander.arg o <> Commander.Flag.
Proof.
  intros Ho Hk Hname.
  destruct (registered o Ho) as [d [Hd Hreg]].
  destruct (registers_names o d Hreg) as [Hn Hneg].
  destruct Hreg as [_ [_ [Harg [Hparse Hdflt]]]].
  rewrite Hn in Hname. rewrite Hneg, Harg, Hparse.
  clear Ho Hn Hneg Harg Hparse.
  unfold declarations in Hd. cbn [In] in Hd.
  repeat (destruct Hd as [<-|Hd]; [
    vm_compute in Hname; subst key;
    first [ repeat split; solve [ reflexivity | discriminate | now apply Hdflt ]
          | exfalso; cbn in Hk; intuition discriminate ] |]).
  contradiction.
Qed.

Lemma handleOptionValue_frame
    (o : Commander.OptionDecl) (val : value) (program program' : Commander.Command)
    (key : string) :
  Commander.handleOptionValue o val program = inr program' ->
  Commander.options program' = Commander.options program
  /\ (Commander.attributeName o <> key ->
      get (Commander.optionValues program') key
      = get (Commander.optionValues program) key).
Proof.
  unfold Commander.handleOptionValue.
  destruct (match Commander.parseArg o with
            | Some fn => _
            | None => _
            end) as [e|val']; [discriminate|].
  destruct (Commander.is_boolean_or_undefined _).
  - destruct (is_nullish val'); intros H; injection H as <-;
      (split; [reflexivity | intros Hne; cbn; now apply get_set_ne]).
  - destruct (Commander.is_null val'); intros H; injection H as <-.
    + split; [reflexivity | reflexivity].
    + split; [reflexivity | intros Hne; cbn; now apply get_set_ne].
Qed.



Section Scan.

Variable schema : list Commander.OptionDecl.
Variable key : string.

Hypothesis collects :
  forall o, In o schema -> Commander.attributeName o = key ->
    Commander.parseArg o = Some collect
    /\ Commander.defaultValue o = Undefined
    /\ Commander.negate o = false
    /\ Commander.arg o <> Commander.Flag.


End Scan.



(** A successful parse is a scan that leaves nothing unknown. *)
Lemma run_parsed
    (program0 : Commander.Command) (inv : Commander.invocation)
    (program : Commander.Command) :
  Commander.run program0 inv = Commander.Parsed program ->
  exists program',
    Commander.parseOptions program0 (Commander.occurrences inv) []
    = Commander.Scanned program' []
    /\ Commander.opts program = Commander.optionValues program'
    /\ Commander.args program = Commander.operands inv.
Proof.
  unfold Commander.run. intros H.
  destruct (Commander.parseOptions program0 (Commander.occurrences inv) [])
    as [program' unknown'| |]; [|discriminate H|discriminate H].
  destruct unknown'; [|discriminate H].
  injection H as <-. exists program'. repeat split.
Qed.



(** ** The parsed options form an object *)

Lemma handleOptionValue_unique
    (o : Commander.OptionDecl) (val : value) (program program' : Commander.Command) :
  Commander.handleOptionValue o val program = inr program' ->
  unique (Commander.optionValues program) ->
  unique (Commander.optionValues program').
Proof.
  unfold Commander.handleOptionValue.
  destruct (match Commander.parseArg o with
            | Some fn => _
            | None => _
            end) as [e|val']; [discriminate|].
  destruct (Commander.is_boolean_or_undefined _).
  - destruct (is_nullish val'); intros H Hu; injection H as <-;
      cbn; now apply unique_set.
  - destruct (Commander.is_null val'); intros H Hu; injection H as <-;
      [assumption | cbn; now apply unique_set].
Qed.

Lemma parseOptions_unique (occs : list Commander.occurrence) :
  forall program unknown program' unknown',
    Commander.parseOptions program occs unknown = Commander.Scanned program' unknown' ->
    unique (Commander.optionValues program) ->
    unique (Commander.optionValues program').
Proof.
  induction occs as [|occ occs IH]; intros program unknown program' unknown' H Hu.
  - injection H as <- <-. exact Hu.
  - cbn [Commander.parseOptions] in H.
    destruct (Commander.is_version (Commander.flag occ)); [discriminate H|].
    destruct (Commander.findOption (Commander.options program) (Commander.flag occ))
      as [o|]; [|now apply IH in H].
    destruct (Commander.arg o), (Commander.argument occ);
      try discriminate H; try (now apply IH in H);
      match type of H with
      | context [Commander.handleOptionValue o ?v program] =>
          destruct (Commander.handleOptionValue o v program)
            as [e|program1] eqn:Hh; [discriminate H|];
          apply IH in H; [exact H | exact (handleOptionValue_unique _ _ _ _ Hh Hu)]
      end.
Qed.

Lemma parsed_unique (args : list string) (program : Commander.Command) :
  Commander.parse initProgram args = Commander.Parsed program ->
  unique (Commander.opts program).
Proof.
  intros H. apply run_parsed in H. destruct H as [program' [Hscan [-> _]]].
  apply (parseOptions_unique _ _ _ _ _ Hscan).
  apply distinct_unique. vm_compute. reflexivity.
Qed.

(** The merge rule, from the command line on: when [parserArgs] gets past
    the loading of a CLI config file, the options it goes on with follow the
    three-way rule. *)
Lemma resolveOpts_three_way
    (w : World) (args : list string) (program : Commander.Command)
    (opts : props) :
  Commander.parse initProgram args = Commander.Parsed program ->
  truthy (get (Commander.opts program) "cliConfigFile") = true ->
  resolveOpts w program = Return (Some opts) ->
  exists cfg,
    configFile w (get (Commander.opts program) "cliConfigFile") = Some cfg
    /\ forall k, get opts k = three_way program (Commander.opts program) cfg k.
Proof.
  intros Hparse Hfile Hres. unfold resolveOpts in Hres. rewrite Hfile in Hres.
  destruct (loadCLIConfigFile w program (Commander.opts program)
              (get (Commander.opts program) "cliConfigFile")) as [e|merged] eqn:Hload.
  - cbn in Hres. discriminate Hres.
  - injection Hres as <-.
    exact (merged_three_way _ _ _ _ _ (parsed_unique _ _ Hparse) Hload).
Qed.

End Accumulate.

(* ===================================================================== *)
(** * Provenance: what the command line supplies *)
(* ===================================================================== *)

Module Provenance.
Import JS Options Spec ObjFacts Merge Accumulate.

Lemma initial_values (key : string) :
  get (Commander.optionValues initProgram) key = default_of key.
Proof.
  assert (Commander.optionValues initProgram
          = [ ("swcrc", Bool true); ("stripLeadingPaths", Bool false);
              ("logWatchCompilation", Bool true) ]) as ->
    by (vm_compute; reflexivity).
  unfold default_of. cbn [get].
  rewrite !(String.eqb_sym _ key).
  destruct (String.eqb key "swcrc"); [reflexivity|].
  destruct (String.eqb key "stripLeadingPaths"); [reflexivity|].
  destruct (String.eqb key "logWatchCompilation"); reflexivity.
Qed.

(** ** Occurrences of other options leave a key alone *)

Lemma parseOptions_untouched (schema : list Commander.OptionDecl) (key : string) :
  forall (occs : list Commander.occurrence) (program : Commander.Command)
         (unknown : list string) (program' : Commander.Command)
         (unknown' : list string),
    Commander.options program = schema ->
    Commander.parseOptions program occs unknown = Commander.Scanned program' unknown' ->
    arguments_of schema key occs = [] ->
    get (Commander.optionValues program') key = get (Commander.optionValues program) key.
Proof.
  induction occs as [|occ occs IH];
    intros program unknown program' unknown' Hschema Hscan Hargs.
  - cbn in Hscan. now injection Hscan as <- <-.
  - cbn [Commander.parseOptions] in Hscan.
    destruct (Commander.is_version (Commander.flag occ)); [discriminate Hscan|].
    rewrite Hschema in Hscan.
    cbn [arguments_of flat_map] in Hargs. fold (arguments_of schema key occs) in Hargs.
    apply app_eq_nil in Hargs. destruct Hargs as [Hocc Hargs].
    destruct (Commander.findOption schema (Commander.flag occ)) as [o|] eqn:Hfind.
    + destruct (String.eqb_spec (Commander.attributeName o) key) as [Hname|Hname];
        [discriminate Hocc|].
      destruct (Commander.arg o), (Commander.argument occ);
        try discriminate Hscan;
        try (eapply (IH program _ program' unknown'); eassumption);
        match type of Hscan with
        | context [Commander.handleOptionValue o ?v program] =>
            destruct (Commander.handleOptionValue o v program)
              as [e|program1] eqn:Hh; [discriminate Hscan|];
            destruct (handleOptionValue_frame _ _ _ _ key Hh) as [Hopts Hkeep];
            rewrite <- (Hkeep Hname);
            apply (IH program1 unknown program' unknown');
              [congruence | assumption | assumption]
        end.
    + eapply (IH program _ program' unknown'); eassumption.
Qed.

(** ** What an occurrence does to the provenance *)

Lemma handleOptionValue_other
    (o : Commander.OptionDecl) (val : value) (program program' : Commander.Command)
    (key : string) :
  Commander.handleOptionValue o val program = inr program' ->
  Commander.attributeName o <> key ->
  get (Commander.optionValues program') key = get (Commander.optionValues program) key
  /\ has (Commander.optionValues program') key = has (Commander.optionValues program) key
  /\ Commander.getOptionValueSource program' key
     = Commander.getOptionValueSource program key.
Proof.
  unfold Commander.handleOptionValue. intros H Hne.
  assert (forall v source,
             let stored := Commander.setOptionValueWithSource program
                             (Commander.attributeName o) v source in
             get (Commander.optionValues stored) key
             = get (Commander.optionValues program) key
             /\ has (Commander.optionValues stored) key
                = has (Commander.optionValues program) key
             /\ Commander.getOptionValueSource stored key
                = Commander.getOptionValueSource program key) as Hset.
  { intros v source. cbn. split; [now apply get_set_ne|].
    split.
    - rewrite has_set. apply String.eqb_neq in Hne. now rewrite Hne.
    - unfold Commander.getOptionValueSource. cbn.
      apply String.eqb_neq in Hne. now rewrite Hne. }
  destruct (match Commander.parseArg o with
            | Some fn => _
            | None => _
            end) as [e|val']; [discriminate H|].
  destruct (Commander.is_boolean_or_undefined _).
  - destruct (is_nullish val'); injection H as <-; apply Hset.
  - destruct (Commander.is_null val'); injection H as <-;
      [repeat split | apply Hset].
Qed.

Lemma handleOptionValue_same
    (o : Commander.OptionDecl) (val : value) (program program' : Commander.Command) :
  Commander.handleOptionValue o val program = inr program' ->
  (Commander.is_boolean_or_undefined
     (get (Commander.optionValues program) (Commander.attributeName o)) = true
   \/ (has (Commander.optionValues program) (Commander.attributeName o) = true
       /\ Commander.getOptionValueSource program (Commander.attributeName o)
          = Some "cli")) ->
  has (Commander.optionValues program') (Commander.attributeName o) = true
  /\ Commander.getOptionValueSource program' (Commander.attributeName o) = Some "cli".
Proof.
  unfold Commander.handleOptionValue. intros H Hold.
  assert (forall v,
             let stored := Commander.setOptionValueWithSource program
                             (Commander.attributeName o) v "cli" in
             has (Commander.optionValues stored) (Commander.attributeName o) = true
             /\ Commander.getOptionValueSource stored (Commander.attributeName o)
                = Some "cli") as Hset.
  { intros v. cbn. split.
    - rewrite has_set. now rewrite String.eqb_refl.
    - unfold Commander.getOptionValueSource. cbn. now rewrite String.eqb_refl. }
  destruct (match Commander.parseArg o with
            | Some fn => _
            | None => _
            end) as [e|val']; [discriminate H|].
  destruct (Commander.is_boolean_or_undefined _) eqn:Hb.
  - destruct (is_nullish val'); injection H as <-; apply Hset.
  - destruct (Commander.is_null val'); injection H as <-; [|apply Hset].
    destruct Hold as [Hold|Hold]; [discriminate Hold | exact Hold].
Qed.

Lemma parseOptions_unknown (occs : list Commander.occurrence) :
  forall program unknown program' unknown',
    Commander.parseOptions program occs unknown = Commander.Scanned program' unknown' ->
    exists more, unknown' = (unknown ++ more)%list.
Proof.
  induction occs as [|occ occs IH]; intros program unknown program' unknown' H.
  - cbn in H. injection H as _ <-. exists []. now rewrite app_nil_r.
  - cbn [Commander.parseOptions] in H.
    destruct (Commander.is_version (Commander.flag occ)); [discriminate H|].
    destruct (Commander.findOption (Commander.options program) (Commander.flag occ))
      as [o|].
    + destruct (Commander.arg o), (Commander.argument occ);
        try discriminate H;
        try (apply IH in H; destruct H as [more ->];
             eexists; rewrite <- app_assoc; reflexivity);
        match type of H with
        | context [Commander.handleOptionValue o ?v program] =>
            destruct (Commander.handleOptionValue o v program)
              as [e|program1]; [discriminate H | now apply IH in H]
        end.
    + apply IH in H. destruct H as [more ->].
      eexists. rewrite <- app_assoc. reflexivity.
Qed.

Lemma parseOptions_known (occs : list Commander.occurrence) :
  forall program unknown f program',
    Commander.parseOptions program occs (unknown ++ [f])%list
    <> Commander.Scanned program' [].
Proof.
  intros program unknown f program' H.
  apply parseOptions_unknown in H. destruct H as [more H].
  destruct unknown; discriminate H.
Qed.

Section Scan.

Variable schema : list Commander.OptionDecl.
Variable key : string.

(** Once an option has occurred it has a value, and that value's provenance
    is the command line. *)
Lemma parseOptions_supplied :
  forall (occs : list Commander.occurrence) (program : Commander.Command)
         (program' : Commander.Command),
    Commander.options program = schema ->
    Commander.parseOptions program occs [] = Commander.Scanned program' [] ->
    (Commander.is_boolean_or_undefined (get (Commander.optionValues program) key) = true
     \/ (has (Commander.optionValues program) key = true
         /\ Commander.getOptionValueSource program key = Some "cli")) ->
    match arguments_of schema key occs with
    | [] =>
        get (Commander.optionValues program') key
        = get (Commander.optionValues program) key
        /\ has (Commander.optionValues program') key
           = has (Commander.optionValues program) key
        /\ Commander.getOptionValueSource program' key
           = Commander.getOptionValueSource program key
    | _ :: _ =>
        has (Commander.optionValues program') key = true
        /\ Commander.getOptionValueSource program' key = Some "cli"
    end.
Proof.
  induction occs as [|occ occs IH]; intros program program' Hschema Hscan Hold.
  - cbn in Hscan. injection Hscan as <-. cbn. repeat split.
  - cbn [Commander.parseOptions] in Hscan.
    destruct (Commander.is_version (Commander.flag occ)); [discriminate Hscan|].
    rewrite Hschema in Hscan.
    cbn [arguments_of flat_map]. fold (arguments_of schema key occs).
    destruct (Commander.findOption schema (Commander.flag occ)) as [o|] eqn:Hfind;
      [|now apply (parseOptions_known occs program [] _ program') in Hscan].
    assert (exists val program1,
               Commander.handleOptionValue o val program = inr program1
               /\ Commander.parseOptions program1 occs [] = Commander.Scanned program' [])
      as [val [program1 [Hh Hrest]]].
    { destruct (Commander.arg o), (Commander.argument occ);
        try discriminate Hscan;
        try (now apply (parseOptions_known occs program [] _ program') in Hscan);
        match type of Hscan with
        | context [Commander.handleOptionValue o ?v program] =>
            destruct (Commander.handleOptionValue o v program)
              as [e|program1] eqn:Hh; [discriminate Hscan | eauto]
        end. }
    destruct (handleOptionValue_frame _ _ _ _ key Hh) as [Hopts _].
    assert (Commander.options program1 = schema) as Hschema1 by congruence.
    destruct (String.eqb_spec (Commander.attributeName o) key) as [Hname|Hname].
    + cbn [app].
      assert (has (Commander.optionValues program1) key = true
              /\ Commander.getOptionValueSource program1 key = Some "cli") as Hnow.
      { rewrite <- Hname. apply (handleOptionValue_same o val program program1 Hh).
        rewrite Hname. exact Hold. }
      specialize (IH program1 program' Hschema1 Hrest (or_intror Hnow)).
      destruct (arguments_of schema key occs).
      * destruct IH as [_ [Hhas Hsource]]. rewrite Hhas, Hsource. exact Hnow.
      * exact IH.
    + cbn [app].
      destruct (handleOptionValue_other _ _ _ _ key Hh Hname) as [Hg [Hhas Hs]].
      assert (Commander.is_boolean_or_undefined
                (get (Commander.optionValues program1) key) = true
              \/ (has (Commander.optionValues program1) key = true
                  /\ Commander.getOptionValueSource program1 key = Some "cli"))
        as Hold1 by (rewrite Hg, Hhas, Hs; exact Hold).
      specialize (IH program1 program' Hschema1 Hrest Hold1).
      destruct (arguments_of schema key occs).
      * rewrite <- Hg, <- Hhas, <- Hs. exact IH.
      * exact IH.
Qed.

End Scan.

(** Before the command line is read an option has a value exactly when it
    has a default, with the provenance ["default"]. *)
Lemma initial_provenance (key : string) :
  Commander.is_boolean_or_undefined (get (Commander.optionValues initProgram) key) = true
  /\ has (Commander.optionValues initProgram) key
     && negb (by_default initProgram key) = false.
Proof.
  assert (Commander.optionValues initProgram
          = [ ("swcrc", Bool true); ("stripLeadingPaths", Bool false);
              ("logWatchCompilation", Bool true) ]) as Hvalues
    by (vm_compute; reflexivity).
  assert (Commander.optionValueSources initProgram
          = [ ("logWatchCompilation", "default"); ("stripLeadingPaths", "default");
              ("swcrc", "default") ]) as Hsources
    by (vm_compute; reflexivity).
  unfold by_default, Commander.getOptionValueSource. rewrite Hvalues, Hsources.
  cbn [get has Commander.lookup_source].
  rewrite !(String.eqb_sym _ key).
  destruct (String.eqb key "swcrc") eqn:E1.
  { apply String.eqb_eq in E1. subst key. split; reflexivity. }
  destruct (String.eqb key "stripLeadingPaths") eqn:E2.
  { apply String.eqb_eq in E2. subst key. split; reflexivity. }
  destruct (String.eqb key "logWatchCompilation") eqn:E3.
  { apply String.eqb_eq in E3. subst key. split; reflexivity. }
  split; reflexivity.
Qed.

Lemma run_parsed_state
    (program0 : Commander.Command) (inv : Commander.invocation)
    (program : Commander.Command) :
  Commander.run program0 inv = Commander.Parsed program ->
  exists program',
    Commander.parseOptions program0 (Commander.occurrences inv) []
    = Commander.Scanned program' []
    /\ Commander.optionValues program = Commander.optionValues program'
    /\ Commander.optionValueSources program = Commander.optionValueSources program'.
Proof.
  unfold Commander.run. intros H.
  destruct (Commander.parseOptions program0 (Commander.occurrences inv) [])
    as [program' unknown'| |]; [|discriminate H|discriminate H].
  destruct unknown'; [|discriminate H].
  injection H as <-. exists program'. repeat split.
Qed.

(** The provenance commander keeps says what the command line supplied, and
    an option the command line does not supply holds its default. *)
Lemma explicit_supplied (args : list string) (program : Commander.Command) (k : string) :
  Commander.parse initProgram args = Commander.Parsed program ->
  explicit program (Commander.opts program) k = supplied args k
  /\ (supplied args k = false -> get (Commander.opts program) k = default_of k).
Proof.
  intros Hparse.
  apply run_parsed_state in Hparse.
  destruct Hparse as [program' [Hscan [Hvalues Hsources]]].
  destruct (initial_provenance k) as [Hbool Hinit].
  pose proof (parseOptions_supplied (Commander.options initProgram) k
                _ _ _ eq_refl Hscan (or_introl Hbool)) as H.
  unfold supplied, events, explicit, by_default, Commander.getOptionValueSource,
    Commander.opts in *.
  rewrite Hvalues, Hsources.
  destruct (arguments_of (Commander.options initProgram) k _).
  - destruct H as [Hget [Hhas Hsource]]. rewrite Hhas, Hsource.
    split; [exact Hinit|]. intros _. rewrite Hget. apply initial_values.
  - destruct H as [Hhas Hsource]. rewrite Hhas, Hsource.
    split; [reflexivity | discriminate].
Qed.

(** C1. When the CLI config file is loaded after the command line is
    parsed, every key of the merged options holds the value the command line
    supplied if it supplied one (which is what the provenance kept by the
    parser says), else the value of the (key-normalised) config file if the
    file has the key, else the schema default.  So what the command line
    supplies beats the file and the default, and a default never beats the
    file. *)
Theorem C1_three_way_merge
    (w : World) (args : list string) (program : Commander.Command)
    (path : value) (merged : props) :
  Commander.parse initProgram args = Commander.Parsed program ->
  loadCLIConfigFile w program (Commander.opts program) path = inr merged ->
  exists cfg,
    configFile w path = Some cfg
    /\ (forall k, explicit program (Commander.opts program) k = supplied args k)
    /\ (forall k, get merged k
                  = if supplied args k then get (Commander.opts program) k
                    else if has cfg k then get cfg k
                    else default_of k)
    /\ (forall k, supplied args k = true ->
                  get merged k = get (Commander.opts program) k)
    /\ (forall k, supplied args k = false -> has cfg k = true ->
                  get merged k = get cfg k)
    /\ (forall k, supplied args k = false -> has cfg k = false ->
                  get merged k = default_of k).
Proof.
  intros Hparse Hload.
  destruct (merged_three_way w program (Commander.opts program) path merged
              (parsed_unique args program Hparse) Hload) as [cfg [Hcfg Hk]].
  assert (forall k, get merged k
                    = if supplied args k then get (Commander.opts program) k
                      else if has cfg k then get cfg k
                      else default_of k) as Hrule.
  { intros k. rewrite Hk. unfold three_way.
    destruct (explicit_supplied args program k Hparse) as [-> Hdefault].
    destruct (supplied args k); [reflexivity|].
    destruct (has cfg k); [reflexivity | now apply Hdefault]. }
  exists cfg. split; [exact Hcfg|].
  split; [intros k; apply (explicit_supplied args program k Hparse)|].
  split; [exact Hrule|].
  split; [|split]; intros k; rewrite Hrule.
  - now intros ->.
  - now intros -> ->.
  - now intros -> ->.
Qed.

(** [swc a.js --out-dir lib --cli-config-file cfg.json] with the file
    [{"out-dir": "dist", "source-maps": true, "swcrc": false}]: the flag
    beats the file for [outDir]; the file gives [sourceMaps], which has no
    default, and beats the default [true] of [swcrc]; [logWatchCompilation],
    which neither supplies, keeps its default. *)
Lemma C1_three_way_merge_witness :
  Commander.parse initProgram merge_args = Commander.Parsed (parsed_program merge_args)
  /\ loadCLIConfigFile precedence_world (parsed_program merge_args)
       (Commander.opts (parsed_program merge_args)) (Str "cfg.json")
     = inr precedence_result
  /\ get precedence_result "outDir" = Str "lib"
  /\ get precedence_result "sourceMaps" = Bool true
  /\ get precedence_result "swcrc" = Bool false
  /\ get precedence_result "logWatchCompilation" = Bool true.
Proof.
  assert (Commander.parse initProgram merge_args
          = Commander.Parsed (parsed_program merge_args)) as Hparse
    by (apply parses_parsed; vm_compute; reflexivity).
  assert (loadCLIConfigFile precedence_world (parsed_program merge_args)
            (Commander.opts (parsed_program merge_args)) (Str "cfg.json")
          = inr precedence_result) as Hload by (vm_compute; reflexivity).
  split; [exact Hparse|]. split; [exact Hload|].
  destruct (C1_three_way_merge _ _ _ _ _ Hparse Hload) as [cfg [Hcfg [_ [Hk _]]]].
  rewrite !Hk.
  assert (cfg = [("outDir", Str "dist"); ("sourceMaps", Bool true);
                 ("swcrc", Bool false)]) as ->
    by (vm_compute in Hcfg; now injection Hcfg).
  clear Hparse Hload Hcfg Hk.
  split; [|split; [|split]]; vm_compute; reflexivity.
Defined.

End Provenance.

(* ===================================================================== *)
(** * Source maps *)
(* ===================================================================== *)

Module SourceMaps.
Import JS Options Spec ObjFacts Walk.

Lemma baseOptions_sourceMaps (opts : props) :
  has (baseOptions opts) "sourceMaps" = negb (is_undefined (get opts "sourceMaps"))
  /\ get (baseOptions opts) "sourceMaps" = get opts "sourceMaps".
Proof.
  unfold baseOptions.
  destruct (get opts "sourceMaps"); cbn; split; reflexivity.
Qed.

Lemma applyDirective_frame (options : props) (cfg : string) (options' : props) (k : string) :
  applyDirective options cfg = Assigned options'
  \/ applyDirective options cfg = Diverted options' ->
  root cfg <> k ->
  get options' k = get options k /\ has options' k = has options k.
Proof.
  unfold applyDirective, root. rewrite Override.directive_split_once.
  destruct (Str.split "." (fst (split_once cfg))) as [|segment rest] eqn:E.
  - now apply Override.split_nonempty in E.
  - cbn [hd]. intros H Hne. apply (assign_frame _ _ _ _ _ _ H). congruence.
Qed.

Lemma applyDirectives_frame (k : string) (cfgs : list value) :
  forall (options options' : props),
    applyDirectives options cfgs = Return options' ->
    existsb (targets k) cfgs = false ->
    get options' k = get options k /\ has options' k = has options k.
Proof.
  induction cfgs as [|cfg cfgs IH]; intros options options' H Hno.
  - injection H as <-. auto.
  - cbn [existsb] in Hno. apply orb_false_iff in Hno as [Hcfg Hno].
    destruct cfg; try discriminate.
    cbn [applyDirectives] in H.
    cbn [targets] in Hcfg. apply String.eqb_neq in Hcfg.
    destruct (applyDirective options s) as [next|next|e|] eqn:A; try discriminate.
    + destruct (IH _ _ H Hno) as [Hg Hh].
      destruct (applyDirective_frame _ _ _ k (or_introl A) Hcfg) as [Hg' Hh'].
      split; congruence.
    + destruct (IH _ _ H Hno) as [Hg Hh].
      destruct (applyDirective_frame _ _ _ k (or_intror A) Hcfg) as [Hg' Hh'].
      split; congruence.
Qed.

Lemma finish_applies (opts : props) (filenames : list string)
    (swcOptions : props) (cliOptions : CliOptions) :
  finish opts filenames = Return (swcOptions, cliOptions) ->
  applyDirectives (baseOptions opts) (directives opts) = Return swcOptions.
Proof.
  unfold finish, applyConfig, directives.
  destruct (check_workers opts (check_flags opts filenames)) as [e|[count errors]];
    cbn [lift bind]; [discriminate|].
  destruct errors; cbn [verifyArgsErrors bind]; [|discriminate].
  destruct (truthy (get opts "config")).
  - destruct (iterate (get opts "config")) as [e|cfgs]; cbn [lift bind];
      [discriminate|].
    destruct (applyDirectives (baseOptions opts) cfgs); cbn [bind]; try discriminate.
    intros H. now injection H as <- <-.
  - cbn [bind]. intros H. now injection H as <- <-.
Qed.

(** C8. The compiler options are assembled with a [sourceMaps] field
    exactly when the merged options define one, and then with that value;
    no default stands in for an absent value.  The options [parserArgs]
    returns keep it so, unless an override directive assigns under
    [sourceMaps] itself. *)
Theorem C8_source_maps_absence (opts : props) :
  has (baseOptions opts) "sourceMaps" = negb (is_undefined (get opts "sourceMaps"))
  /\ get (baseOptions opts) "sourceMaps" = get opts "sourceMaps"
  /\ forall filenames swcOptions cliOptions,
       finish opts filenames = Return (swcOptions, cliOptions) ->
       existsb (targets "sourceMaps") (directives opts) = false ->
       has swcOptions "sourceMaps" = negb (is_undefined (get opts "sourceMaps"))
       /\ get swcOptions "sourceMaps" = get opts "sourceMaps".
Proof.
  destruct (baseOptions_sourceMaps opts) as [Hh Hg].
  split; [exact Hh|]. split; [exact Hg|].
  intros filenames swcOptions cliOptions Hfin Hno.
  apply finish_applies in Hfin.
  destruct (applyDirectives_frame _ _ _ _ Hfin Hno) as [Hg' Hh'].
  split; congruence.
Qed.

(** Without [-s] the returned options have no [sourceMaps] field; with
    [-s inline] they have it, with that value. *)
Lemma C8_source_maps_absence_witness :
  (exists swcOptions cliOptions,
     finish (Commander.opts (parsed_program plain_args)) [] = Return (swcOptions, cliOptions)
     /\ has swcOptions "sourceMaps" = false)
  /\ (exists swcOptions cliOptions,
        finish (Commander.opts (parsed_program inline_args)) []
        = Return (swcOptions, cliOptions)
        /\ has swcOptions "sourceMaps" = true
        /\ get swcOptions "sourceMaps" = Str "inline").
Proof.
  split.
  - destruct (finish (Commander.opts (parsed_program plain_args)) [])
      as [[swcOptions cliOptions]| | | |] eqn:Hfin; try (vm_compute in Hfin; discriminate).
    exists swcOptions, cliOptions. split; [reflexivity|].
    destruct (C8_source_maps_absence (Commander.opts (parsed_program plain_args)))
      as [_ [_ Hkeep]].
    assert (existsb (targets "sourceMaps")
              (directives (Commander.opts (parsed_program plain_args))) = false) as Hno
      by (vm_compute; reflexivity).
    destruct (Hkeep [] swcOptions cliOptions Hfin Hno) as [Hh _].
    rewrite Hh. vm_compute; reflexivity.
  - destruct (finish (Commander.opts (parsed_program inline_args)) [])
      as [[swcOptions cliOptions]| | | |] eqn:Hfin; try (vm_compute in Hfin; discriminate).
    exists swcOptions, cliOptions. split; [reflexivity|].
    destruct (C8_source_maps_absence (Commander.opts (parsed_program inline_args)))
      as [_ [_ Hkeep]].
    assert (existsb (targets "sourceMaps")
              (directives (Commander.opts (parsed_program inline_args))) = false) as Hno
      by (vm_compute; reflexivity).
    destruct (Hkeep [] swcOptions cliOptions Hfin Hno) as [Hh Hg].
    rewrite Hh, Hg. split; vm_compute; reflexivity.
Defined.

End SourceMaps.

(* ===================================================================== *)
(** * Normalisation of the config file keys *)
(* ===================================================================== *)

Module Normalize.
Import JS Options Spec ObjFacts.

Lemma append_nil (s : string) : s ++ EmptyString = s.
Proof. induction s as [|c s IH]; simpl; [reflexivity | now rewrite IH]. Qed.




Lemma camelCaseKey_other (c : ascii) (rest : string) :
  Str.eqb_char c "-" = false ->
  camelCaseKey (String c rest) = String c (camelCaseKey rest).
Proof.
  intros H. destruct rest as [|d rest']; cbn [camelCaseKey].
  - reflexivity.
  - now rewrite H.
Qed.



Lemma last_get_app (a b : list (string * value)) (k : string) :
  last_get (a ++ b)%list k
  = match last_get b k with
    | Some v => Some v
    | None => last_get a k
    end.
Proof.
  induction a as [|[k0 v0] a IH]; cbn [app last_get].
  - destruct (last_get b k); reflexivity.
  - rewrite IH. destruct (last_get b k); reflexivity.
Qed.

Lemma last_get_none (entries : list (string * value)) (k : string) :
  existsb (fun kv => String.eqb (fst kv) k) entries = false ->
  last_get entries k = None.
Proof.
  induction entries as [|[k0 v0] entries IH]; cbn; [reflexivity|].
  intros H. apply orb_false_iff in H as [H0 H].
  now rewrite IH, H0.
Qed.


Lemma get_fromEntries_last (entries : list (string * value)) (k : string) :
  get (fromEntries entries) k
  = match last_get entries k with
    | Some v => v
    | None => Undefined
    end.
Proof. unfold fromEntries. now rewrite get_spread_last. Qed.

Lemma existsb_normalized (k : string) (entries : list (string * value)) :
  existsb (fun kv => String.eqb (fst kv) k)
    (map (fun kv => (camelCaseKey (fst kv), snd kv)) entries)
  = existsb (normalizes_to k) entries.
Proof.
  induction entries as [|[k0 v0] entries IH]; cbn; [reflexivity|].
  now rewrite IH.
Qed.

Lemma configFile_rawConfig (w : World) (path : value) :
  configFile w path
  = option_map (fun pairs => fromEntries (map (fun kv => (camelCaseKey (fst kv), snd kv)) pairs))
      (rawConfig w path).
Proof.
  unfold configFile, rawConfig.
  destruct path; try reflexivity.
  destruct (readFile w s); try reflexivity.
  destruct (JSON.parse s0); try reflexivity.
  destruct (entries v); reflexivity.
Qed.



End Normalize.

(* ===================================================================== *)
(** * [collect] *)
(* ===================================================================== *)

Module Collect.
Import JS Options Spec.

Lemma split_cons (sep : ascii) (s : string) :
  exists w ws, Str.split sep s = w :: ws.
Proof.
  induction s as [|c s [w [ws IH]]]; cbn; [now eauto|].
  destruct (Str.eqb_char c sep); [now eauto|]. rewrite IH. eauto.
Qed.

Lemma indexOf_cons_miss (c sep : ascii) (s : string) :
  Str.eqb_char c sep = false ->
  Str.indexOf s sep = (-1)%Z ->
  Str.indexOf (String c s) sep = (-1)%Z.
Proof. intros Hc Hs. cbn. rewrite Hc, Hs. reflexivity. Qed.

Lemma split_pieces (sep : ascii) (s : string) :
  Forall (fun piece => Str.indexOf piece sep = (-1)%Z) (Str.split sep s).
Proof.
  induction s as [|c s IH]; cbn.
  - repeat constructor.
  - destruct (Str.eqb_char c sep) eqn:Hc.
    + constructor; [reflexivity | exact IH].
    + destruct (Str.split sep s) as [|w ws].
      * repeat constructor. cbn. now rewrite Hc.
      * inversion IH as [|? ? Hw Hws]; subst.
        constructor; [now apply indexOf_cons_miss | exact Hws].
Qed.

Lemma join_split (sep : ascii) (s : string) :
  Str.join (String sep EmptyString) (Str.split sep s) = s.
Proof.
  induction s as [|c s IH]; cbn [Str.split]; [reflexivity|].
  destruct (split_cons sep s) as [w [ws Hs]]. rewrite Hs in *.
  destruct (Str.eqb_char c sep) eqn:Hc.
  - apply Ascii.eqb_eq in Hc. subst c.
    change (Str.join (String sep EmptyString) (EmptyString :: w :: ws))
      with (String sep (Str.join (String sep EmptyString) (w :: ws))).
    now rewrite IH.
  - destruct ws as [|w' ws].
    + cbn in *. now rewrite IH.
    + change (Str.join (String sep EmptyString) (String c w :: w' :: ws))
        with (String c (w ++ String sep (Str.join (String sep EmptyString) (w' :: ws)))).
      change (Str.join (String sep EmptyString) (w :: w' :: ws))
        with (w ++ String sep (Str.join (String sep EmptyString) (w' :: ws))) in IH.
      now rewrite IH.
Qed.

Lemma split_app (sep : ascii) (a b : string) :
  Str.split sep (a ++ String sep b) = (Str.split sep a ++ Str.split sep b)%list.
Proof.
  induction a as [|c a IH]; cbn.
  - unfold Str.eqb_char. now rewrite Ascii.eqb_refl.
  - destruct (Str.eqb_char c sep); rewrite IH; [reflexivity|].
    destruct (split_cons sep a) as [w [ws ->]]. reflexivity.
Qed.

(** X1. A value of a list flag is cut at its commas and put behind what the
    flag held before (or starts the list when the flag held nothing): there
    is at least one piece, no piece holds a comma, and the pieces joined by
    commas are the value again. *)
Theorem X1_collect_appends (text : string) (previous : list value) :
  exists pieces,
    collect (Str text) (Arr previous) = inr (Arr (previous ++ map Str pieces))
    /\ collect (Str text) Undefined = inr (Arr (map Str pieces))
    /\ pieces <> []
    /\ Forall no_comma pieces
    /\ Str.join "," pieces = text.
Proof.
  exists (Str.split "," text).
  split; [reflexivity|]. split; [reflexivity|].
  split.
  - destruct (split_cons "," text) as [w [ws ->]]. discriminate.
  - split; [apply split_pieces | apply join_split].
Qed.

(** X2. Giving a list flag twice is giving it once with the two values
    joined by a comma. *)
Theorem X2_collect_composes (a b : string) (previous : list value) :
  collect (Str (a ++ "," ++ b)) (Arr previous)
  = match collect (Str a) (Arr previous) with
    | inr held => collect (Str b) held
    | inl e => inl e
    end.
Proof.
  cbn [collect truthy concat].
  change (a ++ "," ++ b) with (a ++ String "," b).
  now rewrite split_app, map_app, app_assoc.
Qed.

End Collect.

(* ===================================================================== *)
(** * Keys of the CLI config file *)
(* ===================================================================== *)

Module Keys.
Import JS Options Spec ObjFacts Normalize.

Lemma camelCaseKey_length_bounded (n : nat) :
  forall key, String.length key <= n ->
              String.length (camelCaseKey key) <= String.length key.
Proof.
  induction n as [|n IH]; intros key Hn.
  - destruct key; [cbn; lia | cbn in Hn; lia].
  - destruct key as [|c [|d rest]]; [cbn; lia | cbn; lia |].
    change (camelCaseKey (String c (String d rest)))
      with (if Str.eqb_char c "-" && (Str.eqb_char d "-" || Str.is_lower d)
            then String (Str.toUpperCase1 d) (camelCaseKey rest)
            else String c (camelCaseKey (String d rest))).
    destruct (Str.eqb_char c "-" && (Str.eqb_char d "-" || Str.is_lower d)).
    + cbn [String.length] in *. specialize (IH rest ltac:(lia)). lia.
    + specialize (IH (String d rest) ltac:(cbn [String.length] in *; lia)).
      cbn [String.length] in *. lia.
Qed.

Lemma no_hyphen_cons (c : ascii) (rest : string) :
  no_hyphen (String c rest) -> Str.eqb_char c "-" = false /\ no_hyphen rest.
Proof.
  unfold no_hyphen. cbn [Str.indexOf].
  destruct (Str.eqb_char c "-"); [discriminate|].
  destruct (Str.indexOf rest "-" <? 0)%Z eqn:Hlt; intros H.
  - split; [reflexivity|]. apply Z.ltb_lt in Hlt.
    assert (Hge : forall s ch, (-1 <= Str.indexOf s ch)%Z).
    { induction s as [|x s IHs]; intros ch; cbn; [lia|].
      destruct (Str.eqb_char x ch); [lia|].
      destruct (Str.indexOf s ch <? 0)%Z eqn:E; [lia|].
      apply Z.ltb_ge in E. lia. }
    specialize (Hge rest "-"%char). lia.
  - apply Z.ltb_ge in Hlt. lia.
Qed.

(** X3. The key conversion never makes a key longer, and a key without a
    hyphen (a key already in camel case) is left as it is. *)
Theorem X3_camelCaseKey_plain (key : string) :
  String.length (camelCaseKey key) <= String.length key
  /\ (no_hyphen key -> camelCaseKey key = key).
Proof.
  split; [now apply (camelCaseKey_length_bounded (String.length key))|].
  induction key as [|c rest IH]; [reflexivity|]. intros H.
  apply no_hyphen_cons in H. destruct H as [Hc Hrest].
  rewrite camelCaseKey_other by exact Hc. now rewrite IH.
Qed.

Lemma X3_camelCaseKey_plain_witness :
  no_hyphen "sourceMaps" /\ camelCaseKey "sourceMaps" = "sourceMaps".
Proof.
  split; [reflexivity|].
  apply (proj2 (X3_camelCaseKey_plain "sourceMaps")). reflexivity.
Defined.

(** X4. An entry of the CLI config file is read under its converted key,
    unless a later entry of the file converts to the same key: of two
    entries for one option the later one counts. *)
Theorem X4_later_entry_wins
    (w : World) (path : value) (before after : list (string * value))
    (key : string) (v : value) :
  rawConfig w path = Some (before ++ (key, v) :: after)%list ->
  existsb (normalizes_to (camelCaseKey key)) after = false ->
  exists cfg,
    configFile w path = Some cfg
    /\ has cfg (camelCaseKey key) = true
    /\ get cfg (camelCaseKey key) = v.
Proof.
  intros Hraw Hafter. rewrite configFile_rawConfig, Hraw. cbn [option_map].
  eexists. split; [reflexivity|].
  rewrite has_fromEntries, get_fromEntries_last, map_app. cbn [map fst snd].
  split.
  - clear. induction before as [|[k' v'] before IH]; cbn.
    + now rewrite String.eqb_refl.
    + rewrite IH. apply orb_true_r.
  - rewrite last_get_app. cbn [last_get].
    rewrite last_get_none by (now rewrite existsb_normalized).
    now rewrite String.eqb_refl.
Qed.

Lemma X4_later_entry_wins_witness :
  exists cfg,
    configFile (disk [("cfg.json", "{" ++ in_quotes "out-dir" ++ ": 1, "
                                      ++ in_quotes "outDir" ++ ": 2}")])
      (Str "cfg.json") = Some cfg
    /\ has cfg "outDir" = true
    /\ get cfg "outDir" = Num (Number.of_Z 2).
Proof.
  apply (X4_later_entry_wins _ _ [("out-dir", Num (Number.of_Z 1))] [] "outDir");
    vm_compute; reflexivity.
Defined.

End Keys.

(* ===================================================================== *)
(** * The checks, taken together *)
(* ===================================================================== *)

Module Checks.
Import JS Options Spec.

(** The six tests the checks on flags and operands read. *)
Ltac by_tests opts filenames :=
  unfold check_flags, no_filenames;
  destruct (truthy (get opts "outDir")), (truthy (get opts "outFile")),
           (truthy (get opts "watch")), filenames as [|filename filenames],
           (is_string (get opts "filename")), (is_not_false (get opts "swcrc"));
  cbn.

Lemma check_flags_ordered (opts : props) (filenames : list string) :
  subsequence (check_flags opts filenames) flag_messages = true.
Proof. by_tests opts filenames; reflexivity. Qed.

(** X5. The errors come in a fixed order, each at most once: those of the
    checks on flags and operands in the order of the source, then the one on
    the worker count, if any. *)
Theorem X5_errors_ordered
    (opts : props) (filenames : list string) (workers : value) (errors : list string) :
  check_workers opts (check_flags opts filenames) = inr (workers, errors) ->
  exists flags tail,
    errors = (flags ++ tail)%list
    /\ subsequence flags flag_messages = true
    /\ (tail = [] \/ exists raw, tail = [msg_workers raw]).
Proof.
  intros H. exists (check_flags opts filenames).
  unfold check_workers in H.
  destruct (negb (is_nullish (get opts "workers"))).
  - destruct (parseFloat (get opts "workers")) as [e|n]; [discriminate H|].
    destruct (negb (Number.isInteger n) || Number.lt_zero n).
    + destruct (ToString (get opts "workers")) as [e|raw]; [discriminate H|].
      injection H as _ <-. exists [msg_workers raw].
      split; [reflexivity|]. split; [apply check_flags_ordered | eauto].
    + injection H as _ <-. exists [].
      split; [now rewrite app_nil_r|]. split; [apply check_flags_ordered | now left].
  - injection H as _ <-. exists [].
    split; [now rewrite app_nil_r|]. split; [apply check_flags_ordered | now left].
Qed.

Lemma X5_errors_ordered_witness :
  exists flags tail,
    [msg_out_dir_filenames; msg_watch_filenames; msg_workers "-1"] = (flags ++ tail)%list
    /\ subsequence flags flag_messages = true
    /\ (tail = [] \/ exists raw, tail = [msg_workers raw]).
Proof.
  apply (X5_errors_ordered
           [("outDir", Str "lib"); ("watch", Bool true); ("workers", Str "-1")] []
           (Num (Lex.parseFloat_string "-1"))).
  vm_compute. reflexivity.
Defined.

(** X6. The checks on flags and operands never raise more than three
    errors: the stdin message never comes with the one that an output
    directory needs input files, and the message that [--watch] needs an
    output never comes with the one that two outputs were given. *)
Theorem X6_errors_exclusive (opts : props) (filenames : list string) :
  List.length (check_flags opts filenames) <= 3
  /\ ~ (In msg_stdin (check_flags opts filenames)
        /\ In msg_out_dir_filenames (check_flags opts filenames))
  /\ ~ (In msg_watch_output (check_flags opts filenames)
        /\ In msg_out_file_out_dir (check_flags opts filenames)).
Proof.
  by_tests opts filenames;
    (split; [lia|]); split; intros [H1 H2]; cbn in H1, H2;
    repeat match goal with
           | H : _ \/ _ |- _ => destruct H as [H|H]
           | H : False |- _ => contradiction
           | H : _ = _ |- _ => discriminate H
           end.
Qed.

(** X7. With at least one input file there are only two things the checks
    on flags can object to: both outputs given, and [--watch] without an
    output. *)
Theorem X7_errors_with_inputs (opts : props) (filenames : list string) :
  filenames <> [] ->
  incl (check_flags opts filenames) [msg_out_file_out_dir; msg_watch_output]
  /\ List.length (check_flags opts filenames) <= 1.
Proof.
  intros Hne. destruct filenames as [|filename filenames]; [contradiction|]. clear Hne.
  unfold check_flags, no_filenames.
  destruct (truthy (get opts "outDir")), (truthy (get opts "outFile")),
           (truthy (get opts "watch")); cbn;
    (split; [|lia]); intros e He; cbn in He |- *; tauto.
Qed.

Lemma X7_errors_with_inputs_witness :
  incl (check_flags [("watch", Bool true)] ["a.js"])
    [msg_out_file_out_dir; msg_watch_output]
  /\ List.length (check_flags [("watch", Bool true)] ["a.js"]) <= 1.
Proof. apply X7_errors_with_inputs. discriminate. Defined.

(** X27. A worker count that is a boolean, as [--workers] without a value
    leaves it, is refused, and the message shows the boolean. *)
Theorem X27_workers_boolean (opts : props) (before : list string) (b : bool) :
  get opts "workers" = Bool b ->
  check_workers opts before
  = inr (Num Number.NaN,
         push before ("--workers must be a positive integer (found "
                      ++ (if b then "true" else "false") ++ ")")).
Proof.
  intros H. unfold check_workers. rewrite H. destruct b; vm_compute; reflexivity.
Qed.

Lemma X27_workers_boolean_witness :
  parserArgs (disk []) (argv ["a.js"; "--workers"])
  = Exit ["swc:"; "  --workers must be a positive integer (found true)"] 2.
Proof.
  rewrite (Validation.parserArgs_parsed _ _ (parsed_program (argv ["a.js"; "--workers"])))
    by (apply Merge.parses_parsed; vm_compute; reflexivity).
  rewrite (Validation.parserArgsFrom_resolved _ _
             (Commander.opts (parsed_program (argv ["a.js"; "--workers"]))))
    by (vm_compute; reflexivity).
  assert (Commander.args (parsed_program (argv ["a.js"; "--workers"])) = ["a.js"]) as ->
    by (vm_compute; reflexivity).
  rewrite (Validation.finish_exit _ _ (Num Number.NaN)
             ["--workers must be a positive integer (found true)"]);
    [reflexivity | | discriminate].
  assert (check_flags (Commander.opts (parsed_program (argv ["a.js"; "--workers"])))
            ["a.js"] = []) as -> by (vm_compute; reflexivity).
  apply (X27_workers_boolean _ [] true). vm_compute. reflexivity.
Defined.

End Checks.

(* ===================================================================== *)
(** * How [parserArgs] ends *)
(* ===================================================================== *)

Module Outcome.
Import JS Options Spec ObjFacts Validation.

Lemma applyDirectives_no_exit (cfgs : list value) :
  forall swcOptions lines code, applyDirectives swcOptions cfgs <> Exit lines code.
Proof.
  induction cfgs as [|cfg cfgs IH]; intros swcOptions lines code; cbn; [discriminate|].
  destruct cfg; try discriminate.
  destruct (applyDirective swcOptions s); [apply IH | apply IH | discriminate | discriminate].
Qed.

Lemma applyConfig_no_exit (opts swcOptions : props) (lines : list string) (code : Z) :
  applyConfig opts swcOptions <> Exit lines code.
Proof.
  unfold applyConfig. destruct (truthy (get opts "config")); [|discriminate].
  destruct (iterate (get opts "config")) as [e|cfgs]; cbn; [discriminate|].
  apply applyDirectives_no_exit.
Qed.

Lemma resolveOpts_cases (w : World) (program : Commander.Command) :
  (exists opts, resolveOpts w program = Return (Some opts))
  \/ (exists e, loadCLIConfigFile w program (Commander.opts program)
                  (get (Commander.opts program) "cliConfigFile") = inl e
                /\ resolveOpts w program = Exit (report [message e]) 2).
Proof.
  unfold resolveOpts.
  destruct (truthy (get (Commander.opts program) "cliConfigFile")); [|eauto].
  destruct (loadCLIConfigFile w program (Commander.opts program)
              (get (Commander.opts program) "cliConfigFile")) as [e|opts]; [|eauto].
  right. exists e. split; reflexivity.
Qed.

Lemma finish_exit_shape (opts : props) (filenames : list string)
    (lines : list string) (code : Z) :
  finish opts filenames = Exit lines code ->
  code = 2%Z /\ exists errors, errors <> [] /\ lines = report errors.
Proof.
  unfold finish.
  destruct (check_workers opts (check_flags opts filenames)) as [e|[workers errors]];
    cbn [lift bind]; [discriminate|].
  destruct errors as [|error errors]; cbn [verifyArgsErrors bind].
  - destruct (applyConfig opts (baseOptions opts)) eqn:Happly; cbn [bind];
      try discriminate.
    now apply applyConfig_no_exit in Happly.
  - intros H. injection H as <- <-. split; [reflexivity|].
    exists (error :: errors). split; [discriminate | reflexivity].
Qed.

Lemma finish_return (opts : props) (filenames : list string)
    (swcOptions : props) (cliOptions : CliOptions) :
  finish opts filenames = Return (swcOptions, cliOptions) ->
  exists workers,
    check_workers opts (check_flags opts filenames) = inr (workers, [])
    /\ cliOptions = cliOptionsOf opts filenames workers.
Proof.
  unfold finish.
  destruct (check_workers opts (check_flags opts filenames)) as [e|[workers errors]];
    cbn [lift bind]; [discriminate|].
  destruct errors as [|error errors]; cbn [verifyArgsErrors bind]; [|discriminate].
  destruct (applyConfig opts (baseOptions opts)); cbn [bind]; try discriminate.
  intros H. injection H as _ <-. eauto.
Qed.

(** X8. [parserArgs] never returns [undefined]: whenever it returns, it
    returns the pair of the compiler options and the CLI options.  The
    [return] after the report of a config file that failed to load is not
    reached, the report ends the process. *)
Theorem X8_never_undefined
    (w : World) (args : list string) (result : option (props * CliOptions)) :
  parserArgs w args = Return result ->
  exists swcOptions cliOptions, result = Some (swcOptions, cliOptions).
Proof.
  unfold parserArgs.
  destruct (Commander.parse initProgram args) as [program|code|e];
    [|discriminate|discriminate].
  unfold parserArgsFrom.
  destruct (resolveOpts_cases w program) as [[opts ->]|[e [_ ->]]]; cbn [bind].
  - destruct (finish opts (Commander.args program)) as [[swc cli]| | | |];
      cbn [bind]; try discriminate.
    intros H. injection H as <-. eauto.
  - discriminate.
Qed.

Lemma X8_never_undefined_witness :
  exists swcOptions cliOptions,
    parserArgs (disk []) (argv ["a.js"]) = Return (Some (swcOptions, cliOptions)).
Proof.
  destruct (parserArgs (disk []) (argv ["a.js"])) as [result| | | |] eqn:Hrun;
    try (vm_compute in Hrun; discriminate Hrun).
  destruct (X8_never_undefined _ _ _ Hrun) as [swcOptions [cliOptions ->]].
  now exists swcOptions, cliOptions.
Defined.

(** X9. When [parserArgs] ends the process itself, the status is 2 and the
    error stream holds the banner [swc:] followed by at least one error,
    each on a line of its own behind two spaces. *)
Theorem X9_exit_report
    (w : World) (args : list string) (lines : list string) (code : Z) :
  parserArgs w args = Exit lines code ->
  code = 2%Z
  /\ exists errors,
       errors <> []
       /\ lines = "swc:" :: map (fun error => "  " ++ error) errors.
Proof.
  unfold parserArgs.
  destruct (Commander.parse initProgram args) as [program|code'|e];
    [|discriminate|discriminate].
  unfold parserArgsFrom.
  destruct (resolveOpts_cases w program) as [[opts ->]|[e [_ ->]]]; cbn [bind].
  - destruct (finish opts (Commander.args program)) eqn:Hfinish; cbn [bind];
      try discriminate.
    intros H. injection H as <- <-. now apply finish_exit_shape in Hfinish.
  - intros H. injection H as <- <-. split; [reflexivity|].
    exists [message e]. split; [discriminate | reflexivity].
Qed.

Lemma X9_exit_report_witness :
  exists errors,
    errors <> []
    /\ [ "swc:"; "  --out-dir requires filenames";
         "  --out-file and --out-dir cannot be used together";
         "  --watch requires filenames" ]
       = "swc:" :: map (fun error => "  " ++ error) errors.
Proof.
  apply (X9_exit_report (disk []) watch_args _ 2%Z). vm_compute. reflexivity.
Defined.

Lemma check_workers_passed (opts : props) (before : list string) (workers : value) :
  check_workers opts before = inr (workers, []) ->
  before = [] /\ natural_or_absent workers.
Proof.
  unfold check_workers, natural_or_absent.
  destruct (negb (is_nullish (get opts "workers"))).
  - destruct (parseFloat (get opts "workers")) as [e|n]; [discriminate|].
    destruct (negb (Number.isInteger n) || Number.lt_zero n) eqn:Hn.
    + destruct (ToString (get opts "workers")) as [e|raw]; [discriminate|].
      intros H. injection H as _ H. unfold push in H.
      now destruct before.
    + intros H. injection H as <- ->. split; [reflexivity|]. right.
      destruct (accepted_integer n Hn) as [z [Hz Hpos]]. eauto.
  - intros H. injection H as <- ->. split; [reflexivity | now left].
Qed.

Lemma not_violated (opts : props) (filenames : list string) (r : rule) :
  check_flags opts filenames = [] ->
  r <> WorkersInvalid ->
  violated r opts filenames = false.
Proof.
  intros Hnone Hr. destruct (violated r opts filenames) eqn:Hv; [|reflexivity].
  apply (check_flags_reports opts filenames r Hr) in Hv.
  rewrite Hnone in Hv. contradiction.
Qed.

(** X10. What [parserArgs] returns has passed the checks: the input files
    are the operands of the command line; an output directory comes with
    input files; the two outputs do not come together; [watch] comes with
    input files and an output; the worker count is left out or a
    non-negative integer. *)
Theorem X10_returned_options
    (w : World) (args : list string) (swcOptions : props) (cliOptions : CliOptions) :
  parserArgs w args = Return (Some (swcOptions, cliOptions)) ->
  (exists program,
     Commander.parse initProgram args = Commander.Parsed program
     /\ filenames cliOptions = Commander.args program)
  /\ (truthy (outDir cliOptions) = true -> filenames cliOptions <> [])
  /\ (truthy (outFile cliOptions) = true -> truthy (outDir cliOptions) = false)
  /\ (watch cliOptions = true ->
      filenames cliOptions <> []
      /\ truthy (outFile cliOptions) || truthy (outDir cliOptions) = true)
  /\ natural_or_absent (workers cliOptions).
Proof.
  unfold parserArgs.
  destruct (Commander.parse initProgram args) as [program|code|e];
    [|discriminate|discriminate].
  unfold parserArgsFrom.
  destruct (resolveOpts_cases w program) as [[opts ->]|[e [_ ->]]]; cbn [bind];
    [|discriminate].
  destruct (finish opts (Commander.args program)) as [[swc cli]| | | |] eqn:Hfinish;
    cbn [bind]; try discriminate.
  intros H. injection H as -> ->.
  apply finish_return in Hfinish. destruct Hfinish as [count [Hcheck ->]].
  apply check_workers_passed in Hcheck. destruct Hcheck as [Hflags Hcount].
  pose proof (not_violated _ _ OutDirRequiresFilenames Hflags ltac:(discriminate)) as H1.
  pose proof (not_violated _ _ OutFileExcludesOutDir Hflags ltac:(discriminate)) as H2.
  pose proof (not_violated _ _ WatchRequiresOutput Hflags ltac:(discriminate)) as H3.
  pose proof (not_violated _ _ WatchRequiresFilenames Hflags ltac:(discriminate)) as H4.
  clear Hflags. cbn [violated] in H1, H2, H3, H4. unfold given, no_inputs in *.
  cbn [cliOptionsOf filenames outDir outFile watch workers].
  split; [now exists program|].
  destruct (truthy (get opts "outDir")), (truthy (get opts "outFile")),
           (truthy (get opts "watch")), (Commander.args program);
    cbn in H1, H2, H3, H4; try discriminate;
    (split; [intros; try discriminate; try reflexivity|]);
    (split; [intros; try discriminate; try reflexivity|]);
    (split; [|exact Hcount]); intros; try discriminate;
    (split; [discriminate | reflexivity]).
Qed.

Lemma X10_returned_options_witness :
  exists swcOptions cliOptions,
    parserArgs (disk []) (argv ["a.js"; "-d"; "lib"; "--workers"; "4"])
    = Return (Some (swcOptions, cliOptions))
    /\ filenames cliOptions = ["a.js"]
    /\ (truthy (outDir cliOptions) = true -> filenames cliOptions <> [])
    /\ natural_or_absent (workers cliOptions).
Proof.
  destruct (parserArgs (disk []) (argv ["a.js"; "-d"; "lib"; "--workers"; "4"]))
    as [[[swcOptions cliOptions]|]| | | |] eqn:Hrun;
    try (vm_compute in Hrun; discriminate Hrun).
  exists swcOptions, cliOptions.
  destruct (X10_returned_options _ _ _ _ Hrun) as [_ [Hdir [_ [_ Hcount]]]].
  split; [reflexivity|].
  split; [vm_compute in Hrun; injection Hrun as _ <-; reflexivity|].
  split; [exact Hdir | exact Hcount].
Defined.

(** X11. The result depends on the merged options only through the ones
    the source reads: options that agree on those give the same result.
    [envName] and [logWatchCompilation] are not among them. *)
Theorem X11_options_read (opts opts' : props) (filenames : list string) :
  (forall k, In k read_keys -> get opts k = get opts' k) ->
  finish opts filenames = finish opts' filenames.
Proof.
  intros H.
  unfold finish, check_flags, check_workers, baseOptions, applyConfig, cliOptionsOf.
  repeat match goal with
         | |- context [get opts ?k] =>
             rewrite (H k) by (cbn; repeat (first [left; reflexivity | right]))
         end.
  reflexivity.
Qed.

Lemma X11_options_read_witness :
  finish [("envName", Str "test"); ("logWatchCompilation", Bool false)] ["a.js"]
  = finish [] ["a.js"].
Proof.
  apply X11_options_read. intros k Hk.
  cbn in Hk.
  repeat match goal with
         | H : _ \/ _ |- _ => destruct H as [H|H]
         end; try contradiction; subst k; reflexivity.
Defined.

End Outcome.

(* ===================================================================== *)
(** * Loading the CLI config file *)
(* ===================================================================== *)

Module Load.
Import JS Options Spec ObjFacts Merge.

Lemma load_failure (w : World) (program : Commander.Command) (e : exn) :
  truthy (get (Commander.opts program) "cliConfigFile") = true ->
  loadCLIConfigFile w program (Commander.opts program)
    (get (Commander.opts program) "cliConfigFile") = inl e ->
  parserArgsFrom w program = Exit ["swc:"; "  " ++ message e] 2.
Proof.
  intros Hfile Hload. unfold parserArgsFrom, resolveOpts.
  rewrite Hfile, Hload. reflexivity.
Qed.

Lemma truthy_path (path : string) :
  path <> EmptyString -> truthy (Str path) = true.
Proof. destruct path; [contradiction | reflexivity]. Qed.

(** X12. A CLI config file that cannot be read ends [parserArgs] with
    status 2 and the one error that names the path; the checks on the
    options are not reached. *)
Theorem X12_config_unreadable
    (w : World) (program : Commander.Command) (path : string) :
  get (Commander.opts program) "cliConfigFile" = Str path ->
  path <> EmptyString ->
  readFile w path = None ->
  parserArgsFrom w program
  = Exit ["swc:"; "  Cannot read CLI config file " ++ in_quotes path ++ "."] 2.
Proof.
  intros Hpath Hne Hread.
  apply (load_failure w program
           (Error ("Cannot read CLI config file " ++ in_quotes path ++ "."))).
  - rewrite Hpath. now apply truthy_path.
  - rewrite Hpath. unfold loadCLIConfigFile. rewrite Hread. reflexivity.
Qed.

Lemma X12_config_unreadable_witness :
  parserArgs (disk []) (argv ["--watch"; "--cli-config-file"; "nope.json"])
  = Exit ["swc:"; "  Cannot read CLI config file " ++ in_quotes "nope.json" ++ "."] 2.
Proof.
  rewrite (Validation.parserArgs_parsed _ _
             (parsed_program (argv ["--watch"; "--cli-config-file"; "nope.json"])))
    by (apply parses_parsed; vm_compute; reflexivity).
  apply X12_config_unreadable;
    [vm_compute; reflexivity | discriminate | reflexivity].
Defined.

(** X13. A CLI config file that is no JSON text ends [parserArgs] with
    status 2 and the one error that says so. *)
Theorem X13_config_ill_formed
    (w : World) (program : Commander.Command) (path contents : string) (e : exn) :
  get (Commander.opts program) "cliConfigFile" = Str path ->
  path <> EmptyString ->
  readFile w path = Some contents ->
  JSON.parse contents = inl e ->
  parserArgsFrom w program
  = Exit ["swc:"; "  CLI config file " ++ in_quotes path
                    ++ " is not a well-formed JSON file."] 2.
Proof.
  intros Hpath Hne Hread Hparse.
  apply (load_failure w program
           (Error ("CLI config file " ++ in_quotes path
                   ++ " is not a well-formed JSON file."))).
  - rewrite Hpath. now apply truthy_path.
  - rewrite Hpath. unfold loadCLIConfigFile. rewrite Hread, Hparse. reflexivity.
Qed.

Lemma X13_config_ill_formed_witness :
  parserArgs (disk [("bad.json", "{out-dir: lib}")])
    (argv ["a.js"; "--cli-config-file"; "bad.json"])
  = Exit ["swc:"; "  CLI config file " ++ in_quotes "bad.json"
                    ++ " is not a well-formed JSON file."] 2.
Proof.
  rewrite (Validation.parserArgs_parsed _ _
             (parsed_program (argv ["a.js"; "--cli-config-file"; "bad.json"])))
    by (apply parses_parsed; vm_compute; reflexivity).
  apply (X13_config_ill_formed _ _ "bad.json" "{out-dir: lib}"
           (SyntaxError "Unexpected token in JSON"));
    [vm_compute; reflexivity | discriminate | reflexivity | vm_compute; reflexivity].
Defined.

(** X14. A CLI config file that holds the JSON text [null] is well-formed,
    and yet ends [parserArgs] with status 2: listing its entries throws, and
    the message of that exception is what is reported. *)
Theorem X14_config_null
    (w : World) (program : Commander.Command) (path contents : string) :
  get (Commander.opts program) "cliConfigFile" = Str path ->
  path <> EmptyString ->
  readFile w path = Some contents ->
  JSON.parse contents = inr Null ->
  parserArgsFrom w program
  = Exit ["swc:"; "  Cannot convert undefined or null to object"] 2.
Proof.
  intros Hpath Hne Hread Hparse.
  apply (load_failure w program
           (TypeError "Cannot convert undefined or null to object")).
  - rewrite Hpath. now apply truthy_path.
  - rewrite Hpath. unfold loadCLIConfigFile. rewrite Hread, Hparse. reflexivity.
Qed.

Lemma X14_config_null_witness :
  parserArgs (disk [("cfg.json", " null ")])
    (argv ["a.js"; "--cli-config-file"; "cfg.json"])
  = Exit ["swc:"; "  Cannot convert undefined or null to object"] 2.
Proof.
  rewrite (Validation.parserArgs_parsed _ _
             (parsed_program (argv ["a.js"; "--cli-config-file"; "cfg.json"])))
    by (apply parses_parsed; vm_compute; reflexivity).
  apply (X14_config_null _ _ "cfg.json" " null ");
    [vm_compute; reflexivity | discriminate | reflexivity | vm_compute; reflexivity].
Defined.

Lemma has_split (P : string * value -> bool) (o : props) (k : string) :
  (forall v v', P (k, v) = P (k, v')) ->
  has (filter P o) k || has (filter (fun pair => negb (P pair)) o) k = has o k.
Proof.
  intros HP. rewrite has_filter by exact HP.
  rewrite has_filter by (intros v v'; now rewrite (HP v v')).
  destruct (has o k), (P (k, get o k)); reflexivity.
Qed.

(** X15. The merge drops no key and invents none: the merged options have a
    key exactly when the command line's options or the file have it. *)
Theorem X15_merged_keys
    (w : World) (program : Commander.Command) (opts : props) (path : value)
    (merged : props) :
  loadCLIConfigFile w program opts path = inr merged ->
  exists cfg,
    configFile w path = Some cfg
    /\ forall k, has merged k = has opts k || has cfg k.
Proof.
  intros Hload.
  destruct (loadCLIConfigFile_merged _ _ _ _ _ Hload) as [cfg [Hcfg ->]].
  exists cfg. split; [exact Hcfg|]. intros k.
  rewrite !has_spread, !has_fromEntries. cbn [has orb].
  rewrite <- (has_split (is_default program) opts k (is_default_key program k)).
  destruct (has (filter (is_default program) opts) k), (has cfg k),
           (has (filter (fun pair => negb (is_default program pair)) opts) k);
    reflexivity.
Qed.

Lemma X15_merged_keys_witness :
  has merge_result "outDir" = true
  /\ has merge_result "sourceMaps" = true
  /\ has merge_result "watch" = false.
Proof.
  destruct (X15_merged_keys merge_world (parsed_program merge_args)
              (Commander.opts (parsed_program merge_args)) (Str "cfg.json") merge_result
              ltac:(vm_compute; reflexivity)) as [cfg [Hcfg Hkeys]].
  assert (cfg = [("outDir", Str "dist"); ("sourceMaps", Bool true)]) as ->
    by (vm_compute in Hcfg; now injection Hcfg).
  rewrite !Hkeys. repeat split; vm_compute; reflexivity.
Defined.

(** X16. A CLI config file that holds a JSON number or boolean is taken
    without complaint and changes no option. *)
Theorem X16_config_scalar
    (w : World) (program : Commander.Command) (opts : props)
    (path contents : string) (scalar : value) :
  unique opts ->
  readFile w path = Some contents ->
  JSON.parse contents = inr scalar ->
  (exists b, scalar = Bool b) \/ (exists n, scalar = Num n) ->
  exists merged,
    loadCLIConfigFile w program opts (Str path) = inr merged
    /\ forall k, get merged k = get opts k.
Proof.
  intros Hu Hread Hparse Hscalar.
  assert (entries scalar = inr []) as Hentries
    by (destruct Hscalar as [[b ->]|[n ->]]; reflexivity).
  destruct (loadCLIConfigFile w program opts (Str path)) as [e|merged] eqn:Hload.
  - unfold loadCLIConfigFile in Hload.
    rewrite Hread, Hparse, Hentries in Hload. discriminate Hload.
  - exists merged. split; [reflexivity|].
    destruct (merged_three_way _ _ _ _ _ Hu Hload) as [cfg [Hcfg Hk]].
    unfold configFile in Hcfg. rewrite Hread, Hparse, Hentries in Hcfg.
    injection Hcfg as <-. intros k. rewrite Hk. unfold three_way.
    cbn [map fromEntries spread fold_left has].
    now destruct (explicit program opts k).
Qed.

Lemma X16_config_scalar_witness :
  exists merged,
    loadCLIConfigFile (disk [("cfg.json", "true")]) (parsed_program file_args)
      (Commander.opts (parsed_program file_args)) (Str "cfg.json") = inr merged
    /\ forall k, get merged k = get (Commander.opts (parsed_program file_args)) k.
Proof.
  apply (X16_config_scalar _ _ _ "cfg.json" "true" (Bool true)).
  - apply ObjFacts.distinct_unique. vm_compute. reflexivity.
  - reflexivity.
  - vm_compute. reflexivity.
  - left. now exists true.
Defined.

(** X30. The one file [parserArgs] reads is the one [--cli-config-file]
    names: two file systems that agree on that path give the same outcome,
    and without the option the file system plays no part. *)
Theorem X30_one_file_read
    (w w' : World) (program : Commander.Command) :
  (forall path, get (Commander.opts program) "cliConfigFile" = Str path ->
                readFile w path = readFile w' path) ->
  parserArgsFrom w program = parserArgsFrom w' program.
Proof.
  intros Hsame. unfold parserArgsFrom, resolveOpts.
  destruct (truthy (get (Commander.opts program) "cliConfigFile")); [|reflexivity].
  assert (loadCLIConfigFile w program (Commander.opts program)
            (get (Commander.opts program) "cliConfigFile")
          = loadCLIConfigFile w' program (Commander.opts program)
              (get (Commander.opts program) "cliConfigFile")) as ->; [|reflexivity].
  unfold loadCLIConfigFile.
  destruct (get (Commander.opts program) "cliConfigFile") as [| | | |path| | |];
    try reflexivity.
  now rewrite (Hsame path eq_refl).
Qed.

Lemma X30_one_file_read_witness :
  parserArgsFrom (disk [("other.json", "{}")]) (parsed_program merge_args)
  = parserArgsFrom (disk []) (parsed_program merge_args).
Proof.
  apply X30_one_file_read. intros path Hpath.
  assert (get (Commander.opts (parsed_program merge_args)) "cliConfigFile"
          = Str "cfg.json") as Hfile by (vm_compute; reflexivity).
  rewrite Hfile in Hpath. injection Hpath as <-. reflexivity.
Defined.

End Load.

(* ===================================================================== *)
(** * What a [-C] directive leaves behind *)
(* ===================================================================== *)

Module Directives.
Import JS Options Spec ObjFacts Walk SourceMaps.

Lemma created_Assigned (t : value) (k : string) (rest : list string) (v : value)
    (t' : value) :
  create t k (store (Obj []) rest v) = Assigned t' ->
  exists t0 c,
    setProperty t k (Obj []) = Assigned t0
    /\ store (Obj []) rest v = Assigned c
    /\ t' = put t0 k c.
Proof.
  unfold create.
  destruct (setProperty t k (Obj [])) as [t0| | |]; try discriminate.
  destruct (store (Obj []) rest v) as [c| | |]; cbn [back]; try discriminate.
  intros H. injection H as <-. eauto.
Qed.

Lemma store_lookup (keyParts : list string) :
  forall (t : value) (v : value) (t' : value),
    keyParts <> [] ->
    store t keyParts v = Assigned t' ->
    descend t' keyParts = v.
Proof.
  induction keyParts as [|k rest IH]; intros t v t' Hne H; [contradiction|].
  destruct rest as [|next deeper].
  - rewrite store_last in H. cbn [descend].
    destruct (getProperty t k); try discriminate H;
      now destruct (write_slot _ _ _ _ H) as [_ [_ [_ [Hp _]]]].
  - rewrite store_step in H.
    assert (forall c, descend c (next :: deeper) = v ->
                      forall u, property u k = c ->
                                descend u (k :: next :: deeper) = v) as Hdown.
    { intros c Hc u Hu. cbn [descend] in Hc |- *. now rewrite Hu. }
    assert (create t k (store (Obj []) (next :: deeper) v) = Assigned t' ->
            descend t' (k :: next :: deeper) = v) as Hcreated.
    { intros Hc. apply created_Assigned in Hc.
      destruct Hc as [t0 [c [Hw [Hs ->]]]].
      apply (Hdown c).
      - apply (IH _ _ _ ltac:(discriminate) Hs).
      - apply property_put. now destruct (write_slot _ _ _ _ Hw) as [Hslot _]. }
    destruct (getProperty t k) as [child| | | |e] eqn:Hr; try discriminate H.
    + destruct (is_undefined child); [now apply Hcreated|].
      destruct (store child (next :: deeper) v) as [c| | |] eqn:Hs;
        cbn [back] in H; try discriminate H.
      injection H as <-.
      apply (Hdown c).
      * apply (IH _ _ _ ltac:(discriminate) Hs).
      * apply property_put. apply (read_slot _ _ _ Hr).
        apply (store_container (next :: deeper) child v c ltac:(discriminate) Hs).
    + now apply Hcreated.
    + destruct deeper; [|discriminate H].
      unfold writeMethod in H.
      destruct (String.eqb next "name" || String.eqb next "length");
        [discriminate H|].
      destruct (String.eqb next "caller" || String.eqb next "arguments"
                || String.eqb next "__proto__"); discriminate H.
Qed.

Lemma assign_lookup (keyParts : list string) :
  forall (options : props) (v : value) (options' : props),
    keyParts <> [] ->
    assign options keyParts v = Assigned options' ->
    lookup options' keyParts = v.
Proof.
  destruct keyParts as [|k rest]; intros options v options' Hne H; [contradiction|].
  apply assign_Assigned in H. unfold lookup.
  now apply (store_lookup (k :: rest) (Obj options) v).
Qed.

(** X17. What a directive assigns can be read back: following the path of
    the directive in the resulting options leads to its value. *)
Theorem X17_directive_read_back (options options' : props) (cfg : string) :
  applyDirective options cfg = Assigned options' ->
  lookup options' (Str.split "." (fst (directive cfg))) = snd (directive cfg).
Proof.
  unfold applyDirective. destruct (directive cfg) as [key v]. cbn [fst snd].
  apply assign_lookup. apply Override.split_nonempty.
Qed.

Lemma X17_directive_read_back_witness :
  lookup [("jsc", Obj [("parser", Obj [("syntax", Str "typescript")]);
                       ("transform", Obj [])])]
    ["jsc"; "parser"; "syntax"] = Str "typescript".
Proof.
  apply (X17_directive_read_back
           [("jsc", Obj [("parser", Undefined); ("transform", Obj [])])]
           _ "jsc.parser.syntax=typescript").
  vm_compute. reflexivity.
Defined.

Lemma store_Assigned_container (keyParts : list string) :
  forall (t : value) (v : value) (t' : value),
    keyParts <> [] ->
    store t keyParts v = Assigned t' ->
    is_container t' = true.
Proof.
  destruct keyParts as [|k rest]; intros t v t' Hne H; [contradiction|].
  pose proof (store_container _ _ _ _ Hne H) as Ht.
  destruct rest as [|next deeper].
  - rewrite store_last_container in H by assumption.
    now destruct (write_slot _ _ _ _ H) as [_ [Hc _]].
  - rewrite store_step in H.
    assert (create t k (store (Obj []) (next :: deeper) v) = Assigned t' ->
            is_container t' = true) as Hcreated.
    { intros Hc. apply created_Assigned in Hc.
      destruct Hc as [t0 [c [Hw [Hs ->]]]].
      apply put_container. now destruct (write_slot _ _ _ _ Hw) as [_ [Hc _]]. }
    destruct (getProperty t k) as [child| | | |e]; try discriminate H.
    + destruct (is_undefined child); [now apply Hcreated|].
      destruct (store child (next :: deeper) v); cbn [back] in H; try discriminate H.
      injection H as <-. now apply put_container.
    + now apply Hcreated.
    + destruct deeper; [|discriminate H].
      unfold writeMethod in H.
      destruct (String.eqb next "name" || String.eqb next "length");
        [discriminate H|].
      destruct (String.eqb next "caller" || String.eqb next "arguments"
                || String.eqb next "__proto__"); discriminate H.
Qed.

Lemma store_again (keyParts : list string) :
  forall (t : value) (v v' : value) (t1 : value),
    store t keyParts v = Assigned t1 ->
    store t1 keyParts v' = store t keyParts v'.
Proof.
  induction keyParts as [|k rest IH]; intros t v v' t1 H.
  - cbn in H. injection H as <-. reflexivity.
  - pose proof (store_container (k :: rest) _ _ _ ltac:(discriminate) H) as Ht.
    pose proof (store_Assigned_container (k :: rest) _ _ _ ltac:(discriminate) H) as Ht1.
    destruct rest as [|next deeper].
    + rewrite !store_last_container by assumption.
      rewrite store_last_container in H by assumption.
      now destruct (write_slot _ _ _ _ H) as [_ [_ [_ [_ Hw]]]].
    + rewrite store_step in H. rewrite !store_step.
      assert (create t k (store (Obj []) (next :: deeper) v) = Assigned t1 ->
              match getProperty t1 k with
              | Own child =>
                  if is_undefined child then create t1 k (store (Obj []) (next :: deeper) v')
                  else back t1 k (store child (next :: deeper) v')
              | Nothing => create t1 k (store (Obj []) (next :: deeper) v')
              | Method =>
                  match deeper with
                  | [] => writeMethod t1 next v'
                  | _ :: _ => Exotic
                  end
              | Member => Exotic
              | ReadFails e => Fails e
              end = create t k (store (Obj []) (next :: deeper) v')) as Hcreated.
      { intros Hc. apply created_Assigned in Hc.
        destruct Hc as [t0 [c [Hw [Hs ->]]]].
        destruct (write_slot _ _ _ _ Hw) as [Hslot _].
        rewrite (read_put _ _ _ Hslot).
        rewrite (container_defined c)
          by (apply (store_Assigned_container (next :: deeper) _ _ _ ltac:(discriminate) Hs)).
        rewrite (IH _ _ v' _ Hs), back_put.
        unfold create. now rewrite Hw. }
      destruct (getProperty t k) as [child| | | |e] eqn:Hr; try discriminate H.
      * destruct (is_undefined child) eqn:Hu; [now apply Hcreated|].
        destruct (store child (next :: deeper) v) as [c| | |] eqn:Hs;
          cbn [back] in H; try discriminate H.
        injection H as <-.
        pose proof (store_container (next :: deeper) _ _ _ ltac:(discriminate) Hs) as Hchild.
        rewrite (read_put _ _ _ (read_slot _ _ _ Hr Hchild)).
        rewrite (container_defined c)
          by (apply (store_Assigned_container (next :: deeper) _ _ _ ltac:(discriminate) Hs)).
        now rewrite (IH _ _ v' _ Hs), back_put.
      * now apply Hcreated.
      * destruct deeper; [|discriminate H].
        unfold writeMethod in H.
        destruct (String.eqb next "name" || String.eqb next "length");
          [discriminate H|].
        destruct (String.eqb next "caller" || String.eqb next "arguments"
                  || String.eqb next "__proto__"); discriminate H.
Qed.

Lemma assign_again (keyParts : list string) :
  forall (options : props) (v v' : value) (options1 : props),
    assign options keyParts v = Assigned options1 ->
    assign options1 keyParts v' = assign options keyParts v'.
Proof.
  destruct keyParts as [|k rest]; intros options v v' options1 H.
  - cbn in H. injection H as <-. reflexivity.
  - apply assign_Assigned in H. unfold assign.
    now rewrite (store_again _ _ _ v' _ H).
Qed.

(** X18. A directive for a path that an earlier directive has assigned
    replaces the earlier value and changes nothing else: the two in a row
    leave what the later one leaves alone. *)
Theorem X18_directive_replaced (options options1 : props) (cfg cfg' : string) :
  fst (directive cfg) = fst (directive cfg') ->
  applyDirective options cfg = Assigned options1 ->
  applyDirective options1 cfg' = applyDirective options cfg'.
Proof.
  unfold applyDirective.
  destruct (directive cfg) as [key v], (directive cfg') as [key' v'].
  cbn [fst]. intros <-. apply assign_again.
Qed.

Lemma X18_directive_replaced_witness :
  applyDirectives [] [Str "jsc.target=es5"; Str "jsc.target=es2020"]
  = applyDirectives [] [Str "jsc.target=es2020"].
Proof.
  assert (applyDirective [] "jsc.target=es5"
          = Assigned [("jsc", Obj [("target", Str "es5")])]) as H
    by (vm_compute; reflexivity).
  cbn [applyDirectives]. rewrite H.
  now rewrite (X18_directive_replaced [] _ "jsc.target=es5" "jsc.target=es2020"
                 ltac:(vm_compute; reflexivity) H).
Defined.

(** X19. The compiler options start from the options of the command line:
    [sourceFileName], [sourceRoot], [configFile] and [swcrc] are handed on
    as they are, and [jsc] starts with an undefined [parser] and an empty
    [transform]; a key that no directive assigns under keeps that value in
    what [parserArgs] returns. *)
Theorem X19_options_handed_on
    (opts : props) (filenames : list string)
    (swcOptions : props) (cliOptions : CliOptions) (k : string) :
  finish opts filenames = Return (swcOptions, cliOptions) ->
  existsb (targets k) (directives opts) = false ->
  (In k ["sourceFileName"; "sourceRoot"; "configFile"; "swcrc"] ->
   get swcOptions k = get opts k)
  /\ (k = "jsc" ->
      get swcOptions k = Obj [("parser", Undefined); ("transform", Obj [])]).
Proof.
  intros Hfinish Hfree.
  apply finish_applies in Hfinish.
  destruct (applyDirectives_frame k _ _ _ Hfinish Hfree) as [-> _].
  unfold baseOptions.
  split.
  - intros Hk. cbn [In] in Hk.
    destruct (negb (is_undefined (get opts "sourceMaps")));
      destruct Hk as [<-|[<-|[<-|[<-|[]]]]]; reflexivity.
  - intros ->.
    destruct (negb (is_undefined (get opts "sourceMaps"))); reflexivity.
Qed.

Lemma X19_options_handed_on_witness :
  exists swcOptions cliOptions,
    finish [("swcrc", Bool false); ("config", Arr [Str "jsc.target=es5"])] ["a.js"]
    = Return (swcOptions, cliOptions)
    /\ get swcOptions "swcrc" = Bool false.
Proof.
  destruct (finish [("swcrc", Bool false); ("config", Arr [Str "jsc.target=es5"])]
              ["a.js"]) as [[swcOptions cliOptions]| | | |] eqn:Hfinish;
    try (vm_compute in Hfinish; discriminate Hfinish).
  exists swcOptions, cliOptions. split; [reflexivity|].
  apply (proj1 (X19_options_handed_on _ _ _ _ "swcrc" Hfinish
                  ltac:(vm_compute; reflexivity))).
  cbn. tauto.
Defined.

(** X20. A directive that has to pass through [null] throws a [TypeError]
    that nothing catches. *)
Theorem X20_descent_into_null
    (swcOptions : props) (cfg : string) (more : list value)
    (keyPart next : string) (rest : list string) :
  Str.split "." (fst (directive cfg)) = keyPart :: next :: rest ->
  is_inherited keyPart = false ->
  get swcOptions keyPart = Null ->
  exists m, applyDirectives swcOptions (Str cfg :: more) = Throw (TypeError m).
Proof.
  intros Hpath Hown Hnull. cbn [applyDirectives]. unfold applyDirective.
  destruct (directive cfg) as [key v]. cbn [fst] in Hpath. rewrite Hpath.
  unfold assign. rewrite store_step. cbn [getProperty].
  rewrite (get_present swcOptions keyPart) by congruence.
  rewrite Hnull. cbn [is_undefined].
  assert (store Null (next :: rest) v
          = Fails (TypeError "Cannot read properties of null")) as ->
    by (destruct rest; reflexivity).
  cbn [back]. eauto.
Qed.

Lemma X20_descent_into_null_witness :
  exists m,
    applyDirectives [("jsc", Null)] [Str "jsc.target=es5"] = Throw (TypeError m).
Proof.
  apply (X20_descent_into_null _ _ _ "jsc" "target" []); vm_compute; reflexivity.
Defined.

(** X21. Where the path of a directive meets a key that is absent or
    [undefined], as [jsc.parser] is at the start, an object is put there
    that holds the rest of the path and nothing else; the other keys stay.
    This is so for a path that passes through no name every object inherits
    from [Object.prototype] and does not end in [__proto__]. *)
Theorem X21_missing_path_created
    (options : props) (keyPart : string) (rest : list string) (v : value) :
  plain (keyPart :: rest) = true ->
  rest <> [] ->
  get options keyPart = Undefined ->
  assign options (keyPart :: rest) v
  = Assigned (set options keyPart (Obj (nest rest v))).
Proof.
  intros Hplain Hne Hget.
  apply (Override.assign_walk _ _ _ _ Hplain).
  now apply Override.walk_absent.
Qed.

Lemma X21_missing_path_created_witness :
  assign [("parser", Undefined); ("transform", Obj [])] ["parser"; "syntax"]
    (Str "typescript")
  = Assigned [("parser", Obj [("syntax", Str "typescript")]); ("transform", Obj [])].
Proof.
  apply (X21_missing_path_created
           [("parser", Undefined); ("transform", Obj [])] "parser" ["syntax"]);
    [vm_compute; reflexivity | discriminate | reflexivity].
Defined.

Lemma assign_root (keyPart : string) (rest : list string)
    (options : props) (v : value) (options' : props) (other : props) :
  assign options (keyPart :: rest) v = Assigned options' ->
  get other keyPart = get options keyPart ->
  has other keyPart = has options keyPart ->
  exists other',
    assign other (keyPart :: rest) v = Assigned other'
    /\ get other' keyPart = get options' keyPart.
Proof.
  intros H Hget Hhas. apply assign_Assigned in H.
  assert (forall below t,
            back (Obj options) keyPart below = Assigned (Obj t) ->
            forall o,
            exists t', back (Obj o) keyPart below = Assigned (Obj t')
                       /\ get t' keyPart = get t keyPart) as Hback.
  { intros below t Hb o. destruct below; cbn [back put] in Hb |- *;
      try discriminate Hb.
    injection Hb as <-. eexists. split; [reflexivity|]. now rewrite !get_set_eq. }
  assert (exists other',
            store (Obj other) (keyPart :: rest) v = Assigned (Obj other')
            /\ get other' keyPart = get options' keyPart) as [other' [Hs Hg]].
  { destruct rest as [|next deeper].
    - rewrite store_last_container in H |- * by reflexivity.
      cbn [setProperty] in H |- *. rewrite Hhas.
      destruct (has options keyPart || negb (String.eqb keyPart "__proto__")).
      + injection H as <-. eexists. split; [reflexivity|]. now rewrite !get_set_eq.
      + destruct (is_prototype v); discriminate H.
    - rewrite store_step in H |- *.
      assert (getProperty (Obj other) keyPart = getProperty (Obj options) keyPart)
        as -> by (cbn [getProperty]; now rewrite Hget, Hhas).
      assert (create (Obj options) keyPart (store (Obj []) (next :: deeper) v) = Assigned (Obj options') ->
              exists other',
                create (Obj other) keyPart (store (Obj []) (next :: deeper) v) = Assigned (Obj other')
                /\ get other' keyPart = get options' keyPart) as Hcreated.
      { unfold create. cbn [setProperty]. rewrite Hhas.
        destruct (has options keyPart || negb (String.eqb keyPart "__proto__"));
          [|cbn [is_prototype]; discriminate].
        destruct (store (Obj []) (next :: deeper) v); cbn [back put];
          try discriminate.
        intros Hc. injection Hc as <-. eexists. split; [reflexivity|].
        now rewrite !get_set_eq. }
      destruct (getProperty (Obj options) keyPart) as [child| | | |e];
        try discriminate H.
      + destruct (is_undefined child); [now apply Hcreated|].
        now apply (Hback _ _ H).
      + now apply Hcreated.
      + destruct deeper; [|discriminate H].
        unfold writeMethod in H |- *.
        destruct (String.eqb next "name" || String.eqb next "length");
          [discriminate H|].
        destruct (String.eqb next "caller" || String.eqb next "arguments"
                  || String.eqb next "__proto__"); discriminate H. }
  exists other'. split; [now apply assign_Assigned | exact Hg].
Qed.

Lemma directive_path (options : props) (cfg : string) (options' : props) :
  applyDirective options cfg = Assigned options' ->
  exists rest,
    applyDirective options cfg
    = assign options (root cfg :: rest) (snd (directive cfg))
    /\ forall other, applyDirective other cfg
                     = assign other (root cfg :: rest) (snd (directive cfg)).
Proof.
  intros _. unfold applyDirective, root.
  rewrite (Override.directive_split_once cfg). cbn [fst snd].
  destruct (Str.split "." (fst (split_once cfg))) as [|segment rest] eqn:Hsplit.
  - now apply Override.split_nonempty in Hsplit.
  - exists rest. split; [reflexivity|]. intros other. reflexivity.
Qed.

(** X28. Directives under different top-level keys do not interfere: given
    in the other order they succeed as well, and every top-level key reads
    the same afterwards. *)
Theorem X28_directives_commute
    (options first both : props) (cfg cfg' : string) :
  root cfg <> root cfg' ->
  applyDirective options cfg = Assigned first ->
  applyDirective first cfg' = Assigned both ->
  exists first' both',
    applyDirective options cfg' = Assigned first'
    /\ applyDirective first' cfg = Assigned both'
    /\ forall k, get both' k = get both k.
Proof.
  intros Hroots H1 H2.
  destruct (directive_path _ _ _ H1) as [rest [E1 A1]].
  destruct (directive_path _ _ _ H2) as [rest' [E2 A2]].
  rewrite E1 in H1. rewrite E2 in H2.
  destruct (assign_frame _ _ _ _ _ (root cfg') (or_introl H1) (not_eq_sym Hroots))
    as [F1 F1'].
  destruct (assign_root _ _ _ _ _ options H2 (eq_sym F1) (eq_sym F1'))
    as [first' [H3 G3]].
  destruct (assign_frame _ _ _ _ _ (root cfg) (or_introl H3) Hroots) as [F3 F3'].
  destruct (assign_root _ _ _ _ _ first' H1 F3 F3') as [both' [H4 G4]].
  exists first', both'. rewrite A2, A1.
  split; [exact H3|]. split; [exact H4|].
  intros k.
  destruct (String.eqb_spec k (root cfg)) as [->|Hk1].
  - rewrite G4. symmetry.
    exact (proj1 (assign_frame _ _ _ _ _ (root cfg) (or_introl H2) Hroots)).
  - rewrite (proj1 (assign_frame _ _ _ _ _ k (or_introl H4) Hk1)).
    destruct (String.eqb_spec k (root cfg')) as [->|Hk2]; [exact G3|].
    rewrite (proj1 (assign_frame _ _ _ _ _ k (or_introl H3) Hk2)).
    rewrite (proj1 (assign_frame _ _ _ _ _ k (or_introl H2) Hk2)).
    now rewrite (proj1 (assign_frame _ _ _ _ _ k (or_introl H1) Hk1)).
Qed.

Lemma X28_directives_commute_witness :
  exists first' both',
    applyDirective [] "jsc.target=es5" = Assigned first'
    /\ applyDirective first' "module.type=amd" = Assigned both'
    /\ forall k,
         get both' k
         = get [("module", Obj [("type", Str "amd")]);
                ("jsc", Obj [("target", Str "es5")])] k.
Proof.
  apply (X28_directives_commute [] [("module", Obj [("type", Str "amd")])]);
    [vm_compute; discriminate | vm_compute; reflexivity | vm_compute; reflexivity].
Defined.

End Directives.

(* ===================================================================== *)
(** * Options as the command line sets them *)
(* ===================================================================== *)

Module CommandLine.
Import JS Options Spec ObjFacts Accumulate Provenance.

(** X22. An option that does not occur on the command line has its default
    after the parse: [true] for [swcrc] and [logWatchCompilation], [false]
    for [stripLeadingPaths], [undefined] for every other; and where the CLI
    options have a fallback, the fallback is what they hold. *)
Theorem X22_absent_option_default
    (args : list string) (program : Commander.Command) (key : string) :
  Commander.parse initProgram args = Commander.Parsed program ->
  arguments_of (Commander.options initProgram) key (events args) = [] ->
  get (Commander.opts program) key = default_of key
  /\ forall filenames workers,
       (key = "extensions" ->
        extensions (cliOptionsOf (Commander.opts program) filenames workers)
        = Arr (map Str DEFAULT_EXTENSIONS))
       /\ (key = "only" ->
           only (cliOptionsOf (Commander.opts program) filenames workers) = Arr [])
       /\ (key = "ignore" ->
           ignore (cliOptionsOf (Commander.opts program) filenames workers) = Arr []).
Proof.
  intros Hparse Hargs.
  apply run_parsed in Hparse. destruct Hparse as [program' [Hscan [Hopts _]]].
  assert (get (Commander.opts program) key = default_of key) as Hget.
  { rewrite Hopts, <- initial_values.
    exact (parseOptions_untouched (Commander.options initProgram) key
             _ _ _ _ _ eq_refl Hscan Hargs). }
  split; [exact Hget|].
  intros filenames workers.
  split; [|split]; intros ->; cbn [cliOptionsOf extensions only ignore];
    rewrite Hget; reflexivity.
Qed.

Lemma X22_absent_option_default_witness :
  get (Commander.opts (parsed_program (argv ["a.js"; "--watch"; "-d"; "lib"])))
    "extensions" = Undefined
  /\ extensions (cliOptionsOf
                   (Commander.opts (parsed_program (argv ["a.js"; "--watch"; "-d"; "lib"])))
                   ["a.js"] Undefined)
     = Arr (map Str DEFAULT_EXTENSIONS).
Proof.
  destruct (X22_absent_option_default (argv ["a.js"; "--watch"; "-d"; "lib"])
              (parsed_program (argv ["a.js"; "--watch"; "-d"; "lib"])) "extensions"
              ltac:(apply Merge.parses_parsed; vm_compute; reflexivity)
              ltac:(vm_compute; reflexivity)) as [Hget Hcli].
  split; [exact Hget|].
  exact (proj1 (Hcli ["a.js"] Undefined) eq_refl).
Defined.

(** ** Switches *)

Lemma handle_switch
    (o : Commander.OptionDecl) (program program' : Commander.Command) :
  Commander.parseArg o = None ->
  Commander.is_boolean_or_undefined
    (get (Commander.optionValues program) (Commander.attributeName o)) = true ->
  Commander.handleOptionValue o Undefined program = inr program' ->
  get (Commander.optionValues program') (Commander.attributeName o)
  = if Commander.negate o then Bool false
    else if truthy (Commander.defaultValue o) then Commander.defaultValue o
         else Bool true.
Proof.
  intros Hp Hold. unfold Commander.handleOptionValue. rewrite Hp, Hold.
  cbn [is_nullish]. intros H. injection H as <-. cbn. apply get_set_eq.
Qed.

Lemma handle_switch_collect
    (o : Commander.OptionDecl) (program program' : Commander.Command) :
  Commander.parseArg o = Some collect ->
  Commander.defaultValue o = Undefined ->
  Commander.negate o = false ->
  (get (Commander.optionValues program) (Commander.attributeName o) = Undefined
   \/ get (Commander.optionValues program) (Commander.attributeName o) = Bool true) ->
  Commander.handleOptionValue o Undefined program = inr program' ->
  get (Commander.optionValues program') (Commander.attributeName o) = Bool true.
Proof.
  intros Hp Hd Hn Hold. unfold Commander.handleOptionValue. rewrite Hp, Hd, Hn.
  destruct Hold as [-> | ->]; cbn; intros H; injection H as <-; cbn;
    apply get_set_eq.
Qed.

Section Switch.

Variable schema : list Commander.OptionDecl.
Variable key : string.
Variable stored : bool.
Variable initial : value.

Hypothesis switch :
  forall o, In o schema -> Commander.attributeName o = key ->
    Commander.arg o = Commander.Flag
    /\ forall program program',
         (get (Commander.optionValues program) key = initial
          \/ get (Commander.optionValues program) key = Bool stored) ->
         Commander.handleOptionValue o Undefined program = inr program' ->
         get (Commander.optionValues program') key = Bool stored.

(** Once the switch has occurred its value is settled. *)
Lemma parseOptions_switch :
  forall (occs : list Commander.occurrence) (program : Commander.Command)
         (unknown : list string) (program' : Commander.Command)
         (unknown' : list string),
    Commander.options program = schema ->
    Commander.parseOptions program occs unknown = Commander.Scanned program' unknown' ->
    (get (Commander.optionValues program) key = initial
     \/ get (Commander.optionValues program) key = Bool stored) ->
    get (Commander.optionValues program') key
    = if existsb bare (arguments_of schema key occs) then Bool stored
      else get (Commander.optionValues program) key.
Proof.
  induction occs as [|occ occs IH];
    intros program unknown program' unknown' Hschema Hscan Hold.
  - cbn in Hscan. now injection Hscan as <- <-.
  - cbn [Commander.parseOptions] in Hscan.
    destruct (Commander.is_version (Commander.flag occ)); [discriminate Hscan|].
    rewrite Hschema in Hscan.
    cbn [arguments_of flat_map]. fold (arguments_of schema key occs).
    destruct (Commander.findOption schema (Commander.flag occ)) as [o|] eqn:Hfind.
    + pose proof (find_some _ _ Hfind) as [Hin _].
      destruct (String.eqb_spec (Commander.attributeName o) key) as [Hname|Hname].
      * destruct (switch o Hin Hname) as [Harity Hset].
        rewrite Harity in Hscan. cbn [app existsb].
        destruct (Commander.argument occ) as [text|]; cbn [bare orb].
        -- eapply (IH program _ program' unknown'); eassumption.
        -- destruct (Commander.handleOptionValue o Undefined program)
             as [e|program1] eqn:Hh; [discriminate Hscan|].
           destruct (handleOptionValue_frame _ _ _ _ key Hh) as [Hopts _].
           pose proof (Hset _ _ Hold Hh) as Hval.
           rewrite (IH program1 unknown program' unknown'
                      ltac:(congruence) Hscan (or_intror Hval)).
           rewrite Hval. now destruct (existsb bare (arguments_of schema key occs)).
      * cbn [app].
        destruct (Commander.arg o), (Commander.argument occ);
          try discriminate Hscan;
          try (eapply (IH program _ program' unknown'); eassumption);
          match type of Hscan with
          | context [Commander.handleOptionValue o ?v program] =>
              destruct (Commander.handleOptionValue o v program)
                as [e|program1] eqn:Hh; [discriminate Hscan|];
              destruct (handleOptionValue_frame _ _ _ _ key Hh) as [Hopts Hkeep];
              rewrite <- (Hkeep Hname);
              apply (IH program1 unknown program' unknown');
                [congruence | assumption | rewrite (Hkeep Hname); assumption]
          end.
    + cbn [app]. eapply (IH program _ program' unknown'); eassumption.
Qed.

End Switch.

(** How the options without an argument are declared. *)
Lemma switch_declaration (o : Commander.OptionDecl) (key : string) (stored : bool) :
  In o (Commander.options initProgram) ->
  In (key, stored) switches ->
  Commander.attributeName o = key ->
  Commander.arg o = Commander.Flag
  /\ Commander.is_boolean_or_undefined (default_of key) = true
  /\ ((Commander.parseArg o = None
       /\ (if Commander.negate o then Bool false
           else if truthy (Commander.defaultValue o) then Commander.defaultValue o
                else Bool true) = Bool stored)
      \/ (Commander.parseArg o = Some collect
          /\ Commander.defaultValue o = Undefined
          /\ Commander.negate o = false
          /\ default_of key = Undefined
          /\ stored = true)).
Proof.
  intros Ho Hk Hname.
  destruct (registered o Ho) as [d [Hd Hreg]].
  destruct (registers_names o d Hreg) as [Hn Hneg].
  destruct Hreg as [_ [_ [Harg [Hparse Hdflt]]]].
  rewrite Hn in Hname. rewrite Hneg, Harg, Hparse.
  clear Ho Hn Hneg Harg Hparse.
  unfold declarations in Hd. cbn [In] in Hd.
  repeat (destruct Hd as [<-|Hd]; [
    vm_compute in Hname; subst key;
    cbn in Hk;
    repeat match goal with
           | H : _ \/ _ |- _ => destruct H as [H|H]
           | H : (_, _) = (_, _) |- _ => first [discriminate H | injection H as <-]
           | H : False |- _ => contradiction
           end;
    (split; [reflexivity|]); (split; [reflexivity|]);
    first [ left; split; [reflexivity|];
            first [ reflexivity
                  | rewrite (Hdflt eq_refl); reflexivity ]
          | right; repeat split; solve [reflexivity | now apply Hdflt] ] |]).
  contradiction.
Qed.

Lemma switch_handles (key : string) (stored : bool) :
  In (key, stored) switches ->
  forall o, In o (Commander.options initProgram) -> Commander.attributeName o = key ->
    Commander.arg o = Commander.Flag
    /\ forall program program',
         (get (Commander.optionValues program) key = default_of key
          \/ get (Commander.optionValues program) key = Bool stored) ->
         Commander.handleOptionValue o Undefined program = inr program' ->
         get (Commander.optionValues program') key = Bool stored.
Proof.
  intros Hkey o Hin Hname.
  destruct (switch_declaration o key stored Hin Hkey Hname)
    as [Harity [Hbool [[Hp Hstored]|[Hp [Hd [Hn [Hinit ->]]]]]]];
    (split; [exact Harity|]); clear Hin Hkey; subst key;
    intros program program' Hold Hh.
  - rewrite (handle_switch o program program' Hp); [exact Hstored | | exact Hh].
    destruct Hold as [-> | ->]; [exact Hbool | reflexivity].
  - apply (handle_switch_collect o program program' Hp Hd Hn); [|exact Hh].
    rewrite Hinit in Hold. exact Hold.
Qed.

(** X23. An option declared without an argument holds [true] once it
    occurs on the command line, however often ([swcrc] holds [false] once
    [--no-swcrc] occurs), and the CLI options show it. *)
Theorem X23_switch_given
    (args : list string) (program : Commander.Command) (key : string) (stored : bool) :
  In (key, stored) switches ->
  Commander.parse initProgram args = Commander.Parsed program ->
  In None (arguments_of (Commander.options initProgram) key (events args)) ->
  get (Commander.opts program) key = Bool stored
  /\ forall filenames workers,
       (key = "watch" ->
        watch (cliOptionsOf (Commander.opts program) filenames workers) = true)
       /\ (key = "sync" ->
           sync (cliOptionsOf (Commander.opts program) filenames workers) = true)
       /\ (key = "quiet" ->
           quiet (cliOptionsOf (Commander.opts program) filenames workers) = true)
       /\ (key = "copyFiles" ->
           copyFiles (cliOptionsOf (Commander.opts program) filenames workers) = true)
       /\ (key = "stripLeadingPaths" ->
           stripLeadingPaths (cliOptionsOf (Commander.opts program) filenames workers)
           = true)
       /\ (key = "swcrc" ->
           get (baseOptions (Commander.opts program)) "swcrc" = Bool false).
Proof.
  intros Hkey Hparse Hocc.
  apply run_parsed in Hparse. destruct Hparse as [program' [Hscan [Hopts _]]].
  assert (get (Commander.opts program) key = Bool stored) as Hget.
  { rewrite Hopts.
    rewrite (parseOptions_switch (Commander.options initProgram) key stored
               (default_of key) (switch_handles key stored Hkey)
               _ _ _ _ _ eq_refl Hscan (or_introl (initial_values key))).
    unfold events in Hocc.
    match goal with
    | |- (if ?b then _ else _) = _ =>
        assert (b = true) as -> by (apply existsb_exists; exists None; now split)
    end.
    reflexivity. }
  split; [exact Hget|].
  clear Hscan Hopts Hocc program'.
  intros filenames workers.
  repeat split; intros ->;
    cbn [cliOptionsOf watch sync quiet copyFiles stripLeadingPaths];
    try (unfold baseOptions);
    rewrite ?Hget;
    cbn in Hkey;
    repeat match goal with
           | H : _ \/ _ |- _ => destruct H as [H|H]
           | H : (_, _) = (_, _) |- _ => first [discriminate H | injection H as <-]
           | H : False |- _ => contradiction
           end;
    try reflexivity.
  destruct (negb (is_undefined _)); reflexivity.
Qed.

Lemma X23_switch_given_witness :
  get (Commander.opts (parsed_program (argv ["a.js"; "--sync"; "-w"; "--sync"; "-d"; "lib"])))
    "sync" = Bool true
  /\ get (Commander.opts (parsed_program (argv ["--no-swcrc"]))) "swcrc" = Bool false.
Proof.
  split.
  - assert (In None (arguments_of (Commander.options initProgram) "sync"
                       (events (argv ["a.js"; "--sync"; "-w"; "--sync"; "-d"; "lib"]))))
      as Hocc by (vm_compute; tauto).
    exact (proj1 (X23_switch_given
                    (argv ["a.js"; "--sync"; "-w"; "--sync"; "-d"; "lib"])
                    (parsed_program (argv ["a.js"; "--sync"; "-w"; "--sync"; "-d"; "lib"]))
                    "sync" true
                    ltac:(cbn; tauto)
                    ltac:(apply Merge.parses_parsed; vm_compute; reflexivity)
                    Hocc)).
  - assert (In None (arguments_of (Commander.options initProgram) "swcrc"
                       (events (argv ["--no-swcrc"]))))
      as Hocc by (vm_compute; tauto).
    exact (proj1 (X23_switch_given (argv ["--no-swcrc"])
                    (parsed_program (argv ["--no-swcrc"])) "swcrc" false
                    ltac:(cbn; tauto)
                    ltac:(apply Merge.parses_parsed; vm_compute; reflexivity)
                    Hocc)).
Defined.

(** ** Options with an optional argument *)

Lemma handle_plain
    (o : Commander.OptionDecl) (a : option string)
    (program program' : Commander.Command) :
  Commander.parseArg o = None ->
  Commander.defaultValue o = Undefined ->
  Commander.negate o = false ->
  Commander.handleOptionValue o
    (match a with Some text => Str text | None => Null end) program = inr program' ->
  get (Commander.optionValues program') (Commander.attributeName o)
  = latest (get (Commander.optionValues program) (Commander.attributeName o)) a.
Proof.
  intros Hp Hd Hn. unfold Commander.handleOptionValue, latest. rewrite Hp, Hd, Hn.
  destruct (Commander.is_boolean_or_undefined
              (get (Commander.optionValues program) (Commander.attributeName o)));
    destruct a as [text|]; cbn; intros H; injection H as <-; cbn;
    first [apply get_set_eq | reflexivity].
Qed.

Section Plain.

Variable schema : list Commander.OptionDecl.
Variable key : string.

Hypothesis plain :
  forall o, In o schema -> Commander.attributeName o = key ->
    Commander.arg o = Commander.Optional
    /\ Commander.parseArg o = None
    /\ Commander.defaultValue o = Undefined
    /\ Commander.negate o = false.

Lemma parseOptions_latest :
  forall (occs : list Commander.occurrence) (program : Commander.Command)
         (unknown : list string) (program' : Commander.Command)
         (unknown' : list string),
    Commander.options program = schema ->
    Commander.parseOptions program occs unknown = Commander.Scanned program' unknown' ->
    get (Commander.optionValues program') key
    = fold_left latest (arguments_of schema key occs)
        (get (Commander.optionValues program) key).
Proof.
  induction occs as [|occ occs IH];
    intros program unknown program' unknown' Hschema Hscan.
  - cbn in Hscan. now injection Hscan as <- <-.
  - cbn [Commander.parseOptions] in Hscan.
    destruct (Commander.is_version (Commander.flag occ)); [discriminate Hscan|].
    rewrite Hschema in Hscan.
    cbn [arguments_of flat_map]. fold (arguments_of schema key occs).
    destruct (Commander.findOption schema (Commander.flag occ)) as [o|] eqn:Hfind.
    + pose proof (find_some _ _ Hfind) as [Hin _].
      destruct (String.eqb_spec (Commander.attributeName o) key) as [Hname|Hname].
      * destruct (plain o Hin Hname) as [Harity [Hp [Hd Hn]]].
        rewrite Harity in Hscan. cbn [app fold_left].
        assert (exists program1,
                   Commander.handleOptionValue o
                     (match Commander.argument occ with
                      | Some text => Str text
                      | None => Null
                      end) program = inr program1
                   /\ Commander.parseOptions program1 occs unknown
                      = Commander.Scanned program' unknown') as [program1 [Hh Hrest]].
        { destruct (Commander.argument occ);
            match type of Hscan with
            | context [Commander.handleOptionValue o ?v program] =>
                destruct (Commander.handleOptionValue o v program)
                  as [e|program1]; [discriminate Hscan | eauto]
            end. }
        destruct (handleOptionValue_frame _ _ _ _ key Hh) as [Hopts _].
        pose proof (handle_plain o _ _ _ Hp Hd Hn Hh) as Hval.
        rewrite Hname in Hval. rewrite <- Hval.
        apply (IH program1 unknown program' unknown'); [congruence | exact Hrest].
      * cbn [app].
        destruct (Commander.arg o), (Commander.argument occ);
          try discriminate Hscan;
          try (eapply (IH program _ program' unknown'); eassumption);
          match type of Hscan with
          | context [Commander.handleOptionValue o ?v program] =>
              destruct (Commander.handleOptionValue o v program)
                as [e|program1] eqn:Hh; [discriminate Hscan|];
              destruct (handleOptionValue_frame _ _ _ _ key Hh) as [Hopts Hkeep];
              rewrite <- (Hkeep Hname);
              apply (IH program1 unknown program' unknown');
                [congruence | assumption]
          end.
    + cbn [app]. eapply (IH program _ program' unknown'); eassumption.
Qed.

End Plain.

Lemma plain_declaration (o : Commander.OptionDecl) (key : string) :
  In o (Commander.options initProgram) ->
  In key plain_options ->
  Commander.attributeName o = key ->
  Commander.arg o = Commander.Optional
  /\ Commander.parseArg o = None
  /\ Commander.defaultValue o = Undefined
  /\ Commander.negate o = false.
Proof.
  intros Ho Hk Hname.
  destruct (registered o Ho) as [d [Hd Hreg]].
  destruct (registers_names o d Hreg) as [Hn Hneg].
  destruct Hreg as [_ [_ [Harg [Hparse Hdflt]]]].
  rewrite Hn in Hname. rewrite Hneg, Harg, Hparse.
  clear Ho Hn Hneg Harg Hparse.
  unfold declarations in Hd. cbn [In] in Hd.
  repeat (destruct Hd as [<-|Hd]; [
    vm_compute in Hname; subst key;
    first [ repeat split; solve [ reflexivity | now apply Hdflt ]
          | exfalso; cbn in Hk; intuition discriminate ] |]).
  contradiction.
Qed.

Lemma latest_bare (after : list (option string)) (text : string) :
  forallb bare after = true ->
  fold_left latest after (Str text) = Str text.
Proof.
  induction after as [|a after IH]; [reflexivity|].
  cbn [forallb fold_left]. intros H. apply andb_true_iff in H. destruct H as [Ha Hafter].
  destruct a; [discriminate Ha|]. cbn. now apply IH.
Qed.

(** X24. Of the occurrences of an option with an optional argument and no
    processing function, the last one that carries an argument decides: the
    option holds that argument, whatever came before, and bare occurrences
    after it change nothing. *)
Theorem X24_last_argument_wins
    (args : list string) (program : Commander.Command) (key text : string)
    (before after : list (option string)) :
  In key plain_options ->
  Commander.parse initProgram args = Commander.Parsed program ->
  arguments_of (Commander.options initProgram) key (events args)
  = (before ++ Some text :: after)%list ->
  forallb bare after = true ->
  get (Commander.opts program) key = Str text.
Proof.
  intros Hkey Hparse Hargs Hafter.
  apply run_parsed in Hparse. destruct Hparse as [program' [Hscan [-> _]]].
  rewrite (parseOptions_latest (Commander.options initProgram) key
             (fun o Hin Hname => plain_declaration o key Hin Hkey Hname)
             _ _ _ _ _ eq_refl Hscan).
  unfold events in Hargs. rewrite Hargs.
  rewrite fold_left_app. cbn [fold_left latest].
  now apply latest_bare.
Qed.

Lemma X24_last_argument_wins_witness :
  get (Commander.opts
         (parsed_program (argv ["a.js"; "-d"; "lib"; "--out-dir"; "dist"; "-d"])))
    "outDir" = Str "dist".
Proof.
  assert (arguments_of (Commander.options initProgram) "outDir"
            (events (argv ["a.js"; "-d"; "lib"; "--out-dir"; "dist"; "-d"]))
          = ([Some "lib"] ++ Some "dist" :: [None])%list) as Hargs
    by (vm_compute; reflexivity).
  exact (X24_last_argument_wins
           (argv ["a.js"; "-d"; "lib"; "--out-dir"; "dist"; "-d"])
           (parsed_program (argv ["a.js"; "-d"; "lib"; "--out-dir"; "dist"; "-d"]))
           "outDir" "dist" [Some "lib"] [None]
           ltac:(cbn; tauto)
           ltac:(apply Merge.parses_parsed; vm_compute; reflexivity)
           Hargs eq_refl).
Defined.

(** ** A list flag left bare *)

Lemma handle_collect_bare
    (o : Commander.OptionDecl) (program program' : Commander.Command) :
  Commander.parseArg o = Some collect ->
  Commander.defaultValue o = Undefined ->
  Commander.negate o = false ->
  (get (Commander.optionValues program) (Commander.attributeName o) = Undefined
   \/ get (Commander.optionValues program) (Commander.attributeName o) = Bool true) ->
  Commander.handleOptionValue o Null program = inr program' ->
  get (Commander.optionValues program') (Commander.attributeName o) = Bool true.
Proof.
  intros Hp Hd Hn Hold. unfold Commander.handleOptionValue. rewrite Hp, Hd, Hn.
  destruct Hold as [-> | ->]; cbn; intros H; injection H as <-; cbn;
    apply get_set_eq.
Qed.

Lemma handle_collect_after_bare
    (o : Commander.OptionDecl) (text : string) (program : Commander.Command) :
  Commander.parseArg o = Some collect ->
  get (Commander.optionValues program) (Commander.attributeName o) = Bool true ->
  Commander.handleOptionValue o (Str text) program
  = inl (TypeError "previousValue.concat is not a function").
Proof.
  intros Hp Hold. unfold Commander.handleOptionValue. rewrite Hp, Hold. reflexivity.
Qed.

Section Bare.

Variable schema : list Commander.OptionDecl.
Variable key : string.

Hypothesis collects :
  forall o, In o schema -> Commander.attributeName o = key ->
    Commander.parseArg o = Some collect
    /\ Commander.defaultValue o = Undefined
    /\ Commander.negate o = false
    /\ Commander.arg o <> Commander.Flag.

(** While the option holds [true], the scan comes to its end only if no
    occurrence with a value follows, and [true] is what the option holds
    then. *)
Lemma parseOptions_bare_then_value :
  forall (occs : list Commander.occurrence) (program : Commander.Command)
         (unknown : list string) (program' : Commander.Command)
         (unknown' : list string),
    Commander.options program = schema ->
    Commander.parseOptions program occs unknown = Commander.Scanned program' unknown' ->
    get (Commander.optionValues program) key = Bool true ->
    forallb bare (arguments_of schema key occs) = true
    /\ get (Commander.optionValues program') key = Bool true.
Proof.
  induction occs as [|occ occs IH];
    intros program unknown program' unknown' Hschema Hscan Hold.
  { cbn in Hscan. injection Hscan as <- <-. now split. }
  cbn [Commander.parseOptions] in Hscan.
  destruct (Commander.is_version (Commander.flag occ)); [discriminate Hscan|].
  rewrite Hschema in Hscan.
  cbn [arguments_of flat_map]. fold (arguments_of schema key occs).
  destruct (Commander.findOption schema (Commander.flag occ)) as [o|] eqn:Hfind.
  - pose proof (find_some _ _ Hfind) as [Hin _].
    destruct (String.eqb_spec (Commander.attributeName o) key) as [Hname|Hname].
    + destruct (collects o Hin Hname) as [Hp [Hd [Hn Harity]]].
      cbn [app forallb].
      pose proof Hold as Hold'. rewrite <- Hname in Hold'.
      destruct (Commander.arg o) eqn:Ha; [contradiction| |];
        destruct (Commander.argument occ) as [text|]; try discriminate Hscan;
        try (rewrite (handle_collect_after_bare o text program Hp Hold') in Hscan;
             discriminate Hscan).
      destruct (Commander.handleOptionValue o Null program)
        as [e|program1] eqn:Hh; [discriminate Hscan|].
      destruct (handleOptionValue_frame _ _ _ _ key Hh) as [Hopts _].
      cbn [bare andb].
      apply (IH program1 unknown program' unknown'); [congruence | exact Hscan |].
      rewrite <- Hname.
      exact (handle_collect_bare o _ _ Hp Hd Hn (or_intror Hold') Hh).
    + cbn [app].
      destruct (Commander.arg o), (Commander.argument occ);
        try discriminate Hscan;
        try (eapply (IH program _ program' unknown'); eassumption);
        match type of Hscan with
        | context [Commander.handleOptionValue o ?v program] =>
            destruct (Commander.handleOptionValue o v program)
              as [e|program1] eqn:Hh; [discriminate Hscan|];
            destruct (handleOptionValue_frame _ _ _ _ key Hh) as [Hopts Hkeep];
            apply (IH program1 unknown program' unknown');
              [congruence | assumption | rewrite (Hkeep Hname); assumption]
        end.
  - cbn [app]. eapply (IH program _ program' unknown'); eassumption.
Qed.

Lemma parseOptions_bare_first :
  forall (occs : list Commander.occurrence) (program : Commander.Command)
         (unknown : list string) (program' : Commander.Command)
         (unknown' : list string) (more : list (option string)),
    Commander.options program = schema ->
    Commander.parseOptions program occs unknown = Commander.Scanned program' unknown' ->
    get (Commander.optionValues program) key = Undefined ->
    arguments_of schema key occs = None :: more ->
    forallb bare more = true
    /\ get (Commander.optionValues program') key = Bool true.
Proof.
  induction occs as [|occ occs IH];
    intros program unknown program' unknown' more Hschema Hscan Hold Hargs;
    [discriminate Hargs|].
  cbn [Commander.parseOptions] in Hscan.
  destruct (Commander.is_version (Commander.flag occ)); [discriminate Hscan|].
  rewrite Hschema in Hscan.
  cbn [arguments_of flat_map] in Hargs. fold (arguments_of schema key occs) in Hargs.
  destruct (Commander.findOption schema (Commander.flag occ)) as [o|] eqn:Hfind.
  - pose proof (find_some _ _ Hfind) as [Hin _].
    destruct (String.eqb_spec (Commander.attributeName o) key) as [Hname|Hname].
    + destruct (collects o Hin Hname) as [Hp [Hd [Hn Harity]]].
      cbn [app] in Hargs. injection Hargs as Harg Hmore. rewrite Harg in Hscan.
      pose proof Hold as Hold'. rewrite <- Hname in Hold'.
      destruct (Commander.arg o) eqn:Ha; [contradiction| |discriminate Hscan].
      destruct (Commander.handleOptionValue o Null program)
        as [e|program1] eqn:Hh; [discriminate Hscan|].
      destruct (handleOptionValue_frame _ _ _ _ key Hh) as [Hopts _].
      rewrite <- Hmore.
      apply (parseOptions_bare_then_value occs program1 unknown program' unknown');
        [congruence | exact Hscan |].
      rewrite <- Hname.
      exact (handle_collect_bare o _ _ Hp Hd Hn (or_introl Hold') Hh).
    + cbn [app] in Hargs.
      destruct (Commander.arg o), (Commander.argument occ);
        try discriminate Hscan;
        try (eapply (IH program _ program' unknown' more); eassumption);
        match type of Hscan with
        | context [Commander.handleOptionValue o ?v program] =>
            destruct (Commander.handleOptionValue o v program)
              as [e|program1] eqn:Hh; [discriminate Hscan|];
            destruct (handleOptionValue_frame _ _ _ _ key Hh) as [Hopts Hkeep];
            apply (IH program1 unknown program' unknown' more);
              [congruence | assumption | rewrite (Hkeep Hname); assumption
              | assumption]
        end.
  - cbn [app] in Hargs. eapply (IH program _ program' unknown' more); eassumption.
Qed.

End Bare.

(** X29. A list flag whose first occurrence is left bare holds [true]
    from then on, and an occurrence with a value after it breaks the parse
    ([true] has no [concat]): the command line is only parsed to its end
    when every later occurrence is bare as well, and the option is [true]
    then, not a list. *)
Theorem X29_bare_list_flag
    (args : list string) (program : Commander.Command) (key : string)
    (more : list (option string)) :
  In key optional_lists ->
  arguments_of (Commander.options initProgram) key (events args) = None :: more ->
  Commander.parse initProgram args = Commander.Parsed program ->
  forallb bare more = true /\ get (Commander.opts program) key = Bool true.
Proof.
  intros Hkey Hargs Hparse.
  assert (In key list_valued) as Hlist
    by (cbn in Hkey |- *; intuition).
  assert (default_of key = Undefined) as Hdefault
    by (cbn in Hkey; destruct Hkey as [<-|[<-|[<-|[]]]]; reflexivity).
  apply run_parsed in Hparse. destruct Hparse as [program' [Hscan [-> _]]].
  unfold events in Hargs.
  exact (parseOptions_bare_first (Commander.options initProgram) key
           (fun o Hin Hname => list_valued_declaration o key Hin Hlist Hname)
           _ _ _ _ _ more eq_refl Hscan
           (eq_trans (initial_values key) Hdefault) Hargs).
Qed.

Lemma X29_bare_list_flag_witness :
  get (Commander.opts (parsed_program (argv ["a.js"; "--ignore"; "-d"; "lib"])))
    "ignore" = Bool true
  /\ Commander.parse initProgram (argv ["--ignore"; "--ignore"; "a"])
     = Commander.Raised (TypeError "previousValue.concat is not a function").
Proof.
  split; [|vm_compute; reflexivity].
  assert (arguments_of (Commander.options initProgram) "ignore"
            (events (argv ["a.js"; "--ignore"; "-d"; "lib"])) = None :: [])
    as Hargs by (vm_compute; reflexivity).
  exact (proj2 (X29_bare_list_flag
                  (argv ["a.js"; "--ignore"; "-d"; "lib"])
                  (parsed_program (argv ["a.js"; "--ignore"; "-d"; "lib"]))
                  "ignore" []
                  ltac:(cbn; tauto) Hargs
                  ltac:(apply Merge.parses_parsed; vm_compute; reflexivity))).
Defined.

End CommandLine.

(* ===================================================================== *)
(** * [unstringify] *)
(* ===================================================================== *)

Module Unstringify.
Import JS Options Spec.

Lemma parse_rejects_plain (text : string) :
  plain_text text = true -> exists e, JSON.parse text = inl e.
Proof.
  intros Hplain. unfold JSON.parse.
  replace (2 * String.length text + 2) with (S (2 * String.length text + 1)) by lia.
  destruct text as [|c rest]; [cbn; eauto|].
  cbn [plain_text] in Hplain. apply andb_true_iff in Hplain.
  destruct Hplain as [Hopen Hword].
  apply negb_true_iff in Hopen, Hword. unfold opens_value in Hopen.
  do 5 (apply orb_false_elim in Hopen; destruct Hopen as [Hopen ?]).
  apply orb_false_elim in Hword. destruct Hword as [Hword Hnull].
  apply orb_false_elim in Hword. destruct Hword as [Htrue Hfalse].
  unfold begins in Htrue, Hfalse, Hnull.
  cbn [JSON.parse_value JSON.skip_ws]. rewrite Hopen.
  repeat match goal with
         | H : Str.eqb_char c _ = false |- _ => rewrite H
         end.
  unfold JSON.literal.
  destruct (Str.starts_with "true" (String c rest)); [discriminate Htrue|].
  destruct (Str.starts_with "false" (String c rest)); [discriminate Hfalse|].
  destruct (Str.starts_with "null" (String c rest)); [discriminate Hnull|].
  destruct (Str.eqb_char c "t"); [eauto|].
  destruct (Str.eqb_char c "f"); [eauto|].
  destruct (Str.eqb_char c "n"); [eauto|].
  unfold JSON.parse_number.
  match goal with H : Str.eqb_char c "-" = false |- _ => rewrite H end.
  match goal with H : Str.is_digit c = false |- _ => rewrite H end.
  destruct (Str.eqb_char c "0") eqn:Hzero; [|eauto].
  apply Ascii.eqb_eq in Hzero. subst c.
  match goal with H : Str.is_digit _ = false |- _ => discriminate H end.
Qed.

(** X25. Text that does not start like a JSON value, such as [inline],
    [typescript] or [amd], comes back from [unstringify] as the string it
    is; so does the empty text. *)
Theorem X25_unstringify_plain_text (text : string) :
  plain_text text = true ->
  unstringify (Str text) = Str text.
Proof.
  intros Hplain. unfold unstringify. cbn [ToString].
  destruct (parse_rejects_plain text Hplain) as [e ->]. reflexivity.
Qed.

Lemma X25_unstringify_plain_text_witness :
  unstringify (Str "typescript") = Str "typescript"
  /\ unstringify (Str "inline") = Str "inline"
  /\ unstringify (Str EmptyString) = Str EmptyString.
Proof.
  split; [|split]; apply X25_unstringify_plain_text; reflexivity.
Defined.

Lemma digit_opens_number (c : ascii) :
  Str.is_digit c = true ->
  JSON.is_ws c = false
  /\ Str.eqb_char c "{" = false /\ Str.eqb_char c "[" = false
  /\ Str.eqb_char c Str.quote = false
  /\ Str.eqb_char c "t" = false /\ Str.eqb_char c "f" = false
  /\ Str.eqb_char c "n" = false /\ Str.eqb_char c "-" = false
  /\ Str.eqb_char c "." = false
  /\ Str.eqb_char c "e" || Str.eqb_char c "E" = false.
Proof.
  intros Hd.
  assert (forall x, Str.is_digit x = false -> Str.eqb_char c x = false) as Hne.
  { intros x Hx. destruct (Str.eqb_char c x) eqn:E; [|reflexivity].
    apply Ascii.eqb_eq in E. subst x. congruence. }
  unfold JSON.is_ws.
  unfold Str.is_digit in Hd. apply andb_true_iff in Hd. destruct Hd as [Hlo Hhi].
  apply Z.leb_le in Hlo. apply Z.leb_le in Hhi.
  split.
  - cbv zeta.
    repeat match goal with
           | |- context [(Str.code c =? ?n)%Z] =>
               replace (Str.code c =? n)%Z with false by (symmetry; apply Z.eqb_neq; lia)
           end.
    reflexivity.
  - assert (Str.is_digit c = true) as Hd
        by (unfold Str.is_digit; apply andb_true_iff; split; now apply Z.leb_le).
    clear Hlo Hhi.
    assert (forall x, Str.is_digit x = false -> Str.eqb_char c x = false) as Hne'
      by exact Hne.
    repeat split; try (apply Hne; reflexivity).
    rewrite (Hne "e"%char eq_refl), (Hne "E"%char eq_refl). reflexivity.
Qed.

Lemma numeral_parses (ds : string) :
  numeral ds = true ->
  JSON.parse ds = inr (Num (Number.of_decimal false (Lex.digits_value ds) 0)).
Proof.
  unfold numeral. intros H. apply andb_true_iff in H. destruct H as [Hds Hlead].
  destruct ds as [|c rest]; [discriminate Hlead|].
  pose proof Hds as Hall. cbn [all_digits] in Hds.
  apply andb_true_iff in Hds. destruct Hds as [Hc Hrest].
  destruct (digit_opens_number c Hc)
    as [Hws [H1 [H2 [H3 [H4 [H5 [H6 [H7 _]]]]]]]].
  unfold JSON.parse.
  replace (2 * String.length (String c rest) + 2)
    with (S (2 * String.length (String c rest) + 1)) by lia.
  cbn [JSON.parse_value JSON.skip_ws]. rewrite Hws, H1, H2, H3, H4, H5, H6.
  unfold JSON.parse_number. rewrite H7, Hc.
  assert (Lex.take_digits (String c rest) = (String c rest, EmptyString)) as Htake.
  { rewrite <- (Normalize.append_nil (String c rest)) at 1.
    now apply Validation.take_digits_app. }
  assert ((if Str.eqb_char c "0" then Some ("0", rest)
           else Some (Lex.take_digits (String c rest)))
          = Some (String c rest, EmptyString)) as ->.
  { destruct (Str.eqb_char c "0") eqn:Hzero; [|now rewrite Htake].
    cbn [negb orb] in Hlead. destruct rest; [|discriminate Hlead].
    apply Ascii.eqb_eq in Hzero. now subst c. }
  cbn [JSON.skip_ws String.length Z.of_nat].
  rewrite Normalize.append_nil. reflexivity.
Qed.

(** X26. A decimal numeral, such as the [2] of
    [-C jsc.minify.compress.passes=2], comes back from [unstringify] as
    that number, exactly so below 2^53; with a zero in front of
    another digit it is no JSON and comes back as the string it is. *)
Theorem X26_unstringify_numeral (ds : string) :
  (numeral ds = true ->
   (Lex.digits_value ds < 2 ^ 53)%Z ->
   exists n,
     unstringify (Str ds) = Num n
     /\ Number.to_Z n = Some (Lex.digits_value ds))
  /\ (forall d rest,
        ds = String "0" (String d rest) ->
        Str.is_digit d = true ->
        unstringify (Str ds) = Str ds).
Proof.
  split.
  - intros Hnum Hsmall. unfold unstringify. cbn [ToString].
    rewrite (numeral_parses ds Hnum). eexists. split; [reflexivity|].
    apply NumberFacts.natural_accepted. split; [|exact Hsmall].
    unfold numeral in Hnum. apply andb_true_iff in Hnum. destruct Hnum as [Hds _].
    unfold Lex.digits_value. now apply NumberFacts.digits_value_from_nonneg.
  - intros d rest -> Hd.
    destruct (digit_opens_number d Hd)
      as [Hws [_ [_ [_ [_ [_ [_ [_ [Hdot Hexp]]]]]]]]].
    unfold unstringify. cbn [ToString]. unfold JSON.parse.
    replace (2 * String.length (String "0" (String d rest)) + 2)
      with (S (2 * String.length (String "0" (String d rest)) + 1)) by lia.
    destruct (digit_opens_number "0"%char eq_refl)
      as [Z0 [Z1 [Z2 [Z3 [Z4 [Z5 [Z6 [Z7 _]]]]]]]].
    cbn [JSON.parse_value JSON.skip_ws]. rewrite Z0, Z1, Z2, Z3, Z4, Z5, Z6.
    unfold JSON.parse_number. rewrite Z7.
    replace (Str.eqb_char "0"%char "0"%char) with true by reflexivity.
    cbv iota beta. rewrite Hdot, Hexp. cbn [JSON.skip_ws]. rewrite Hws. reflexivity.
Qed.

Lemma X26_unstringify_numeral_witness :
  (exists n, unstringify (Str "2") = Num n /\ Number.to_Z n = Some 2%Z)
  /\ unstringify (Str "007") = Str "007".
Proof.
  split.
  - apply (proj1 (X26_unstringify_numeral "2")); [reflexivity | vm_compute; reflexivity].
  - apply (proj2 (X26_unstringify_numeral "007") "0"%char "7"); reflexivity.
Defined.

End Unstringify.
